(** * Labyrinth raycaster: tile grid, motion, path planner, pursuit, pickup,
      raycaster and sprite compositor of [main.py]

    Conventions of the embedding.
    - Python [int] is [Z].  Python [float] is a real number ([R]): rounding,
      overflow and NaN are outside the model; the one special value the code
      creates on purpose, [float("inf")], is modelled where it occurs.
    - A Python exception is a [Raise] result; a [while] loop whose exit is not
      syntactically bounded runs on fuel and reports [Timeout] when the fuel
      is spent.
    - [dict]s are [gmap]s, lists are lists. *)

From Stdlib Require Import ZArith Reals Lra Lia List String Ascii.
From stdpp Require Import gmap list strings.

Local Open Scope Z_scope.

(** ** Results of partial computations *)

Inductive exn : Type :=
  KeyError | IndexError | ZeroDivisionError | ValueError | OverflowError.

Inductive res (A : Type) : Type :=
| Ok (a : A)
| Raise (e : exn)
| Timeout.
Arguments Ok {A} a.
Arguments Raise {A} e.
Arguments Timeout {A}.

Definition res_bind {A B : Type} (f : A -> res B) (m : res A) : res B :=
  match m with
  | Ok a => f a
  | Raise e => Raise e
  | Timeout => Timeout
  end.

#[global] Instance res_ret : MRet res := fun A a => Ok a.
#[global] Instance res_mbind : MBind res := fun A B f m => res_bind f m.
#[global] Instance res_fmap : FMap res := fun A B f m => res_bind (fun a => Ok (f a)) m.

(** ** The tile grid *)

Definition SCREEN_WIDTH : Z := 960.
Definition SCREEN_HEIGHT : Z := 600.

Definition MAP_LAYOUT : list string :=
  [ "111111111111111111111";
    "100000000000000000001";
    "101111101111111011101";
    "101000101000001010001";
    "101010101011101011101";
    "101010001010001000101";
    "101011111010111110101";
    "101000001010000010101";
    "101111101011111010101";
    "101000101000001010101";
    "101010101111101011101";
    "101010001000101000101";
    "101011111010101110101";
    "101000000010100010001";
    "101111111110111011101";
    "101000000000001010001";
    "101011111111101011101";
    "100010000000001000001";
    "111111111111111111111" ]%string.

Definition WORLD_MAP : list (list ascii) := map list_ascii_of_string MAP_LAYOUT.
Definition MAP_WIDTH : Z := Z.of_nat (length (hd [] WORLD_MAP)).
Definition MAP_HEIGHT : Z := Z.of_nat (length WORLD_MAP).

(** [WORLD_MAP[row][col]] for indices that are not negative. *)
Definition world_map_at (row col : Z) : option ascii :=
  match WORLD_MAP !! Z.to_nat row with
  | Some r => r !! Z.to_nat col
  | None => None
  end.

Definition open_tile (t : ascii) : bool := Ascii.eqb t "0"%char.

(** [grid_blocked]: the last case is the [IndexError] of a short row, which
    the rectangular map never takes ([world_map_at_inside]). *)
Definition grid_blocked (tile_x tile_y : Z) : bool :=
  if (tile_x <? 0) || (tile_y <? 0) || (tile_x >=? MAP_WIDTH) || (tile_y >=? MAP_HEIGHT)
  then true
  else match world_map_at tile_y tile_x with
       | Some t => negb (open_tile t)
       | None => true
       end.

(** ** The path planner *)

Definition cell : Type := Z * Z.

Definition heuristic (a b : cell) : Z := Z.abs (a.1 - b.1) + Z.abs (a.2 - b.2).

(** The frontier.  [heapq] keeps a binary heap of tuples
    [(priority, (x, y))]; what the algorithm observes is that [heappop]
    removes and returns a least tuple in Python's tuple order, which is total
    here, so equal tuples are indistinguishable.  The heap is the list of its
    entries and [heappop] extracts a least one. *)
Definition entry : Type := Z * cell.

Definition entry_leb (e1 e2 : entry) : bool :=
  (e1.1 <? e2.1)
  || ((e1.1 =? e2.1)
      && ((e1.2.1 <? e2.2.1) || ((e1.2.1 =? e2.2.1) && (e1.2.2 <=? e2.2.2)))).

Definition least (h : list entry) (e : entry) : entry :=
  foldl (fun m x => if entry_leb m x then m else x) e h.

Fixpoint remove_one (e : entry) (h : list entry) : list entry :=
  match h with
  | [] => []
  | x :: h' => if decide (x = e) then h' else x :: remove_one e h'
  end.

Definition heappush (h : list entry) (e : entry) : list entry := e :: h.

Definition heappop (h : list entry) : option (entry * list entry) :=
  match h with
  | [] => None
  | e :: h' => let m := least h' e in Some (m, remove_one m h)
  end.

Record astar_state : Type := AStar {
  open_heap : list entry;
  came_from : gmap cell cell;
  g_score : gmap cell Z
}.

Definition neighbors (c : cell) : list cell :=
  [ (c.1 + 1, c.2); (c.1 - 1, c.2); (c.1, c.2 + 1); (c.1, c.2 - 1) ].

(** [tentative_g < g_score.get(neighbor, float("inf"))] *)
Definition improves (tentative_g : Z) (old : option Z) : bool :=
  match old with
  | None => true
  | Some g => tentative_g <? g
  end.

(** One pass of the body of [for nx, ny in ...]. *)
Definition relax (goal current : cell) (st : astar_state) (neighbor : cell)
  : res astar_state :=
  if grid_blocked neighbor.1 neighbor.2 then Ok st
  else match g_score st !! current with
       | None => Raise KeyError
       | Some g =>
           let tentative_g := g + 1 in
           if improves tentative_g (g_score st !! neighbor) then
             let priority := tentative_g + heuristic neighbor goal in
             Ok {| open_heap := heappush (open_heap st) (priority, neighbor);
                   came_from := <[neighbor := current]> (came_from st);
                   g_score := <[neighbor := tentative_g]> (g_score st) |}
           else Ok st
       end.

Fixpoint relax_all (goal current : cell) (st : astar_state) (ns : list cell)
  : res astar_state :=
  match ns with
  | [] => Ok st
  | n :: ns' => st' ← relax goal current st n; relax_all goal current st' ns'
  end.

(** [while current in came_from: current = came_from[current]; path.append(current)] *)
Fixpoint walk_back (fuel : nat) (cf : gmap cell cell) (current : cell)
    (path : list cell) : res (list cell) :=
  match cf !! current with
  | None => Ok path
  | Some prev =>
      match fuel with
      | O => Timeout
      | S fuel' => walk_back fuel' cf prev (path ++ [prev])
      end
  end.

Fixpoint astar_loop (fuel : nat) (back_fuel : nat) (goal : cell) (st : astar_state)
  : res (list cell) :=
  match fuel with
  | O => Timeout
  | S fuel' =>
      match heappop (open_heap st) with
      | None => Ok []
      | Some ((_, current), rest) =>
          if decide (current = goal) then
            path ← walk_back back_fuel (came_from st) current [current];
            Ok (rev path)
          else
            st' ← relax_all goal current
                    {| open_heap := rest;
                       came_from := came_from st;
                       g_score := g_score st |}
                    (neighbors current);
            astar_loop fuel' back_fuel goal st'
      end
  end.

Definition astar_init (start : cell) : astar_state :=
  {| open_heap := heappush [] (0, start);
     came_from := ∅;
     g_score := {[ start := 0 ]} |}.

Definition astar_path_fuel (fuel back_fuel : nat) (start goal : cell) : res (list cell) :=
  if decide (start = goal) then Ok [start]
  else if grid_blocked goal.1 goal.2 then Ok []
  else astar_loop fuel back_fuel goal (astar_init start).

(** Fuel that the two loops never use up ([astar_path_returns]). *)
Definition CELLS : nat := Z.to_nat (MAP_WIDTH * MAP_HEIGHT).
Definition astar_fuel : nat := (CELLS + 2) * (CELLS + 2).
Definition back_fuel : nat := CELLS + 1.

Definition astar_path (start goal : cell) : res (list cell) :=
  astar_path_fuel astar_fuel back_fuel start goal.

Example astar_demo : astar_path (15, 9) (13, 7) =
  Ok [(15, 9); (15, 8); (15, 7); (14, 7); (13, 7)].
Proof. vm_compute. reflexivity. Qed.

(** ** Facts about the grid *)

Lemma grid_blocked_false_inside x y :
  grid_blocked x y = false -> 0 <= x < MAP_WIDTH /\ 0 <= y < MAP_HEIGHT.
Proof.
  unfold grid_blocked.
  destruct (x <? 0) eqn:Hx; [discriminate|].
  destruct (y <? 0) eqn:Hy; [discriminate|].
  destruct (x >=? MAP_WIDTH) eqn:Hw; [discriminate|].
  destruct (y >=? MAP_HEIGHT) eqn:Hh; [discriminate|].
  intros _. lia.
Qed.

(** Every cell of the rectangle, row by row. *)
Definition box : list cell :=
  flat_map (fun y => map (fun x => (x, y)) (seqZ 0 MAP_WIDTH)) (seqZ 0 MAP_HEIGHT).

Lemma box_length : length box = CELLS.
Proof. vm_compute. reflexivity. Qed.

Lemma box_NoDup : NoDup box.
Proof. apply (bool_decide_unpack _). vm_compute. reflexivity. Qed.

Lemma elem_of_box x y :
  0 <= x < MAP_WIDTH -> 0 <= y < MAP_HEIGHT -> (x, y) ∈ box.
Proof.
  intros Hx Hy. unfold box. apply list_elem_of_In, in_flat_map.
  exists y. split.
  - apply list_elem_of_In, elem_of_seqZ. lia.
  - apply (in_map (fun x0 : Z => (x0, y))). apply list_elem_of_In, elem_of_seqZ. lia.
Qed.

(** The rows are all as long as the first, so an in-range lookup succeeds. *)
Lemma world_map_at_inside x y :
  0 <= x < MAP_WIDTH -> 0 <= y < MAP_HEIGHT -> is_Some (world_map_at y x).
Proof.
  intros Hx Hy.
  assert (Hall : forallb (fun c => match world_map_at c.2 c.1 with
                                   | Some _ => true | None => false end) box = true)
    by (vm_compute; reflexivity).
  rewrite forallb_forall in Hall.
  specialize (Hall (x, y) (proj1 (list_elem_of_In _ _) (elem_of_box x y Hx Hy))).
  simpl in Hall. destruct (world_map_at y x); [eauto|discriminate].
Qed.

(** ** Facts about the frontier *)

Lemma entry_leb_prio (m x : entry) :
  (if entry_leb m x then m else x).1 <= m.1 /\ (if entry_leb m x then m else x).1 <= x.1.
Proof.
  unfold entry_leb.
  destruct (m.1 <? x.1) eqn:Hlt; simpl; [lia|].
  destruct (m.1 =? x.1) eqn:Heq; simpl.
  - destruct ((m.2.1 <? x.2.1) || (m.2.1 =? x.2.1) && (m.2.2 <=? x.2.2)); lia.
  - lia.
Qed.

Lemma least_elem (h : list entry) (e : entry) : least h e ∈ e :: h.
Proof.
  revert e. induction h as [|x h IH]; intros e; simpl.
  - left.
  - specialize (IH (if entry_leb e x then e else x)).
    unfold least in IH. apply elem_of_cons in IH as [IH|IH].
    + unfold least. rewrite IH. destruct (entry_leb e x); [left|right; left].
    + right. right. exact IH.
Qed.

Lemma least_below (h : list entry) (e : entry) :
  (least h e).1 <= e.1 /\ (forall x, x ∈ h -> (least h e).1 <= x.1).
Proof.
  revert e. induction h as [|y h IH]; intros e; simpl.
  - split; [lia|]. intros x Hx. inversion Hx.
  - pose proof (entry_leb_prio e y) as [H1 H2].
    destruct (IH (if entry_leb e y then e else y)) as [IH1 IH2].
    unfold least in *. simpl. split; [exact (Z.le_trans _ _ _ IH1 H1)|].
    intros x Hx. apply elem_of_cons in Hx as [->|Hx]; [|auto].
    exact (Z.le_trans _ _ _ IH1 H2).
Qed.

Lemma least_prio (h : list entry) (e x : entry) :
  x ∈ e :: h -> (least h e).1 <= x.1.
Proof.
  destruct (least_below h e) as [H1 H2].
  intros Hx. apply elem_of_cons in Hx as [->|Hx]; auto.
Qed.

Lemma remove_one_length (e : entry) (h : list entry) :
  e ∈ h -> S (length (remove_one e h)) = length h.
Proof.
  induction h as [|x h IH]; intros He; simpl.
  - inversion He.
  - destruct (decide (x = e)) as [->|Hne]; [reflexivity|].
    apply elem_of_cons in He as [->|He]; [congruence|].
    simpl. rewrite IH; auto.
Qed.

Lemma remove_one_subset (e x : entry) (h : list entry) :
  x ∈ remove_one e h -> x ∈ h.
Proof.
  induction h as [|y h IH]; simpl; [auto|].
  destruct (decide (y = e)); intros Hx.
  - right. exact Hx.
  - apply elem_of_cons in Hx as [->|Hx]; [left|right; auto].
Qed.

Lemma remove_one_other (e x : entry) (h : list entry) :
  x ∈ h -> x <> e -> x ∈ remove_one e h.
Proof.
  induction h as [|y h IH]; simpl; intros Hx Hne; [inversion Hx|].
  apply elem_of_cons in Hx as [->|Hx].
  - destruct (decide (y = e)); [congruence|left].
  - destruct (decide (y = e)); [exact Hx|right; auto].
Qed.

Lemma heappop_None (h : list entry) : heappop h = None -> h = [].
Proof. destruct h; [reflexivity|discriminate]. Qed.

Lemma heappop_Some (h : list entry) (m : entry) (rest : list entry) :
  heappop h = Some (m, rest) ->
  m ∈ h /\ (forall x, x ∈ h -> m.1 <= x.1)
  /\ S (length rest) = length h
  /\ (forall x, x ∈ rest -> x ∈ h)
  /\ (forall x, x ∈ h -> x <> m -> x ∈ rest).
Proof.
  destruct h as [|e h]; [discriminate|]. unfold heappop.
  intros [= <- <-].
  pose proof (least_elem h e) as Hin.
  split; [exact Hin|]. split; [intros x; apply least_prio|].
  split; [exact (remove_one_length (least h e) (e :: h) Hin)|].
  split; intros x.
  - exact (remove_one_subset (least h e) x (e :: h)).
  - exact (remove_one_other (least h e) x (e :: h)).
Qed.

(** ** Sums over the rectangle *)

Definition total (f : cell -> nat) (l : list cell) : nat := sum_list (map f l).

Lemma total_bound (f : cell -> nat) (k : nat) (l : list cell) :
  (forall c, f c <= k)%nat -> (total f l <= length l * k)%nat.
Proof.
  intros Hf. unfold total. induction l as [|c l IH]; simpl; [lia|].
  specialize (Hf c). lia.
Qed.

Lemma total_ext (f f' : cell -> nat) (l : list cell) :
  (forall c, c ∈ l -> f' c = f c) -> total f' l = total f l.
Proof.
  unfold total. induction l as [|c l IH]; intros H; simpl; [reflexivity|].
  rewrite H by left. rewrite IH; [reflexivity|]. intros; apply H; right; auto.
Qed.

(** Changing [f] at one cell of a duplicate-free list changes the sum by as
    much. *)
Lemma total_change (f f' : cell -> nat) (n : cell) (l : list cell) :
  NoDup l -> n ∈ l -> (forall c, c <> n -> f' c = f c) ->
  (total f' l + f n = total f l + f' n)%nat.
Proof.
  intros Hnd Hn Hf. induction Hnd as [|c l Hc Hnd IH].
  - inversion Hn.
  - unfold total in *. simpl. apply elem_of_cons in Hn as [<-|Hn].
    + assert (sum_list (map f' l) = sum_list (map f l)) as ->; [|lia].
      apply (total_ext f f' l). intros c Hcl. apply Hf. intros ->. contradiction.
    + rewrite (Hf c) by (intros ->; contradiction). specialize (IH Hn). lia.
Qed.

(** ** Routes on the grid *)

Definition passable (c : cell) : Prop := grid_blocked c.1 c.2 = false.
Definition adjacent (a b : cell) : Prop := b ∈ neighbors a.

(** A route lists the cells walked through, first to last; every step goes to
    one of the four neighbours and enters a tile that is not blocking.  The
    first cell is where the walker already stands and is not examined. *)
Inductive route (start : cell) : cell -> list cell -> Prop :=
| route_start : route start start [start]
| route_step b c p :
    route start b p -> adjacent b c -> passable c -> route start c (p ++ [c]).

Definition reachable (start goal : cell) : Prop := exists p, route start goal p.

Definition shortest_route (start goal : cell) (p : list cell) : Prop :=
  route start goal p /\ forall q, route start goal q -> (length p <= length q)%nat.

Lemma adjacent_cases (a b : cell) :
  adjacent a b ->
  b = (a.1 + 1, a.2) \/ b = (a.1 - 1, a.2) \/ b = (a.1, a.2 + 1) \/ b = (a.1, a.2 - 1).
Proof.
  unfold adjacent, neighbors. rewrite !elem_of_cons, elem_of_nil. tauto.
Qed.

Lemma adjacent_ne (a b : cell) : adjacent a b -> b <> a.
Proof.
  intros H ->. destruct a as [x y].
  apply adjacent_cases in H. simpl in H.
  destruct H as [H|[H|[H|H]]]; inversion H; lia.
Qed.

Lemma heuristic_nonneg (a b : cell) : 0 <= heuristic a b.
Proof. unfold heuristic. lia. Qed.

Lemma heuristic_step (w b c : cell) :
  adjacent b c -> heuristic w c <= heuristic w b + 1.
Proof.
  intros H. destruct b as [x y]. apply adjacent_cases in H. simpl in H.
  unfold heuristic. destruct H as [-> | [-> | [-> | ->]]]; simpl; lia.
Qed.

Lemma heuristic_self (a : cell) : heuristic a a = 0.
Proof. unfold heuristic. lia. Qed.

Lemma passable_in_box (c : cell) : passable c -> c ∈ box.
Proof.
  destruct c as [x y]. unfold passable. simpl. intros H.
  apply grid_blocked_false_inside in H as [Hx Hy]. apply elem_of_box; assumption.
Qed.

Lemma route_head (start goal : cell) (p : list cell) :
  route start goal p -> exists q, p = start :: q.
Proof.
  induction 1 as [|b c p _ IH _ _]; [exists []; reflexivity|].
  destruct IH as [q Hq]. subst p. exists (q ++ [c]). reflexivity.
Qed.

Lemma route_last (start goal : cell) (p : list cell) :
  route start goal p -> last p = Some goal.
Proof. destruct 1; [reflexivity|apply last_snoc]. Qed.

Lemma route_blocked_goal (start goal : cell) (p : list cell) :
  route start goal p -> grid_blocked goal.1 goal.2 = true -> goal = start.
Proof. destruct 1 as [|b c p _ _ Hc]; [reflexivity|]. unfold passable in Hc. congruence. Qed.

(** ** The loop invariant of the search *)

(** Potential of the score table: a cell of the rectangle counts its score,
    or one more than any score can be while it has none. *)
Definition phi (g : gmap cell Z) (c : cell) : nat :=
  match g !! c with
  | None => S CELLS
  | Some v => Z.to_nat v
  end.

Definition known (g : gmap cell Z) (c : cell) : nat :=
  match g !! c with
  | None => 0
  | Some _ => 1
  end.

Definition potential (g : gmap cell Z) : nat := total (phi g) box.
Definition reached (g : gmap cell Z) : nat := total (known g) box.
Definition measure (st : astar_state) : nat :=
  (length (open_heap st) + potential (g_score st))%nat.

Lemma reached_bound (g : gmap cell Z) : (reached g <= CELLS)%nat.
Proof.
  unfold reached. rewrite <- box_length, <- (Nat.mul_1_r (length box)).
  apply total_bound. intros c. unfold known. destruct (g !! c); lia.
Qed.

Lemma reached_insert (g : gmap cell Z) (n : cell) (t : Z) :
  n ∈ box -> (reached (<[n:=t]> g) + known g n = reached g + 1)%nat.
Proof.
  intros Hn. unfold reached.
  assert (Hnew : known (<[n:=t]> g) n = 1%nat)
    by (unfold known; rewrite lookup_insert_eq; reflexivity).
  rewrite <- Hnew.
  apply (total_change (known g) (known (<[n:=t]> g)) n box box_NoDup Hn).
  intros c Hc. unfold known. rewrite lookup_insert_ne by congruence. reflexivity.
Qed.

Lemma potential_insert (g : gmap cell Z) (n : cell) (t : Z) :
  n ∈ box ->
  (potential (<[n:=t]> g) + phi g n = potential g + Z.to_nat t)%nat.
Proof.
  intros Hn. unfold potential.
  assert (Hnew : phi (<[n:=t]> g) n = Z.to_nat t)
    by (unfold phi; rewrite lookup_insert_eq; reflexivity).
  rewrite <- Hnew.
  apply (total_change (phi g) (phi (<[n:=t]> g)) n box box_NoDup Hn).
  intros c Hc. unfold phi. rewrite lookup_insert_ne by congruence. reflexivity.
Qed.

Lemma astar_loop_S (fuel bf : nat) (goal : cell) (st : astar_state) :
  astar_loop (S fuel) bf goal st =
  match heappop (open_heap st) with
  | None => Ok []
  | Some ((_, current), rest) =>
      if decide (current = goal) then
        res_bind (fun path => Ok (rev path)) (walk_back bf (came_from st) current [current])
      else
        res_bind (astar_loop fuel bf goal)
          (relax_all goal current
             {| open_heap := rest; came_from := came_from st; g_score := g_score st |}
             (neighbors current))
  end.
Proof. reflexivity. Qed.

Section Search.
Variables start goal : cell.

(** What holds of the three tables at every test of [while open_heap]. *)
Record inv (st : astar_state) : Prop := Inv {
  inv_start : g_score st !! start = Some 0;
  inv_root : came_from st !! start = None;
  inv_parent : forall c p, came_from st !! c = Some p ->
    exists vc vp, g_score st !! c = Some vc /\ g_score st !! p = Some vp
                  /\ vp + 1 <= vc /\ adjacent p c /\ passable c;
  inv_score : forall c v, g_score st !! c = Some v ->
    0 <= v /\ (c = start \/ is_Some (came_from st !! c))
    /\ (Z.to_nat v <= reached (g_score st))%nat;
  inv_heap : forall pr c, (pr, c) ∈ open_heap st ->
    exists v, g_score st !! c = Some v /\ (c <> start -> v + heuristic c goal <= pr)
}.

(** A scored cell either still waits in the frontier with a priority no
    worse than its score warrants, or has been expanded with that score. *)
Definition settled (st : astar_state) (c : cell) (v : Z) : Prop :=
  (exists pr, (pr, c) ∈ open_heap st /\ pr <= v + heuristic c goal)
  \/ (c <> goal /\ forall n, adjacent c n -> passable n ->
        exists w, g_score st !! n = Some w /\ w <= v + 1).

Definition frontier_inv (st : astar_state) : Prop :=
  forall c v, g_score st !! c = Some v -> settled st c v.

(** The same in the middle of expanding [current], the neighbours in
    [done] having been looked at. *)
Definition mid (st : astar_state) (current : cell) (done : list cell) : Prop :=
  (forall c v, c <> current -> g_score st !! c = Some v -> settled st c v)
  /\ exists vc, g_score st !! current = Some vc
       /\ forall n, n ∈ done -> passable n ->
            exists w, g_score st !! n = Some w /\ w <= vc + 1.

Lemma relax_ok (st : astar_state) (current n : cell) (done : list cell) :
  inv st -> mid st current done -> adjacent current n ->
  exists st', relax goal current st n = Ok st' /\ inv st'
              /\ mid st' current (n :: done)
              /\ (measure st' <= measure st)%nat.
Proof.
  intros Hinv [Hothers (vc & Hvc & Hdone)] Hadj.
  pose proof (adjacent_ne _ _ Hadj) as Hnc.
  destruct (inv_score st Hinv current vc Hvc) as (Hvc0 & _ & _).
  unfold relax. destruct (grid_blocked n.1 n.2) eqn:Hblk.
  { exists st. split; [reflexivity|]. split; [assumption|]. split; [|lia].
    split; [assumption|]. exists vc. split; [assumption|]. intros m Hm Hpass.
    apply elem_of_cons in Hm as [->|Hm]; [|auto].
    unfold passable in Hpass. congruence. }
  rewrite Hvc. cbv zeta.
  destruct (improves (vc + 1) (g_score st !! n)) eqn:Himp.
  2:{ destruct (g_score st !! n) as [w|] eqn:Hn; [|discriminate].
      simpl in Himp. apply Z.ltb_ge in Himp.
      exists st. split; [reflexivity|]. split; [assumption|]. split; [|lia].
      split; [assumption|]. exists vc. split; [assumption|]. intros m Hm Hpass.
      apply elem_of_cons in Hm as [->|Hm]; [|auto].
      exists w. split; [assumption|lia]. }
  assert (Hold : forall w, g_score st !! n = Some w -> vc + 1 < w).
  { intros w Hw. rewrite Hw in Himp. simpl in Himp. lia. }
  assert (Hns : n <> start).
  { intros ->. specialize (Hold 0 (inv_start st Hinv)). lia. }
  assert (Hbox : n ∈ box) by (apply passable_in_box; exact Hblk).
  set (g' := <[n:=vc + 1]> (g_score st)).
  assert (Hreach : (reached (g_score st) <= reached g')%nat
                   /\ (Z.to_nat (vc + 1) <= reached g')%nat).
  { pose proof (reached_insert (g_score st) n (vc + 1) Hbox) as Hr. fold g' in Hr.
    destruct (inv_score st Hinv current vc Hvc) as (_ & _ & Hb).
    unfold known in Hr. destruct (g_score st !! n) as [w|] eqn:Hn.
    - destruct (inv_score st Hinv n w Hn) as (_ & _ & Hbn).
      specialize (Hold w eq_refl). lia.
    - lia. }
  destruct Hreach as [Hmono Hnew]. subst g'.
  eexists. split; [reflexivity|]. split; [|split].
  - (* the invariant *)
    constructor; simpl.
    + rewrite lookup_insert_ne by congruence. apply (inv_start st Hinv).
    + rewrite lookup_insert_ne by congruence. apply (inv_root st Hinv).
    + intros c p Hcp. destruct (decide (c = n)) as [->|Hcn].
      * rewrite lookup_insert_eq in Hcp. injection Hcp as <-.
        exists (vc + 1), vc. rewrite lookup_insert_eq.
        rewrite lookup_insert_ne by congruence.
        repeat split; [assumption|lia|assumption|exact Hblk].
      * rewrite lookup_insert_ne in Hcp by congruence.
        destruct (inv_parent st Hinv c p Hcp) as (vcc & vpp & Hc & Hp & Hle & Ha & Hpa).
        rewrite lookup_insert_ne by congruence.
        destruct (decide (p = n)) as [->|Hpn].
        -- exists vcc, (vc + 1). rewrite lookup_insert_eq.
           specialize (Hold vpp Hp). repeat split; [assumption|lia|assumption|assumption].
        -- exists vcc, vpp. rewrite lookup_insert_ne by congruence.
           repeat split; assumption.
    + intros c v Hc. destruct (decide (c = n)) as [->|Hcn].
      * rewrite lookup_insert_eq in Hc. injection Hc as <-.
        rewrite lookup_insert_eq. split; [lia|]. split; [right; eauto|exact Hnew].
      * rewrite lookup_insert_ne in Hc by congruence.
        rewrite lookup_insert_ne by congruence.
        destruct (inv_score st Hinv c v Hc) as (H0 & Hcf & Hb).
        split; [assumption|]. split; [assumption|lia].
    + intros pr c Hin. unfold heappush in Hin.
      apply elem_of_cons in Hin as [[= -> ->]|Hin].
      * exists (vc + 1). rewrite lookup_insert_eq. split; [reflexivity|lia].
      * destruct (inv_heap st Hinv pr c Hin) as (v & Hv & Hle).
        destruct (decide (c = n)) as [->|Hcn].
        -- exists (vc + 1). rewrite lookup_insert_eq. split; [reflexivity|].
           intros Hs. specialize (Hle Hs). specialize (Hold v Hv). lia.
        -- exists v. rewrite lookup_insert_ne by congruence. split; assumption.
  - (* the expansion in progress *)
    split; simpl.
    + intros c v Hcc Hc. unfold settled. simpl.
      destruct (decide (c = n)) as [->|Hcn].
      * rewrite lookup_insert_eq in Hc. injection Hc as <-.
        left. exists (vc + 1 + heuristic n goal). split; [left|lia].
      * rewrite lookup_insert_ne in Hc by congruence.
        destruct (Hothers c v Hcc Hc) as [(pr & Hin & Hle)|(Hg & Hnb)].
        -- left. exists pr. split; [right; exact Hin|exact Hle].
        -- right. split; [exact Hg|]. intros m Hm Hpass.
           destruct (Hnb m Hm Hpass) as (w & Hw & Hle).
           destruct (decide (m = n)) as [->|Hmn].
           ++ exists (vc + 1). rewrite lookup_insert_eq. split; [reflexivity|].
              specialize (Hold w Hw). lia.
           ++ exists w. rewrite lookup_insert_ne by congruence. split; assumption.
    + exists vc. rewrite lookup_insert_ne by congruence. split; [assumption|].
      intros m Hm Hpass. destruct (decide (m = n)) as [->|Hmn].
      * exists (vc + 1). rewrite lookup_insert_eq. split; [reflexivity|lia].
      * apply elem_of_cons in Hm as [->|Hm]; [congruence|].
        destruct (Hdone m Hm Hpass) as (w & Hw & Hle).
        exists w. rewrite lookup_insert_ne by congruence. split; assumption.
  - (* the measure *)
    unfold measure, heappush. simpl.
    pose proof (potential_insert (g_score st) n (vc + 1) Hbox) as Hp.
    pose proof (reached_bound (<[n:=vc + 1]> (g_score st))) as Hrb.
    unfold phi in Hp. destruct (g_score st !! n) as [w|] eqn:Hn.
    + specialize (Hold w eq_refl). lia.
    + lia.
Qed.

Lemma relax_all_ok (current : cell) (ns : list cell) :
  forall st done,
    inv st -> mid st current done -> (forall n, n ∈ ns -> adjacent current n) ->
    exists st' done',
      relax_all goal current st ns = Ok st' /\ inv st' /\ mid st' current done'
      /\ (forall n, n ∈ ns -> n ∈ done')
      /\ (forall n, n ∈ done -> n ∈ done')
      /\ (measure st' <= measure st)%nat.
Proof.
  induction ns as [|n ns IH]; intros st done Hinv Hmid Hadj.
  - exists st, done. split; [reflexivity|]. split; [assumption|].
    split; [assumption|]. split; [|split; [auto|lia]].
    intros n Hn. inversion Hn.
  - destruct (relax_ok st current n done Hinv Hmid) as (st1 & Hr & Hinv1 & Hmid1 & Hm1).
    { apply Hadj. left. }
    destruct (IH st1 (n :: done) Hinv1 Hmid1) as (st' & done' & Hr' & Hinv' & Hmid' & Hns & Hd & Hm').
    { intros m Hm. apply Hadj. right. exact Hm. }
    exists st', done'. simpl. rewrite Hr. simpl. split; [exact Hr'|].
    split; [assumption|]. split; [assumption|]. split; [|split].
    + intros m Hm. apply elem_of_cons in Hm as [->|Hm]; [apply Hd; left|auto].
    + intros m Hm. apply Hd. right. exact Hm.
    + lia.
Qed.

(** Along any route from [start], either the cell arrived at has a score
    no longer than the route, or the frontier holds an entry whose
    priority, by the heuristic's triangle inequality, undercuts it. *)
Lemma frontier_reach (st : astar_state) (c : cell) (q : list cell) :
  inv st -> frontier_inv st -> route start c q ->
  (exists v, g_score st !! c = Some v /\ v <= Z.of_nat (length q) - 1)
  \/ (exists pr w k, (pr, w) ∈ open_heap st /\ pr <= k + heuristic w goal
                     /\ k + heuristic w c <= Z.of_nat (length q) - 1).
Proof.
  intros Hinv Hfr Hroute. induction Hroute as [|b c p Hroute IH Hadj Hpass].
  - left. exists 0. split; [apply (inv_start st Hinv)|simpl; lia].
  - rewrite length_app. simpl.
    destruct IH as [(v & Hv & Hle)|(pr & w & k & Hin & Hpr & Hk)].
    + destruct (Hfr b v Hv) as [(pr & Hin & Hpr)|(_ & Hnb)].
      * right. exists pr, b, v. split; [assumption|]. split; [assumption|].
        pose proof (heuristic_step b b c Hadj) as Hs.
        rewrite heuristic_self in Hs. lia.
      * left. destruct (Hnb c Hadj Hpass) as (w & Hw & Hlw).
        exists w. split; [assumption|lia].
    + right. exists pr, w, k. split; [assumption|]. split; [assumption|].
      pose proof (heuristic_step w b c Hadj). lia.
Qed.

(** Following [came_from] from a scored cell ends at [start] within as
    many steps as the score, and the cells passed are a route. *)
Lemma walk_back_ok (st : astar_state) :
  inv st ->
  forall (k : nat) (c : cell) (v : Z) (acc : list cell) (fuel : nat),
    g_score st !! c = Some v -> (Z.to_nat v <= k)%nat -> (k <= fuel)%nat ->
    exists chain,
      walk_back fuel (came_from st) c acc = Ok (acc ++ chain)
      /\ route start c (rev chain ++ [c]) /\ (length chain <= k)%nat.
Proof.
  intros Hinv. induction k as [|k IH]; intros c v acc fuel Hv Hk Hfuel.
  - destruct (inv_score st Hinv c v Hv) as (Hv0 & Hcf & _).
    destruct (came_from st !! c) as [p|] eqn:Hp.
    + destruct (inv_parent st Hinv c p Hp) as (vc & vp & Hc & Hpp & Hle & _).
      destruct (inv_score st Hinv p vp Hpp) as (Hvp0 & _).
      rewrite Hv in Hc. injection Hc as <-. lia.
    + destruct Hcf as [->|Hcf]; [|destruct Hcf; discriminate].
      exists []. split; [|split; [constructor|simpl; lia]].
      destruct fuel; simpl; rewrite Hp, app_nil_r; reflexivity.
  - destruct (inv_score st Hinv c v Hv) as (Hv0 & Hcf & _).
    destruct (came_from st !! c) as [p|] eqn:Hp.
    + destruct (inv_parent st Hinv c p Hp) as (vc & vp & Hc & Hpp & Hle & Hadj & Hpass).
      destruct (inv_score st Hinv p vp Hpp) as (Hvp0 & _).
      rewrite Hv in Hc. injection Hc as <-.
      destruct fuel as [|fuel]; [lia|].
      destruct (IH p vp (acc ++ [p]) fuel Hpp) as (chain & Hw & Hroute & Hlen); [lia|lia|].
      exists (p :: chain). simpl. rewrite Hp, Hw, <- app_assoc. simpl.
      split; [reflexivity|]. split; [|lia].
      apply (route_step start p c); assumption.
    + destruct Hcf as [->|Hcf]; [|destruct Hcf; discriminate].
      exists []. split; [|split; [constructor|simpl; lia]].
      destruct fuel; simpl; rewrite Hp, app_nil_r; reflexivity.
Qed.

(** What the search owes its caller when [start] and [goal] differ. *)
Definition planned (p : list cell) : Prop :=
  (p = [] /\ ~ reachable start goal) \/ shortest_route start goal p.

Hypothesis start_ne_goal : start <> goal.

Lemma astar_loop_ok (bf : nat) :
  (CELLS < bf)%nat ->
  forall (fuel : nat) (st : astar_state),
    inv st -> frontier_inv st -> (measure st < fuel)%nat ->
    exists p, astar_loop fuel bf goal st = Ok p /\ planned p.
Proof.
  intros Hbf. induction fuel as [|fuel IH]; intros st Hinv Hfr Hfuel; [lia|].
  rewrite astar_loop_S.
  destruct (heappop (open_heap st)) as [[[pr current] rest]|] eqn:Hpop.
  2:{ (* the frontier is exhausted *)
      apply heappop_None in Hpop.
      exists []. split; [reflexivity|]. left. split; [reflexivity|].
      intros [q Hq].
      destruct (frontier_reach st goal q Hinv Hfr Hq)
        as [(v & Hv & _)|(pr & w & k & Hin & _)].
      - destruct (Hfr goal v Hv) as [(pr & Hin & _)|(Hne & _)]; [|congruence].
        rewrite Hpop in Hin. inversion Hin.
      - rewrite Hpop in Hin. inversion Hin. }
  apply heappop_Some in Hpop as (Hin & Hmin & Hlen & Hsub & Hrest).
  destruct (inv_heap st Hinv pr current Hin) as (vc & Hvc & Hprio).
  destruct (decide (current = goal)) as [->|Hcg].
  - (* the goal is popped *)
    destruct (inv_score st Hinv goal vc Hvc) as (Hvc0 & _ & Hb).
    pose proof (reached_bound (g_score st)) as Hrb.
    destruct (walk_back_ok st Hinv (Z.to_nat vc) goal vc [goal] bf Hvc)
      as (chain & Hw & Hroute & Hchain); [lia|lia|].
    rewrite Hw. exists (rev chain ++ [goal]). split; [reflexivity|].
    right. split; [exact Hroute|].
    intros q Hq. rewrite length_app, length_rev. simpl.
    specialize (Hprio (not_eq_sym start_ne_goal)). rewrite heuristic_self in Hprio.
    destruct (frontier_reach st goal q Hinv Hfr Hq)
      as [(v & Hv & Hle)|(pr' & w & k & Hin' & Hpr' & Hk)].
    + rewrite Hvc in Hv. injection Hv as <-. lia.
    + specialize (Hmin _ Hin'). simpl in Hmin. lia.
  - (* a cell other than the goal is expanded *)
    set (st0 := {| open_heap := rest; came_from := came_from st; g_score := g_score st |}).
    assert (Hinv0 : inv st0).
    { destruct Hinv as [H1 H2 H3 H4 H5]. constructor; simpl; auto. }
    assert (Hmid0 : mid st0 current []).
    { split.
      - intros c v Hcc Hc. destruct (Hfr c v Hc) as [(pr' & Hin' & Hle)|Hclosed].
        + left. exists pr'. split; [|exact Hle]. simpl. apply Hrest; [exact Hin'|].
          congruence.
        + right. exact Hclosed.
      - exists vc. split; [exact Hvc|]. intros n Hn. inversion Hn. }
    destruct (relax_all_ok current (neighbors current) st0 [] Hinv0 Hmid0)
      as (st' & done' & Hr & Hinv' & [Hothers (vc' & Hvc' & Hdone)] & Hns & _ & Hm);
      [auto|].
    rewrite Hr. change (exists p, astar_loop fuel bf goal st' = Ok p /\ planned p).
    apply IH; [exact Hinv'| |].
    + intros c v Hc. destruct (decide (c = current)) as [->|Hcc]; [|auto].
      rewrite Hvc' in Hc. injection Hc as <-.
      right. split; [exact Hcg|]. intros n Hn Hpass. apply Hdone; [|exact Hpass].
      apply Hns. exact Hn.
    + unfold measure in *. subst st0. cbn [open_heap g_score] in Hm. lia.
Qed.

Lemma astar_init_inv : inv (astar_init start) /\ frontier_inv (astar_init start).
Proof.
  split.
  - constructor; cbn [astar_init open_heap came_from g_score].
    + apply lookup_singleton_eq.
    + apply lookup_empty.
    + intros c p Hc. rewrite lookup_empty in Hc. discriminate.
    + intros c v Hc. apply lookup_singleton_Some in Hc as [<- <-].
      split; [lia|]. split; [left; reflexivity|simpl; lia].
    + intros pr c Hin. unfold heappush in Hin.
      apply list_elem_of_singleton in Hin. injection Hin as -> ->.
      exists 0. split; [apply lookup_singleton_eq|congruence].
  - intros c v Hc. cbn [astar_init g_score] in Hc.
    apply lookup_singleton_Some in Hc as [<- <-].
    left. exists 0. split; [left|]. pose proof (heuristic_nonneg start goal). lia.
Qed.

Lemma astar_init_measure : (measure (astar_init start) < astar_fuel)%nat.
Proof.
  unfold measure, astar_fuel, astar_init, heappush.
  cbn [open_heap g_score length].
  assert (potential {[start := 0%Z]} <= length box * S CELLS)%nat as Hp.
  { apply total_bound. intros c. unfold phi.
    destruct (({[start := 0]} : gmap cell Z) !! c) as [v|] eqn:Hc; [|lia].
    apply lookup_singleton_Some in Hc as [_ <-]. lia. }
  rewrite box_length in Hp. nia.
Qed.

Lemma astar_path_planned :
  exists p, astar_path start goal = Ok p /\ planned p.
Proof.
  unfold astar_path, astar_path_fuel.
  destruct (decide (start = goal)) as [Heq|_]; [contradiction|].
  destruct (grid_blocked goal.1 goal.2) eqn:Hblk.
  - exists []. split; [reflexivity|]. left. split; [reflexivity|].
    intros [q Hq]. apply route_blocked_goal in Hq; [|exact Hblk]. congruence.
  - destruct astar_init_inv as [Hinv Hfr].
    apply astar_loop_ok; [unfold back_fuel; lia|exact Hinv|exact Hfr|].
    apply astar_init_measure.
Qed.

End Search.

(** ** The planner's contract *)

Lemma blocked_goal_unreachable (start goal : cell) :
  start <> goal -> grid_blocked goal.1 goal.2 = true -> ~ reachable start goal.
Proof.
  intros Hne Hblk [q Hq]. apply route_blocked_goal in Hq; [congruence|exact Hblk].
Qed.

(** C1, as amended.  [astar_path] always returns.  When [start] and [goal]
    differ and some 4-connected route leads from [start] to [goal] through
    tiles that are not blocking, the result is such a route, listed from
    [start] to [goal] inclusive, and no route is shorter; when they differ and
    there is no route (in particular when [goal] is blocking), the result is
    the empty path; when they are the same cell the result is that one cell.
    The start cell itself is never tested for blocking. *)
Theorem astar_path_shortest (start goal : cell) :
  exists p, astar_path start goal = Ok p /\
    ((start = goal /\ p = [start])
     \/ (start <> goal /\ ~ reachable start goal /\ p = [])
     \/ (start <> goal /\ reachable start goal /\ shortest_route start goal p
         /\ head p = Some start /\ last p = Some goal)).
Proof.
  destruct (decide (start = goal)) as [<-|Hne].
  - exists [start]. split; [|left; split; reflexivity].
    unfold astar_path, astar_path_fuel. destruct (decide (start = start)); congruence.
  - destruct (astar_path_planned start goal Hne) as (p & Hp & [[-> Hno]|Hshort]).
    + exists []. split; [exact Hp|]. right. left. repeat split; assumption.
    + exists p. split; [exact Hp|]. right. right.
      destruct Hshort as [Hroute Hmin].
      split; [exact Hne|]. split; [exists p; exact Hroute|].
      split; [split; assumption|].
      split; [|apply (route_last start); exact Hroute].
      destruct (route_head start goal p Hroute) as [q ->]. reflexivity.
Qed.

(** C1 as stated fails: the corner (0, 0) is a blocking tile, and asked for
    a path from it to itself the planner returns a path that is not empty. *)
Lemma astar_path_blocked_goal_not_empty :
  grid_blocked 0 0 = true /\ astar_path (0, 0) (0, 0) <> Ok [].
Proof. split; [vm_compute; reflexivity|vm_compute; discriminate]. Qed.

(** C10.  Asked for a path from a cell to itself, [astar_path] returns the
    one-cell path, whether or not the cell is blocking; and for a blocking
    goal the result is not empty in exactly that case. *)
Theorem astar_path_start_is_goal (start goal : cell) :
  astar_path goal goal = Ok [goal]
  /\ (grid_blocked goal.1 goal.2 = true ->
      astar_path start goal = Ok (if decide (start = goal) then [start] else [])).
Proof.
  unfold astar_path, astar_path_fuel. split.
  - destruct (decide (goal = goal)); congruence.
  - intros Hblk. destruct (decide (start = goal)); [reflexivity|].
    rewrite Hblk. reflexivity.
Qed.

Lemma astar_path_start_is_goal_witness :
  grid_blocked 2 2 = true
  /\ astar_path (2, 2) (2, 2) = Ok [(2, 2)] /\ astar_path (1, 1) (2, 2) = Ok [].
Proof.
  split; [vm_compute; reflexivity|].
  destruct (astar_path_start_is_goal (1, 1) (2, 2)) as [H1 H2].
  split; [exact H1|exact (H2 eq_refl)].
Defined.

(** ** Real-valued coordinates *)

Definition Rltb (x y : R) : bool := if Rlt_dec x y then true else false.
Definition Rleb (x y : R) : bool := if Rle_dec x y then true else false.
Definition Reqb (x y : R) : bool := if Req_dec_T x y then true else false.

Lemma Rltb_true (x y : R) : Rltb x y = true <-> (x < y)%R.
Proof. unfold Rltb. destruct (Rlt_dec x y); split; intros; try discriminate; auto; lra. Qed.

Lemma Rltb_false (x y : R) : Rltb x y = false <-> (y <= x)%R.
Proof. unfold Rltb. destruct (Rlt_dec x y); split; intros; try discriminate; auto; lra. Qed.

Lemma Rleb_true (x y : R) : Rleb x y = true <-> (x <= y)%R.
Proof. unfold Rleb. destruct (Rle_dec x y); split; intros; try discriminate; auto; lra. Qed.

Lemma Rleb_false (x y : R) : Rleb x y = false <-> (y < x)%R.
Proof. unfold Rleb. destruct (Rle_dec x y); split; intros; try discriminate; auto; lra. Qed.

Lemma Reqb_true (x y : R) : Reqb x y = true <-> x = y.
Proof. unfold Reqb. destruct (Req_dec_T x y); split; intros; try discriminate; auto; lra. Qed.

Lemma Reqb_false (x y : R) : Reqb x y = false <-> x <> y.
Proof. unfold Reqb. destruct (Req_dec_T x y); split; intros; try discriminate; auto; lra. Qed.

(** [int(x)]: truncation towards zero. *)
Definition py_int (x : R) : Z :=
  if Rle_dec 0 x then Int_part x else - Int_part (- x).

Lemma py_int_nonneg (x : R) (z : Z) :
  (IZR z <= x < IZR z + 1)%R -> (0 <= x)%R -> py_int x = z.
Proof.
  intros Hz Hx. unfold py_int. destruct (Rle_dec 0 x); [|lra].
  symmetry. apply Int_part_spec. lra.
Qed.

Lemma py_int_floor (x : R) : (0 <= x)%R -> (IZR (py_int x) <= x < IZR (py_int x) + 1)%R.
Proof.
  intros Hx. unfold py_int. destruct (Rle_dec 0 x); [|lra].
  destruct (base_Int_part x). lra.
Qed.

(** ** Collision-aware motion *)

Definition is_blocking (x y : R) : bool :=
  if Rltb x 0 || Rltb y 0 || Rleb (IZR MAP_WIDTH) x || Rleb (IZR MAP_HEIGHT) y then true
  else match world_map_at (py_int y) (py_int x) with
       | Some tile => negb (open_tile tile)
       | None => true
       end.

Definition move_entity (x y move_x move_y : R) : R * R :=
  let new_x := (x + move_x)%R in
  let new_y := (y + move_y)%R in
  let x := if negb (is_blocking new_x y) then new_x else x in
  let y := if negb (is_blocking x new_y) then new_y else y in
  (x, y).

(** The positions an entity passes through when [move_entity] is applied to
    one displacement after another. *)
Fixpoint move_sequence (x y : R) (deltas : list (R * R)) : list (R * R) :=
  match deltas with
  | [] => []
  | (move_x, move_y) :: rest =>
      let p := move_entity x y move_x move_y in
      p :: move_sequence p.1 p.2 rest
  end.

(** The continuous query at a point of the map is the discrete query at the
    tile the point lies in. *)
Lemma is_blocking_tile (x y : R) (tx ty : Z) :
  (IZR tx <= x < IZR tx + 1)%R -> (IZR ty <= y < IZR ty + 1)%R ->
  0 <= tx -> 0 <= ty -> is_blocking x y = grid_blocked tx ty.
Proof.
  intros Hx Hy Htx Hty.
  assert (0 <= x)%R as Hx0 by (apply IZR_le in Htx; lra).
  assert (0 <= y)%R as Hy0 by (apply IZR_le in Hty; lra).
  unfold is_blocking, grid_blocked.
  rewrite (py_int_nonneg x tx Hx Hx0), (py_int_nonneg y ty Hy Hy0).
  replace (Rltb x 0) with false by (symmetry; apply Rltb_false; lra).
  replace (Rltb y 0) with false by (symmetry; apply Rltb_false; lra).
  replace (tx <? 0) with false by (symmetry; apply Z.ltb_ge; lia).
  replace (ty <? 0) with false by (symmetry; apply Z.ltb_ge; lia).
  assert (Rleb (IZR MAP_WIDTH) x = (tx >=? MAP_WIDTH)) as ->.
  { destruct (tx >=? MAP_WIDTH) eqn:H.
    - apply Rleb_true. apply Z.geb_le in H. apply IZR_le in H. lra.
    - apply Rleb_false. rewrite Z.geb_leb in H. apply Z.leb_gt in H.
      assert (tx + 1 <= MAP_WIDTH) as H' by lia. apply IZR_le in H'.
      rewrite plus_IZR in H'. lra. }
  assert (Rleb (IZR MAP_HEIGHT) y = (ty >=? MAP_HEIGHT)) as ->.
  { destruct (ty >=? MAP_HEIGHT) eqn:H.
    - apply Rleb_true. apply Z.geb_le in H. apply IZR_le in H. lra.
    - apply Rleb_false. rewrite Z.geb_leb in H. apply Z.leb_gt in H.
      assert (ty + 1 <= MAP_HEIGHT) as H' by lia. apply IZR_le in H'.
      rewrite plus_IZR in H'. lra. }
  reflexivity.
Qed.

Lemma move_entity_safe (x y move_x move_y : R) :
  is_blocking x y = false ->
  is_blocking (move_entity x y move_x move_y).1 (move_entity x y move_x move_y).2 = false.
Proof.
  intros Hxy. unfold move_entity. cbv zeta.
  destruct (is_blocking (x + move_x) y) eqn:Hx; simpl.
  - destruct (is_blocking x (y + move_y)) eqn:Hy; simpl; assumption.
  - destruct (is_blocking (x + move_x) (y + move_y)) eqn:Hy; simpl; assumption.
Qed.

(** C2.  From a position that is not blocking, every position that a
    sequence of displacements leads through is not blocking; and a
    displacement blocked on one axis only keeps its other component: the
    horizontal part is kept when the cell beside is free, the vertical part
    when the cell it then faces is free, and both are dropped only when both
    are blocked. *)
Theorem move_entity_never_blocking (x y : R) (deltas : list (R * R)) :
  is_blocking x y = false ->
  (forall p, p ∈ move_sequence x y deltas -> is_blocking p.1 p.2 = false)
  /\ (forall move_x move_y,
        (is_blocking (x + move_x) y = false ->
         is_blocking (x + move_x) (y + move_y) = true ->
         move_entity x y move_x move_y = ((x + move_x)%R, y))
        /\ (is_blocking (x + move_x) y = true ->
            is_blocking x (y + move_y) = false ->
            move_entity x y move_x move_y = (x, (y + move_y)%R))
        /\ (is_blocking (x + move_x) y = true ->
            is_blocking x (y + move_y) = true ->
            move_entity x y move_x move_y = (x, y))).
Proof.
  intros Hxy. split.
  - revert x y Hxy. induction deltas as [|[move_x move_y] rest IH]; intros x y Hxy p Hp.
    + inversion Hp.
    + simpl in Hp. pose proof (move_entity_safe x y move_x move_y Hxy) as Hsafe.
      apply elem_of_cons in Hp as [->|Hp]; [exact Hsafe|].
      exact (IH _ _ Hsafe p Hp).
  - intros move_x move_y. unfold move_entity. cbv zeta.
    repeat split; intros H1 H2; rewrite H1; simpl; rewrite H2; reflexivity.
Qed.

(** Evaluates [is_blocking] at a point of tile [(tx, ty)]. *)
Ltac blocking_at tx ty :=
  rewrite (is_blocking_tile _ _ tx ty) by first [lra | lia];
  vm_compute; reflexivity.

Lemma move_entity_never_blocking_witness :
  is_blocking 3.5 3.5 = false
  /\ move_entity 3.5 3.5 (-1) (-0.25) = (3.5%R, (3.5 + -0.25)%R)
  /\ (forall p, p ∈ move_sequence 3.5 3.5 [((-1)%R, (-0.25)%R)] ->
                is_blocking p.1 p.2 = false).
Proof.
  assert (H : is_blocking 3.5 3.5 = false) by blocking_at 3 3.
  destruct (move_entity_never_blocking 3.5 3.5 [((-1)%R, (-0.25)%R)] H) as [Hseq Hslide].
  destruct (Hslide (-1)%R (-0.25)%R) as (_ & Hy & _).
  split; [exact H|]. split; [|exact Hseq].
  apply Hy; [blocking_at 2 3|blocking_at 3 3].
Defined.

(** ** Entities *)

Module Player.
Record t : Type := Make {
  x : R; y : R; dir_x : R; dir_y : R; plane_x : R; plane_y : R
}.
End Player.

Module Monster.
Record t : Type := Make {
  x : R; y : R; speed : R; pulse : R; anim_timer : R;
  path : list cell; path_cooldown : R
}.
End Monster.

Module Pellet.
Record t : Type := Make { x : R; y : R; collected : bool }.
End Pellet.

Definition spawn_player : Player.t :=
  Player.Make 3.5 3.5 (-1.0) 0.0 0.0 0.66.

(** [math.hypot] *)
Definition hypot (a b : R) : R := sqrt (a * a + b * b).

(** ** Turning *)

Definition rotate_player (player : Player.t) (angle : R) : Player.t :=
  let cos_a := cos angle in
  let sin_a := sin angle in
  let old_dir_x := Player.dir_x player in
  let dir_x := (Player.dir_x player * cos_a - Player.dir_y player * sin_a)%R in
  let dir_y := (old_dir_x * sin_a + Player.dir_y player * cos_a)%R in
  let old_plane_x := Player.plane_x player in
  let plane_x := (Player.plane_x player * cos_a - Player.plane_y player * sin_a)%R in
  let plane_y := (old_plane_x * sin_a + Player.plane_y player * cos_a)%R in
  Player.Make (Player.x player) (Player.y player) dir_x dir_y plane_x plane_y.

(** The rotation matrix of [angle] applied to a vector. *)
Definition rotation (angle : R) (v : R * R) : R * R :=
  ((cos angle * v.1 - sin angle * v.2)%R, (sin angle * v.1 + cos angle * v.2)%R).

Definition direction (p : Player.t) : R * R := (Player.dir_x p, Player.dir_y p).
Definition plane (p : Player.t) : R * R := (Player.plane_x p, Player.plane_y p).
Definition magnitude (v : R * R) : R := hypot v.1 v.2.
Definition dot (u v : R * R) : R := (u.1 * v.1 + u.2 * v.2)%R.

Lemma cos_sin_unit (a : R) : (cos a * cos a + sin a * sin a = 1)%R.
Proof. pose proof (sin2_cos2 a) as H. unfold Rsqr in H. lra. Qed.

Lemma rotation_magnitude (a : R) (v : R * R) : magnitude (rotation a v) = magnitude v.
Proof.
  unfold magnitude, rotation, hypot. simpl. f_equal.
  pose proof (cos_sin_unit a) as H.
  replace ((cos a * v.1 - sin a * v.2) * (cos a * v.1 - sin a * v.2)
           + (sin a * v.1 + cos a * v.2) * (sin a * v.1 + cos a * v.2))%R
    with ((v.1 * v.1 + v.2 * v.2) * (cos a * cos a + sin a * sin a))%R by ring.
  rewrite H. ring.
Qed.

Lemma rotation_dot (a : R) (u v : R * R) : dot (rotation a u) (rotation a v) = dot u v.
Proof.
  unfold dot, rotation. simpl. pose proof (cos_sin_unit a) as H.
  replace ((cos a * u.1 - sin a * u.2) * (cos a * v.1 - sin a * v.2)
           + (sin a * u.1 + cos a * u.2) * (sin a * v.1 + cos a * v.2))%R
    with ((u.1 * v.1 + u.2 * v.2) * (cos a * cos a + sin a * sin a))%R by ring.
  rewrite H. ring.
Qed.

(** C6.  [rotate_player] turns the direction and the plane vector by the
    rotation matrix of the one angle and leaves the position alone; the
    magnitude of each vector and their inner product (so the angle between
    them, perpendicularity and the field of view) are the same after as
    before, hence within every epsilon. *)
Theorem rotate_player_preserves (player : Player.t) (angle : R) :
  let turned := rotate_player player angle in
  direction turned = rotation angle (direction player)
  /\ plane turned = rotation angle (plane player)
  /\ Player.x turned = Player.x player /\ Player.y turned = Player.y player
  /\ magnitude (direction turned) = magnitude (direction player)
  /\ magnitude (plane turned) = magnitude (plane player)
  /\ dot (direction turned) (plane turned) = dot (direction player) (plane player)
  /\ forall eps : R, (0 < eps)%R ->
       (Rabs (magnitude (direction turned) - magnitude (direction player)) < eps)%R
       /\ (Rabs (magnitude (plane turned) - magnitude (plane player)) < eps)%R
       /\ (Rabs (dot (direction turned) (plane turned)
                 - dot (direction player) (plane player)) < eps)%R.
Proof.
  intros turned.
  assert (Hd : direction turned = rotation angle (direction player)).
  { unfold turned, rotate_player, direction, rotation. simpl. f_equal; ring. }
  assert (Hp : plane turned = rotation angle (plane player)).
  { unfold turned, rotate_player, plane, rotation. simpl. f_equal; ring. }
  split; [exact Hd|]. split; [exact Hp|].
  split; [reflexivity|]. split; [reflexivity|].
  rewrite Hd, Hp, !rotation_magnitude, rotation_dot.
  split; [reflexivity|]. split; [reflexivity|]. split; [reflexivity|].
  intros eps Heps.
  rewrite !Rminus_diag, Rabs_R0. auto.
Qed.

(** A quarter turn of the spawn camera: it faces west and then south. *)
Example rotate_player_quarter_turn :
  direction (rotate_player spawn_player (PI / 2)) = ((-0)%R, (-1)%R).
Proof.
  unfold direction, rotate_player, spawn_player. simpl.
  rewrite cos_PI2, sin_PI2. f_equal; lra.
Qed.

(** ** Picking up pellets *)

(** The default of the parameter [radius] of [collect_pellets]. *)
Definition DEFAULT_RADIUS : R := 0.35.

Definition collect (pellet : Pellet.t) : Pellet.t :=
  Pellet.Make (Pellet.x pellet) (Pellet.y pellet) true.

(** [collect_pellets]: the pellets after the call, which sets flags in
    place, and the number it returns.  The passes of the loop do not
    depend on each other, so the list is traversed by recursion. *)
Fixpoint collect_pellets (player : Player.t) (pellets : list Pellet.t) (radius : R)
  : list Pellet.t * Z :=
  match pellets with
  | [] => ([], 0)
  | pellet :: rest =>
      let '(rest', collected_now) := collect_pellets player rest radius in
      if Pellet.collected pellet then (pellet :: rest', collected_now)
      else if Rltb (hypot (Player.x player - Pellet.x pellet)
                          (Player.y player - Pellet.y pellet)) radius
           then (collect pellet :: rest', collected_now + 1)
           else (pellet :: rest', collected_now)
  end.

(** The pellets after one call per player state, as in the game loop, where
    the radius is left to its default. *)
Fixpoint collect_sequence (players : list Player.t) (pellets : list Pellet.t)
  : list Pellet.t :=
  match players with
  | [] => pellets
  | player :: rest =>
      collect_sequence rest (collect_pellets player pellets DEFAULT_RADIUS).1
  end.

Definition within_reach (player : Player.t) (pellet : Pellet.t) : Prop :=
  (hypot (Player.x player - Pellet.x pellet) (Player.y player - Pellet.y pellet)
   < DEFAULT_RADIUS)%R.

Lemma collect_pellets_lookup (player : Player.t) (radius : R) (pellets : list Pellet.t)
    (i : nat) (pellet : Pellet.t) :
  pellets !! i = Some pellet ->
  exists pellet',
    (collect_pellets player pellets radius).1 !! i = Some pellet'
    /\ Pellet.x pellet' = Pellet.x pellet /\ Pellet.y pellet' = Pellet.y pellet
    /\ Pellet.collected pellet'
       = Pellet.collected pellet
         || Rltb (hypot (Player.x player - Pellet.x pellet)
                        (Player.y player - Pellet.y pellet)) radius.
Proof.
  revert i. induction pellets as [|p rest IH]; intros i Hi; [discriminate|].
  simpl. destruct i as [|i].
  - injection Hi as ->.
    destruct (collect_pellets player rest radius) as [rest' n].
    destruct (Pellet.collected pellet) eqn:Hc.
    + exists pellet. simpl. rewrite Hc. auto.
    + destruct (Rltb (hypot (Player.x player - Pellet.x pellet)
                            (Player.y player - Pellet.y pellet)) radius) eqn:Hr.
      * exists (collect pellet). simpl. auto.
      * exists pellet. simpl. rewrite Hc. auto.
  - simpl in Hi. destruct (IH i Hi) as (pellet' & Hl & Hrest').
    exists pellet'. split; [|exact Hrest'].
    destruct (collect_pellets player rest radius) as [rest' n].
    destruct (Pellet.collected p); [exact Hl|].
    destruct (Rltb (hypot (Player.x player - Pellet.x p)
                          (Player.y player - Pellet.y p)) radius); exact Hl.
Qed.

(** C8.  Over any sequence of calls of [collect_pellets] with the default
    radius 0.35, a pellet stays where it is, and it is collected afterwards
    exactly if it was collected before or the player of one of the calls was
    at a Euclidean distance below 0.35 from it: the flag goes from false to
    true on such a call and never goes back. *)
Theorem collected_monotonic (players : list Player.t) (pellets : list Pellet.t)
    (i : nat) (pellet : Pellet.t) :
  pellets !! i = Some pellet ->
  exists pellet',
    collect_sequence players pellets !! i = Some pellet'
    /\ Pellet.x pellet' = Pellet.x pellet /\ Pellet.y pellet' = Pellet.y pellet
    /\ (Pellet.collected pellet' = true <->
        Pellet.collected pellet = true
        \/ exists player, player ∈ players /\ within_reach player pellet).
Proof.
  revert pellets pellet. induction players as [|player rest IH]; intros pellets pellet Hi.
  - exists pellet. simpl. split; [exact Hi|]. split; [reflexivity|]. split; [reflexivity|].
    split; [auto|]. intros [H|(player & Hin & _)]; [exact H|inversion Hin].
  - destruct (collect_pellets_lookup player DEFAULT_RADIUS pellets i pellet Hi)
      as (p1 & Hl1 & Hx1 & Hy1 & Hc1).
    destruct (IH _ p1 Hl1) as (p2 & Hl2 & Hx2 & Hy2 & Hc2).
    exists p2. simpl. split; [exact Hl2|].
    split; [congruence|]. split; [congruence|].
    rewrite Hc2, Hc1. unfold within_reach. rewrite Hx1, Hy1. split.
    + intros [H|(q & Hq & Hreach)].
      * apply orb_true_iff in H as [H|H]; [left; exact H|].
        right. exists player. split; [left|]. apply Rltb_true. exact H.
      * right. exists q. split; [right; exact Hq|exact Hreach].
    + intros [H|(q & Hq & Hreach)].
      * left. rewrite H. reflexivity.
      * apply elem_of_cons in Hq as [->|Hq].
        -- left. apply orb_true_iff. right. apply Rltb_true. exact Hreach.
        -- right. exists q. split; assumption.
Qed.

Lemma hypot_lt (a b r : R) : (0 < r)%R -> (a * a + b * b < r * r)%R -> (hypot a b < r)%R.
Proof.
  intros Hr H. unfold hypot. rewrite <- (sqrt_square r) by lra.
  apply sqrt_lt_1; nra.
Qed.

Lemma hypot_ge (a b r : R) : (0 <= r)%R -> (r * r <= a * a + b * b)%R -> (r <= hypot a b)%R.
Proof.
  intros Hr H. unfold hypot. rewrite <- (sqrt_square r) at 1 by lra.
  apply sqrt_le_1; nra.
Qed.

Lemma collected_monotonic_witness :
  let pellet := Pellet.Make 3.5 3.5 false in
  let player := Player.Make 3.6 3.5 (-1.0) 0.0 0.0 0.66 in
  [pellet] !! 0%nat = Some pellet
  /\ exists pellet', collect_sequence [player] [pellet] !! 0%nat = Some pellet'
                     /\ Pellet.collected pellet' = true.
Proof.
  intros pellet player.
  destruct (collected_monotonic [player] [pellet] 0%nat pellet eq_refl)
    as (pellet' & Hl & _ & _ & Hc).
  split; [reflexivity|]. exists pellet'. split; [exact Hl|].
  apply Hc. right. exists player. split; [left|].
  unfold within_reach, DEFAULT_RADIUS. simpl. apply hypot_lt; lra.
Defined.

(** ** The pursuer *)

Definition MONSTER_ANIM_FPS : Z := 6.
Definition tau : R := (2 * PI)%R.

(** [a % m] on floats, for a positive [m]. *)
Definition py_fmod (a m : R) : R := (a - m * IZR (Int_part (a / m)))%R.

Definition monster_tile (monster : Monster.t) : cell :=
  (py_int (Monster.x monster), py_int (Monster.y monster)).

Definition goal_tile (player : Player.t) : cell :=
  (py_int (Player.x player), py_int (Player.y player)).

(** The condition [needs_path] of [update_monsters], on the cooldown already
    reduced by the tick.  [monster.path[-1]] is read only when the path is
    not empty. *)
Definition needs_path (path_cooldown : R) (path : list cell)
    (monster_tile goal_tile : cell) : bool :=
  Rleb path_cooldown 0
  || bool_decide (path = [])
  || negb (bool_decide (last path = Some goal_tile))
  || negb (bool_decide (monster_tile ∈ path)).

(** Whether the tick calls [astar_path] for this monster. *)
Definition searches (player : Player.t) (delta_time : R) (monster : Monster.t) : bool :=
  needs_path (Monster.path_cooldown monster - delta_time) (Monster.path monster)
             (monster_tile monster) (goal_tile player).

(** First half of the loop body: phases, cooldown and replanning. *)
Definition plan (player : Player.t) (delta_time : R) (monster : Monster.t)
  : res Monster.t :=
  let pulse := py_fmod (Monster.pulse monster + delta_time * 2.0) tau in
  let anim_timer := py_fmod (Monster.anim_timer monster + delta_time) 1000.0 in
  let path_cooldown := (Monster.path_cooldown monster - delta_time)%R in
  if needs_path path_cooldown (Monster.path monster)
                (monster_tile monster) (goal_tile player)
  then
    path ← astar_path (monster_tile monster) (goal_tile player);
    Ok (Monster.Make (Monster.x monster) (Monster.y monster) (Monster.speed monster)
                     pulse anim_timer path 0.4)
  else
    Ok (Monster.Make (Monster.x monster) (Monster.y monster) (Monster.speed monster)
                     pulse anim_timer (Monster.path monster) path_cooldown).

Definition tile_center (c : cell) : R * R := ((IZR c.1 + 0.5)%R, (IZR c.2 + 0.5)%R).

(** Waypoint following: the path after a waypoint that has been reached is
    dropped, and the point to head for. *)
Definition steer (player : Player.t) (monster : Monster.t) : list cell * (R * R) :=
  match Monster.path monster with
  | _ :: next_tile :: _ =>
      let target := tile_center next_tile in
      if Rltb (Rabs (Monster.x monster - target.1)) 0.1
         && Rltb (Rabs (Monster.y monster - target.2)) 0.1
      then
        let path := tail (Monster.path monster) in
        match path with
        | _ :: next_tile :: _ => (path, tile_center next_tile)
        | _ => (path, (Player.x player, Player.y player))
        end
      else (Monster.path monster, target)
  | _ => (Monster.path monster, (Player.x player, Player.y player))
  end.

(** Second half of the loop body: one step towards the target. *)
Definition chase (player : Player.t) (delta_time : R) (monster : Monster.t) : Monster.t :=
  let '(path, (target_x, target_y)) := steer player monster in
  let dir_x := (target_x - Monster.x monster)%R in
  let dir_y := (target_y - Monster.y monster)%R in
  let distance := hypot dir_x dir_y in
  let '(dir_x, dir_y) :=
    if Rltb 0.001 distance then ((dir_x / distance)%R, (dir_y / distance)%R)
    else (dir_x, dir_y) in
  let move_x := (dir_x * Monster.speed monster * delta_time)%R in
  let move_y := (dir_y * Monster.speed monster * delta_time)%R in
  let '(x, y) := move_entity (Monster.x monster) (Monster.y monster) move_x move_y in
  Monster.Make x y (Monster.speed monster) (Monster.pulse monster)
               (Monster.anim_timer monster) path (Monster.path_cooldown monster).

Definition update_monster (player : Player.t) (delta_time : R) (monster : Monster.t)
  : res Monster.t :=
  monster' ← plan player delta_time monster;
  Ok (chase player delta_time monster').

Fixpoint update_monsters (monsters : list Monster.t) (player : Player.t) (delta_time : R)
  : res (list Monster.t) :=
  match monsters with
  | [] => Ok []
  | monster :: rest =>
      monster' ← update_monster player delta_time monster;
      rest' ← update_monsters rest player delta_time;
      Ok (monster' :: rest')
  end.

(** A monster as [spawn_monsters] makes it, the random pulse phase being 0. *)
Definition spawn_monster : Monster.t := Monster.Make 15.5 9.5 1.2 0 0.0 [] 0.0.

Lemma astar_path_returns (start goal : cell) : exists p, astar_path start goal = Ok p.
Proof.
  destruct (decide (start = goal)) as [<-|Hne].
  - exists [start]. unfold astar_path, astar_path_fuel.
    destruct (decide (start = start)); congruence.
  - destruct (astar_path_planned start goal Hne) as (p & Hp & _). exists p. exact Hp.
Qed.

Lemma steer_last (player : Player.t) (monster : Monster.t) :
  last (steer player monster).1 = last (Monster.path monster).
Proof.
  unfold steer. destruct (Monster.path monster) as [|a [|b rest]]; try reflexivity.
  cbv zeta.
  destruct (Rltb (Rabs (Monster.x monster - (tile_center b).1)) 0.1
            && Rltb (Rabs (Monster.y monster - (tile_center b).2)) 0.1);
    [|reflexivity].
  simpl tail. destruct rest; reflexivity.
Qed.

Lemma chase_path (player : Player.t) (delta_time : R) (monster : Monster.t) :
  Monster.path (chase player delta_time monster) = (steer player monster).1.
Proof.
  unfold chase. destruct (steer player monster) as [path [tx ty]].
  destruct (Rltb 0.001 _); destruct (move_entity _ _ _ _); reflexivity.
Qed.

Lemma chase_cooldown (player : Player.t) (delta_time : R) (monster : Monster.t) :
  Monster.path_cooldown (chase player delta_time monster) = Monster.path_cooldown monster.
Proof.
  unfold chase. destruct (steer player monster) as [path [tx ty]].
  destruct (Rltb 0.001 _); destruct (move_entity _ _ _ _); reflexivity.
Qed.

Lemma plan_cooldown (player : Player.t) (delta_time : R) (monster monster' : Monster.t) :
  plan player delta_time monster = Ok monster' ->
  Monster.path_cooldown monster'
  = if searches player delta_time monster then 0.4%R
    else (Monster.path_cooldown monster - delta_time)%R.
Proof.
  unfold plan, searches.
  destruct (needs_path _ _ _ _).
  - destruct (astar_path _ _); simpl; [|discriminate..].
    intros [= <-]. reflexivity.
  - intros [= <-]. reflexivity.
Qed.

Lemma update_monster_cooldown (player : Player.t) (delta_time : R)
    (monster monster' : Monster.t) :
  update_monster player delta_time monster = Ok monster' ->
  Monster.path_cooldown monster'
  = if searches player delta_time monster then 0.4%R
    else (Monster.path_cooldown monster - delta_time)%R.
Proof.
  unfold update_monster. destruct (plan player delta_time monster) eqn:Hplan;
    simpl; [|discriminate..].
  intros [= <-]. rewrite chase_cooldown. apply plan_cooldown. exact Hplan.
Qed.

(** [update_monster] never fails: the search always returns. *)
Lemma update_monster_returns (player : Player.t) (delta_time : R) (monster : Monster.t) :
  exists monster', update_monster player delta_time monster = Ok monster'.
Proof.
  unfold update_monster, plan.
  destruct (needs_path _ _ _ _).
  - destruct (astar_path_returns (monster_tile monster) (goal_tile player)) as [p ->].
    simpl. eauto.
  - simpl. eauto.
Qed.

(** A stretch of ticks none of which searches, with the delta-time it adds
    up to. *)
Inductive idle_run : Monster.t -> R -> Monster.t -> Prop :=
| idle_none monster : idle_run monster 0 monster
| idle_tick monster elapsed monster1 player delta_time monster2 :
    idle_run monster elapsed monster1 ->
    searches player delta_time monster1 = false ->
    update_monster player delta_time monster1 = Ok monster2 ->
    idle_run monster (elapsed + delta_time) monster2.

Lemma idle_run_cooldown (monster0 monster : Monster.t) (elapsed : R) :
  idle_run monster0 elapsed monster ->
  Monster.path_cooldown monster = (Monster.path_cooldown monster0 - elapsed)%R.
Proof.
  induction 1 as [|m e m1 p dt m2 Hrun IH Hs Hu]; [lra|].
  rewrite (update_monster_cooldown p dt m1 m2 Hu), Hs, IH. lra.
Qed.

(** C3, as amended.  Take a tick that searches, any number of ticks after it
    that do not, and then a tick that searches again.  If at that last tick
    the cached path is not empty, ends at the tile of the player and contains
    the tile of the monster, so that only the cooldown can have asked for the
    search, then the delta-times from after the first search up to and
    including the last tick add up to at least 0.4. *)
Theorem search_throttled (player0 : Player.t) (delta_time0 : R)
    (before searched : Monster.t) (elapsed : R) (monster : Monster.t)
    (player : Player.t) (delta_time : R) :
  searches player0 delta_time0 before = true ->
  update_monster player0 delta_time0 before = Ok searched ->
  idle_run searched elapsed monster ->
  searches player delta_time monster = true ->
  Monster.path monster <> [] ->
  last (Monster.path monster) = Some (goal_tile player) ->
  monster_tile monster ∈ Monster.path monster ->
  (0.4 <= elapsed + delta_time)%R.
Proof.
  intros Hs0 Hu0 Hrun Hs Hne Hlast Hin.
  pose proof (update_monster_cooldown _ _ _ _ Hu0) as Hc0. rewrite Hs0 in Hc0.
  pose proof (idle_run_cooldown _ _ _ Hrun) as Hc. rewrite Hc0 in Hc.
  unfold searches, needs_path in Hs.
  rewrite (bool_decide_eq_false_2 _ Hne) in Hs.
  rewrite (bool_decide_eq_true_2 _ Hlast) in Hs.
  rewrite (bool_decide_eq_true_2 _ Hin) in Hs.
  simpl in Hs. rewrite !orb_false_r in Hs.
  apply Rleb_true in Hs. lra.
Qed.

(** *** Two ticks of the spawned monster *)

Lemma abs_le_hypot (a b : R) : (Rabs a <= hypot a b)%R /\ (Rabs b <= hypot a b)%R.
Proof.
  split; apply hypot_ge; try apply Rabs_pos.
  - rewrite <- Rabs_mult, Rabs_pos_eq by nra. nra.
  - rewrite <- Rabs_mult, Rabs_pos_eq by nra. nra.
Qed.

Lemma unit_step (a d k : R) : (Rabs a <= d)%R -> (0 < d)%R -> (Rabs (a / d * k) <= Rabs k)%R.
Proof.
  intros Ha Hd. unfold Rdiv. rewrite !Rabs_mult, (Rabs_pos_eq (/ d)).
  - pose proof (Rabs_pos k). pose proof (Rabs_pos a).
    assert (Rabs a * / d <= 1)%R.
    { apply (Rmult_le_reg_r d); [exact Hd|]. rewrite Rmult_assoc, Rinv_l by lra. lra. }
    nra.
  - left. apply Rinv_0_lt_compat. exact Hd.
Qed.

Lemma small_step (a d k : R) : (Rabs a <= d)%R -> (d <= 1)%R -> (Rabs (a * k) <= Rabs k)%R.
Proof.
  intros Ha Hd. rewrite Rabs_mult. pose proof (Rabs_pos k). pose proof (Rabs_pos a). nra.
Qed.

(** In one tick the monster moves by at most [speed * delta_time] along
    each axis. *)
Lemma chase_step_bound (player : Player.t) (delta_time : R) (monster : Monster.t) :
  let monster' := chase player delta_time monster in
  let reach := Rabs (Monster.speed monster * delta_time) in
  (Rabs (Monster.x monster' - Monster.x monster) <= reach)%R
  /\ (Rabs (Monster.y monster' - Monster.y monster) <= reach)%R.
Proof.
  unfold chase. destruct (steer player monster) as [path [tx ty]].
  set (dx := (tx - Monster.x monster)%R). set (dy := (ty - Monster.y monster)%R).
  set (k := (Monster.speed monster * delta_time)%R).
  destruct (abs_le_hypot dx dy) as [Hx Hy].
  assert (Hzero : (Rabs 0 <= Rabs k)%R) by (rewrite Rabs_R0; apply Rabs_pos).
  destruct (Rltb 0.001 (hypot dx dy)) eqn:Hd.
  - apply Rltb_true in Hd.
    assert (Hmx : (Rabs (dx / hypot dx dy * k) <= Rabs k)%R) by (apply unit_step; lra).
    assert (Hmy : (Rabs (dy / hypot dx dy * k) <= Rabs k)%R) by (apply unit_step; lra).
    unfold move_entity. cbv zeta.
    destruct (is_blocking _ (Monster.y monster)); simpl;
      destruct (is_blocking _ _); simpl; fold k;
      repeat match goal with
             | |- context [(?a * Monster.speed monster * delta_time)%R] =>
                 replace (a * Monster.speed monster * delta_time)%R with (a * k)%R
                   by (unfold k; ring)
             end;
      split;
      first [ replace (Monster.x monster + dx / hypot dx dy * k - Monster.x monster)%R
                with (dx / hypot dx dy * k)%R by ring; exact Hmx
            | replace (Monster.y monster + dy / hypot dx dy * k - Monster.y monster)%R
                with (dy / hypot dx dy * k)%R by ring; exact Hmy
            | rewrite Rminus_diag; exact Hzero ].
  - apply Rltb_false in Hd.
    assert (Hmx : (Rabs (dx * k) <= Rabs k)%R) by (apply (small_step dx (hypot dx dy)); lra).
    assert (Hmy : (Rabs (dy * k) <= Rabs k)%R) by (apply (small_step dy (hypot dx dy)); lra).
    unfold move_entity. cbv zeta.
    destruct (is_blocking _ (Monster.y monster)); simpl;
      destruct (is_blocking _ _); simpl; fold k;
      repeat match goal with
             | |- context [(?a * Monster.speed monster * delta_time)%R] =>
                 replace (a * Monster.speed monster * delta_time)%R with (a * k)%R
                   by (unfold k; ring)
             end;
      split;
      first [ replace (Monster.x monster + dx * k - Monster.x monster)%R
                with (dx * k)%R by ring; exact Hmx
            | replace (Monster.y monster + dy * k - Monster.y monster)%R
                with (dy * k)%R by ring; exact Hmy
            | rewrite Rminus_diag; exact Hzero ].
Qed.

(** The monster after the first half of a tick that searched. *)
Definition replanned (delta_time : R) (monster : Monster.t) (path : list cell) : Monster.t :=
  Monster.Make (Monster.x monster) (Monster.y monster) (Monster.speed monster)
               (py_fmod (Monster.pulse monster + delta_time * 2.0) tau)
               (py_fmod (Monster.anim_timer monster + delta_time) 1000.0)
               path 0.4.

Lemma update_monster_searched (player : Player.t) (delta_time : R)
    (monster : Monster.t) (path : list cell) :
  searches player delta_time monster = true ->
  astar_path (monster_tile monster) (goal_tile player) = Ok path ->
  update_monster player delta_time monster
  = Ok (chase player delta_time (replanned delta_time monster path)).
Proof.
  unfold searches, update_monster, plan. intros -> ->. reflexivity.
Qed.

Lemma searches_cooldown (player : Player.t) (delta_time : R) (monster : Monster.t) :
  (Monster.path_cooldown monster <= delta_time)%R ->
  searches player delta_time monster = true.
Proof.
  intros H. unfold searches, needs_path.
  rewrite (proj2 (Rleb_true _ _)) by lra. reflexivity.
Qed.

Lemma searches_goal_moved (player : Player.t) (delta_time : R) (monster : Monster.t) :
  last (Monster.path monster) <> Some (goal_tile player) ->
  searches player delta_time monster = true.
Proof.
  intros H. unfold searches, needs_path.
  rewrite (bool_decide_eq_false_2 _ H). simpl negb.
  rewrite orb_true_r. reflexivity.
Qed.

Definition player_at (x y : R) : Player.t := Player.Make x y (-1.0) 0.0 0.0 0.66.

Lemma goal_tile_at (x y : R) (tx ty : Z) :
  (IZR tx <= x < IZR tx + 1)%R -> (IZR ty <= y < IZR ty + 1)%R ->
  0 <= tx -> 0 <= ty -> goal_tile (player_at x y) = (tx, ty).
Proof.
  intros Hx Hy Htx Hty. apply IZR_le in Htx, Hty.
  unfold goal_tile, player_at. simpl.
  rewrite (py_int_nonneg x tx), (py_int_nonneg y ty) by lra. reflexivity.
Qed.

Lemma monster_tile_at (monster : Monster.t) (tx ty : Z) :
  (IZR tx <= Monster.x monster < IZR tx + 1)%R ->
  (IZR ty <= Monster.y monster < IZR ty + 1)%R ->
  0 <= tx -> 0 <= ty -> monster_tile monster = (tx, ty).
Proof.
  intros Hx Hy Htx Hty. apply IZR_le in Htx, Hty.
  unfold monster_tile.
  rewrite (py_int_nonneg _ tx), (py_int_nonneg _ ty) by lra. reflexivity.
Qed.

(** The route the spawned monster plans to the tile (3, 3). *)
Definition spawn_route : list cell :=
  Eval vm_compute in
    match astar_path (15, 9) (3, 3) with Ok p => p | _ => [] end.

Lemma spawn_route_found : astar_path (15, 9) (3, 3) = Ok spawn_route.
Proof. vm_compute. reflexivity. Qed.

Lemma spawn_monster_tile : monster_tile spawn_monster = (15, 9).
Proof. apply monster_tile_at; simpl; lra || lia. Qed.

(** The counterexample to C3 as stated: the player crosses from tile (3, 3)
    to tile (4, 3) between two ticks 0.016 s apart, and both ticks search. *)
Lemma search_twice_within_cooldown :
  exists monster1,
    searches (player_at 3.98 3.5) 0.016 spawn_monster = true
    /\ update_monster (player_at 3.98 3.5) 0.016 spawn_monster = Ok monster1
    /\ searches (player_at 4.02 3.5) 0.016 monster1 = true
    /\ (0.016 < 0.4)%R.
Proof.
  assert (Hs : searches (player_at 3.98 3.5) 0.016 spawn_monster = true)
    by (apply searches_cooldown; simpl; lra).
  assert (Hg : goal_tile (player_at 3.98 3.5) = (3, 3))
    by (apply goal_tile_at; lra || lia).
  eexists. split; [exact Hs|]. split.
  - apply (update_monster_searched _ _ _ spawn_route Hs).
    rewrite spawn_monster_tile, Hg. exact spawn_route_found.
  - split; [|lra]. apply searches_goal_moved.
    rewrite chase_path, steer_last.
    rewrite (goal_tile_at 4.02 3.5 4 3) by (lra || lia).
    simpl. discriminate.
Qed.

Lemma steer_far (player : Player.t) (monster : Monster.t) (a b : cell) (rest : list cell) :
  Monster.path monster = a :: b :: rest ->
  (0.1 <= Rabs (Monster.y monster - (IZR b.2 + 0.5)))%R ->
  (steer player monster).1 = Monster.path monster.
Proof.
  intros Hp Hy. unfold steer. rewrite Hp. cbv zeta.
  replace (Rltb (Rabs (Monster.y monster - (tile_center b).2)) 0.1) with false
    by (symmetry; apply Rltb_false; exact Hy).
  rewrite andb_false_r. reflexivity.
Qed.

(** The spawned monster after its first tick, the player standing at its
    own spawn point. *)
Definition spawn_searched : Monster.t :=
  chase spawn_player 0.016 (replanned 0.016 spawn_monster spawn_route).

Lemma spawn_searched_path : Monster.path spawn_searched = spawn_route.
Proof.
  unfold spawn_searched. rewrite chase_path.
  rewrite (steer_far _ _ (15, 9) (15, 10) (tail (tail spawn_route))); [reflexivity..|].
  simpl. unfold Rabs. destruct (Rcase_abs _); lra.
Qed.

Lemma spawn_searched_tile : monster_tile spawn_searched = (15, 9).
Proof.
  destruct (chase_step_bound spawn_player 0.016 (replanned 0.016 spawn_monster spawn_route))
    as [Hx Hy].
  fold spawn_searched in Hx, Hy. simpl in Hx, Hy.
  rewrite (Rabs_pos_eq (1.2 * 0.016)) in Hx, Hy by lra.
  unfold Rabs in Hx, Hy.
  destruct (Rcase_abs _) in Hx; destruct (Rcase_abs _) in Hy;
    apply monster_tile_at; lra || lia.
Qed.

Lemma search_throttled_witness :
  searches spawn_player 0.016 spawn_monster = true
  /\ update_monster spawn_player 0.016 spawn_monster = Ok spawn_searched
  /\ searches spawn_player 0.4 spawn_searched = true
  /\ (0.4 <= 0 + 0.4)%R.
Proof.
  assert (Hs : searches spawn_player 0.016 spawn_monster = true)
    by (apply searches_cooldown; simpl; lra).
  assert (Hg : goal_tile spawn_player = (3, 3))
    by (apply (goal_tile_at 3.5 3.5); lra || lia).
  assert (Hu : update_monster spawn_player 0.016 spawn_monster = Ok spawn_searched).
  { apply (update_monster_searched _ _ _ spawn_route Hs).
    rewrite spawn_monster_tile, Hg. exact spawn_route_found. }
  assert (Hs' : searches spawn_player 0.4 spawn_searched = true).
  { apply searches_cooldown. unfold spawn_searched. rewrite chase_cooldown. simpl. lra. }
  split; [exact Hs|]. split; [exact Hu|]. split; [exact Hs'|].
  apply (search_throttled spawn_player 0.016 spawn_monster spawn_searched 0
           spawn_searched spawn_player 0.4 Hs Hu (idle_none _) Hs').
  - rewrite spawn_searched_path. discriminate.
  - rewrite spawn_searched_path, Hg. reflexivity.
  - rewrite spawn_searched_path, spawn_searched_tile. constructor.
Defined.

(** ** Floats with the special values

    [cast_rays] writes [float("inf")] on purpose, and from it the IEEE rules
    can make the other special values.  A [float] is a real number, an
    infinity or a NaN; the two zeros are one. *)

Inductive float : Type := Fin (r : R) | PInf | NInf | NaN.

Definition float_neg (a : float) : float :=
  match a with
  | Fin x => Fin (- x)
  | PInf => NInf
  | NInf => PInf
  | NaN => NaN
  end.

Definition float_add (a b : float) : float :=
  match a, b with
  | Fin x, Fin y => Fin (x + y)
  | NaN, _ | _, NaN => NaN
  | PInf, NInf | NInf, PInf => NaN
  | PInf, _ | _, PInf => PInf
  | NInf, _ | _, NInf => NInf
  end.

Definition float_sub (a b : float) : float := float_add a (float_neg b).

Definition float_mul (a b : float) : float :=
  match a, b with
  | Fin x, Fin y => Fin (x * y)
  | NaN, _ | _, NaN => NaN
  | Fin x, PInf | PInf, Fin x =>
      if Reqb x 0 then NaN else if Rltb 0 x then PInf else NInf
  | Fin x, NInf | NInf, Fin x =>
      if Reqb x 0 then NaN else if Rltb 0 x then NInf else PInf
  | PInf, PInf | NInf, NInf => PInf
  | PInf, NInf | NInf, PInf => NInf
  end.

(** [a < b]; a comparison with NaN is false. *)
Definition float_lt (a b : float) : bool :=
  match a, b with
  | Fin x, Fin y => Rltb x y
  | NaN, _ | _, NaN => false
  | _, NInf => false
  | PInf, _ => false
  | NInf, _ => true
  | _, PInf => true
  end.

(** [a / b] on floats: Python raises for a zero divisor, everything else
    follows IEEE. *)
Definition float_div (a b : float) : res float :=
  match b with
  | Fin y =>
      if Reqb y 0 then Raise ZeroDivisionError
      else Ok match a with
              | Fin x => Fin (x / y)
              | PInf => if Rltb 0 y then PInf else NInf
              | NInf => if Rltb 0 y then NInf else PInf
              | NaN => NaN
              end
  | PInf | NInf => Ok match a with Fin _ => Fin 0 | _ => NaN end
  | NaN => Ok NaN
  end.

(** [a / b] where both are finite. *)
Definition py_div (a b : R) : res R :=
  if Reqb b 0 then Raise ZeroDivisionError else Ok (a / b)%R.

(** [a % b] on [int]. *)
Definition py_mod (a b : Z) : res Z :=
  if b =? 0 then Raise ZeroDivisionError else Ok (a mod b).

(** [int(a)] *)
Definition float_int (a : float) : res Z :=
  match a with
  | Fin x => Ok (py_int x)
  | PInf | NInf => Raise OverflowError
  | NaN => Raise ValueError
  end.

(** [max(a, b)]: the first argument unless the second is greater. *)
Definition py_max (a b : float) : float := if float_lt a b then b else a.

(** [l[i]] for an index that is not negative. *)
Definition py_getitem {A : Type} (l : list A) (i : Z) : res A :=
  match l !! Z.to_nat i with
  | Some a => Ok a
  | None => Raise IndexError
  end.

(** ** The raycaster *)

(** The variables of the traversal loop of one screen column. *)
Module Ray.
Record t : Type := Make {
  side_dist_x : float;
  side_dist_y : float;
  map_x : Z;
  map_y : Z;
  side : Z;
  hit : bool;
  tile : ascii;
  steps : Z
}.
End Ray.

Definition max_steps : Z := MAP_WIDTH * MAP_HEIGHT.

(** One round of the [while] loop. *)
Definition dda_body (delta_dist_x delta_dist_y : float) (step_x step_y : Z)
    (s : Ray.t) : res Ray.t :=
  let steps := Ray.steps s + 1 in
  let '(side_dist_x, side_dist_y, map_x, map_y, side) :=
    if float_lt (Ray.side_dist_x s) (Ray.side_dist_y s)
    then (float_add (Ray.side_dist_x s) delta_dist_x, Ray.side_dist_y s,
          Ray.map_x s + step_x, Ray.map_y s, 0)
    else (Ray.side_dist_x s, float_add (Ray.side_dist_y s) delta_dist_y,
          Ray.map_x s, Ray.map_y s + step_y, 1) in
  if (map_x <? 0) || (map_x >=? MAP_WIDTH) || (map_y <? 0) || (map_y >=? MAP_HEIGHT)
  then Ok (Ray.Make side_dist_x side_dist_y map_x map_y side true "1" steps)
  else
    match world_map_at map_y map_x with
    | None => Raise IndexError
    | Some t =>
        if negb (open_tile t)
        then Ok (Ray.Make side_dist_x side_dist_y map_x map_y side true t steps)
        else Ok (Ray.Make side_dist_x side_dist_y map_x map_y side
                          (Ray.hit s) (Ray.tile s) steps)
    end.

(** [while not hit and steps < max_steps] *)
Fixpoint dda_while (fuel : nat) (delta_dist_x delta_dist_y : float) (step_x step_y : Z)
    (s : Ray.t) : res Ray.t :=
  if negb (Ray.hit s) && (Ray.steps s <? max_steps)
  then match fuel with
       | O => Timeout
       | S fuel' =>
           s' ← dda_body delta_dist_x delta_dist_y step_x step_y s;
           dda_while fuel' delta_dist_x delta_dist_y step_x step_y s'
       end
  else Ok s.

(** The state the loop starts in. *)
Definition dda_fresh (side_dist_x side_dist_y : float) (map_x map_y : Z) : Ray.t :=
  Ray.Make side_dist_x side_dist_y map_x map_y 0 false "1" 0.

(** What [cast_rays] draws in a column and stores for it in the depth
    buffer; the colour is a function of [tile] and [side]. *)
Record wall_slice : Type := WallSlice {
  slice_column : Z;
  slice_start : Z;
  slice_end : Z;
  slice_tile : ascii;
  slice_side : Z;
  slice_depth : float
}.

(** [abs(1 / ray_dir) if ray_dir != 0 else float("inf")] *)
Definition delta_dist (ray_dir : R) : res float :=
  if negb (Reqb ray_dir 0)
  then q ← py_div 1 ray_dir; Ok (Fin (Rabs q))
  else Ok PInf.

(** The body of the loop over the columns; [None] is the [continue] of a
    ray that hit nothing within the step cap. *)
Definition cast_column (player : Player.t) (column : Z) : res (option wall_slice) :=
  q ← py_div (IZR (2 * column)) (IZR SCREEN_WIDTH);
  let camera_x := (q - 1)%R in
  let ray_dir_x := (Player.dir_x player + Player.plane_x player * camera_x)%R in
  let ray_dir_y := (Player.dir_y player + Player.plane_y player * camera_x)%R in
  let map_x := py_int (Player.x player) in
  let map_y := py_int (Player.y player) in
  delta_dist_x ← delta_dist ray_dir_x;
  delta_dist_y ← delta_dist ray_dir_y;
  let '(step_x, side_dist_x) :=
    if Rltb ray_dir_x 0
    then (-1, float_mul (Fin (Player.x player - IZR map_x)) delta_dist_x)
    else (1, float_mul (Fin (IZR map_x + 1.0 - Player.x player)) delta_dist_x) in
  let '(step_y, side_dist_y) :=
    if Rltb ray_dir_y 0
    then (-1, float_mul (Fin (Player.y player - IZR map_y)) delta_dist_y)
    else (1, float_mul (Fin (IZR map_y + 1.0 - Player.y player)) delta_dist_y) in
  s ← dda_while (Z.to_nat max_steps) delta_dist_x delta_dist_y step_x step_y
        (dda_fresh side_dist_x side_dist_y map_x map_y);
  if negb (Ray.hit s) then Ok None
  else
    let perp_wall_dist :=
      if Ray.side s =? 0 then float_sub (Ray.side_dist_x s) delta_dist_x
      else float_sub (Ray.side_dist_y s) delta_dist_y in
    let perp_wall_dist := py_max perp_wall_dist (Fin 0.0001) in
    q ← float_div (Fin (IZR SCREEN_HEIGHT)) perp_wall_dist;
    line_height ← float_int q;
    let draw_start := Z.max ((- line_height) / 2 + SCREEN_HEIGHT / 2) 0 in
    let draw_end := Z.min (line_height / 2 + SCREEN_HEIGHT / 2) (SCREEN_HEIGHT - 1) in
    Ok (Some (WallSlice column draw_start draw_end (Ray.tile s) (Ray.side s)
                        perp_wall_dist)).

(** [depth_buffer[column] = value] *)
Definition py_setitem {A : Type} (l : list A) (i : Z) (a : A) : res (list A) :=
  if decide (Z.to_nat i < length l)%nat then Ok (<[Z.to_nat i := a]> l)
  else Raise IndexError.

Fixpoint cast_columns (player : Player.t) (columns : list Z) (depth_buffer : list float)
  : res (list wall_slice * list float) :=
  match columns with
  | [] => Ok ([], depth_buffer)
  | column :: rest =>
      drawn ← cast_column player column;
      match drawn with
      | None => cast_columns player rest depth_buffer
      | Some slice =>
          depth_buffer' ← py_setitem depth_buffer column (slice_depth slice);
          '(slices, depth_buffer'') ← cast_columns player rest depth_buffer';
          Ok (slice :: slices, depth_buffer'')
      end
  end.

(** The columns drawn, and the depth buffer. *)
Definition cast_rays (player : Player.t) : res (list wall_slice * list float) :=
  cast_columns player (seqZ 0 SCREEN_WIDTH) (replicate (Z.to_nat SCREEN_WIDTH) PInf).

(** *** The traversal loop *)

(** The test of the loop body for a cell off the grid. *)
Definition outside (x y : Z) : bool :=
  (x <? 0) || (x >=? MAP_WIDTH) || (y <? 0) || (y >=? MAP_HEIGHT).

(** What a hit leaves in [tile]: the default material off the grid, the
    tile of the cell on it. *)
Definition struck (s : Ray.t) : Prop :=
  if outside (Ray.map_x s) (Ray.map_y s) then Ray.tile s = "1"%char
  else world_map_at (Ray.map_y s) (Ray.map_x s) = Some (Ray.tile s).

(** [n] rounds of the loop body, whatever the loop condition says. *)
Fixpoint dda_iter (n : nat) (delta_dist_x delta_dist_y : float) (step_x step_y : Z)
    (s : Ray.t) : res Ray.t :=
  match n with
  | O => Ok s
  | S n' =>
      s' ← dda_body delta_dist_x delta_dist_y step_x step_y s;
      dda_iter n' delta_dist_x delta_dist_y step_x step_y s'
  end.

Lemma grid_blocked_outside (x y : Z) : outside x y = true -> grid_blocked x y = true.
Proof.
  unfold outside, grid_blocked.
  destruct (x <? 0), (x >=? MAP_WIDTH), (y <? 0), (y >=? MAP_HEIGHT);
    simpl; intros H; try reflexivity; discriminate.
Qed.

Lemma grid_blocked_inside (x y : Z) :
  outside x y = false ->
  exists t, world_map_at y x = Some t /\ grid_blocked x y = negb (open_tile t).
Proof.
  unfold outside, grid_blocked. intros H.
  destruct (x <? 0) eqn:Hx; [discriminate|].
  destruct (x >=? MAP_WIDTH) eqn:Hw; [discriminate|].
  destruct (y <? 0) eqn:Hy; [discriminate|].
  destruct (y >=? MAP_HEIGHT) eqn:Hh; [discriminate|].
  destruct (world_map_at_inside x y) as [t Ht]; [lia..|].
  exists t. rewrite Ht. simpl. split; reflexivity.
Qed.

Section Traversal.

Variables (delta_dist_x delta_dist_y : float) (step_x step_y : Z).

Local Notation "'body'" := (dda_body delta_dist_x delta_dist_y step_x step_y).
Local Notation "'iter' n" := (dda_iter n delta_dist_x delta_dist_y step_x step_y)
  (at level 10, n at level 9).
Local Notation "'while' fuel" := (dda_while fuel delta_dist_x delta_dist_y step_x step_y)
  (at level 10, fuel at level 9).

(** The body never raises: it counts the round, and sets [hit] exactly when
    the cell stepped into is blocking or off the grid. *)
Lemma dda_body_spec (s : Ray.t) :
  exists s', body s = Ok s'
    /\ Ray.steps s' = Ray.steps s + 1
    /\ if grid_blocked (Ray.map_x s') (Ray.map_y s')
       then Ray.hit s' = true /\ struck s'
       else Ray.hit s' = Ray.hit s /\ Ray.tile s' = Ray.tile s.
Proof.
  unfold dda_body.
  destruct (float_lt (Ray.side_dist_x s) (Ray.side_dist_y s)).
  - fold (outside (Ray.map_x s + step_x) (Ray.map_y s)).
    destruct (outside (Ray.map_x s + step_x) (Ray.map_y s)) eqn:Hout.
    + eexists. split; [reflexivity|]. simpl. split; [reflexivity|].
      rewrite (grid_blocked_outside _ _ Hout). unfold struck. simpl.
      rewrite Hout. split; reflexivity.
    + destruct (grid_blocked_inside _ _ Hout) as (t & Ht & Hb). rewrite Ht.
      destruct (open_tile t); simpl in Hb |- *;
        (eexists; split; [reflexivity|]; simpl; split; [reflexivity|]);
        rewrite Hb; [split; reflexivity|].
      unfold struck. simpl. rewrite Hout. split; [reflexivity|exact Ht].
  - fold (outside (Ray.map_x s) (Ray.map_y s + step_y)).
    destruct (outside (Ray.map_x s) (Ray.map_y s + step_y)) eqn:Hout.
    + eexists. split; [reflexivity|]. simpl. split; [reflexivity|].
      rewrite (grid_blocked_outside _ _ Hout). unfold struck. simpl.
      rewrite Hout. split; reflexivity.
    + destruct (grid_blocked_inside _ _ Hout) as (t & Ht & Hb). rewrite Ht.
      destruct (open_tile t); simpl in Hb |- *;
        (eexists; split; [reflexivity|]; simpl; split; [reflexivity|]);
        rewrite Hb; [split; reflexivity|].
      unfold struck. simpl. rewrite Hout. split; [reflexivity|exact Ht].
Qed.

(** The loop from any state: with fuel for the rounds the cap still allows
    it returns, after some number [n] of rounds of the body.  Before each of
    them [hit] was unset, and the cells stepped into before the last were
    open; if it ends with [hit] set by a round, the last cell is blocking or
    off the grid; if it ends with [hit] unset, the cap is used up. *)
Lemma dda_while_spec (fuel : nat) (s : Ray.t) :
  max_steps <= Ray.steps s + Z.of_nat fuel ->
  exists (n : nat) (s' : Ray.t),
    while fuel s = Ok s'
    /\ iter n s = Ok s'
    /\ Ray.steps s' = Ray.steps s + Z.of_nat n
    /\ (Ray.steps s <= max_steps -> Ray.steps s' <= max_steps)
    /\ (forall k, (k < n)%nat ->
          exists sk, iter k s = Ok sk /\ Ray.hit sk = false
            /\ ((0 < k)%nat -> grid_blocked (Ray.map_x sk) (Ray.map_y sk) = false))
    /\ (Ray.hit s' = true ->
          (n = 0%nat /\ Ray.hit s = true)
          \/ ((0 < n)%nat /\ grid_blocked (Ray.map_x s') (Ray.map_y s') = true /\ struck s'))
    /\ (Ray.hit s' = false ->
          max_steps <= Ray.steps s'
          /\ ((0 < n)%nat -> grid_blocked (Ray.map_x s') (Ray.map_y s') = false)).
Proof.
  revert s. induction fuel as [|fuel IH]; intros s Hfuel.
  - exists 0%nat, s. simpl.
    destruct (Ray.hit s) eqn:Hhit; simpl.
    + repeat split; auto; try lia.
    + replace (Ray.steps s <? max_steps) with false by (symmetry; apply Z.ltb_ge; lia).
      repeat split; auto; try lia.
  - cbn [dda_while].
    destruct (negb (Ray.hit s) && (Ray.steps s <? max_steps)) eqn:Hcond.
    + apply andb_true_iff in Hcond as [Hhit Hlt].
      apply negb_true_iff in Hhit. apply Z.ltb_lt in Hlt.
      destruct (dda_body_spec s) as (s1 & Hbody & Hsteps & Hcell).
      destruct (IH s1) as (n & s' & Hw & Hi & Hn & Hcap & Hopen & Hend & Hout);
        [lia|].
      exists (S n), s'. rewrite Hbody. cbn [dda_iter]. rewrite Hbody.
      split; [exact Hw|]. split; [exact Hi|]. split; [lia|]. split; [lia|].
      split; [|split].
      * intros [|k] Hk.
        { exists s. split; [reflexivity|]. split; [exact Hhit|]. lia. }
        destruct (Hopen k) as (sk & Hik & Hhk & Hbk); [lia|].
        exists sk. simpl. rewrite Hbody. split; [exact Hik|]. split; [exact Hhk|].
        intros _. destruct k as [|k]; [|apply Hbk; lia].
        simpl in Hik. injection Hik as <-.
        destruct (grid_blocked (Ray.map_x s1) (Ray.map_y s1)); [|reflexivity].
        destruct Hcell as [Hc _]. congruence.
      * intros Hh. right. split; [lia|].
        destruct (Hend Hh) as [[-> Hh1]|(_ & Hb & Hs)]; [|split; assumption].
        simpl in Hi. injection Hi as <-.
        destruct (grid_blocked (Ray.map_x s1) (Ray.map_y s1)).
        { destruct Hcell. split; [reflexivity|assumption]. }
        { destruct Hcell as [Hc _]. congruence. }
      * intros Hh. destruct (Hout Hh) as [Hmax Hlast]. split; [exact Hmax|].
        intros _. destruct n as [|n]; [|apply Hlast; lia].
        simpl in Hi. injection Hi as <-.
        destruct (grid_blocked (Ray.map_x s1) (Ray.map_y s1)); [|reflexivity].
        destruct Hcell as [Hc _]. congruence.
    + exists 0%nat, s. simpl.
      apply andb_false_iff in Hcond as [Hhit|Hlt].
      * apply negb_false_iff in Hhit.
        repeat split; auto; try lia. congruence.
      * apply Z.ltb_ge in Hlt.
        destruct (Ray.hit s) eqn:Hhit; repeat split; auto; try lia; discriminate.
Qed.

End Traversal.

(** C7.  From the state in which [cast_rays] enters it, and for every
    ray, the traversal loop returns once it has fuel for [max_steps] rounds.
    It has then run some [n] rounds of its body, [n] being the final value
    of [steps] and at most [MAP_WIDTH * MAP_HEIGHT].  Every cell stepped
    into before the last round was open, so the loop stopped at the first
    cell that was not.  If [hit] is set, the last cell stepped into is
    blocking or off the grid, and [tile] is ["1"] off the grid and the tile
    of the cell on it.  If [hit] is unset, the cap is used up and the last
    cell is open as well. *)
Theorem dda_step_cap (delta_dist_x delta_dist_y : float) (step_x step_y : Z)
    (side_dist_x side_dist_y : float) (map_x map_y : Z) (spare : nat) :
  exists (n : nat) (s : Ray.t),
    dda_while (Z.to_nat max_steps + spare) delta_dist_x delta_dist_y step_x step_y
              (dda_fresh side_dist_x side_dist_y map_x map_y) = Ok s
    /\ dda_iter n delta_dist_x delta_dist_y step_x step_y
                (dda_fresh side_dist_x side_dist_y map_x map_y) = Ok s
    /\ Ray.steps s = Z.of_nat n
    /\ Ray.steps s <= MAP_WIDTH * MAP_HEIGHT
    /\ (forall k, (0 < k < n)%nat ->
          exists sk,
            dda_iter k delta_dist_x delta_dist_y step_x step_y
                     (dda_fresh side_dist_x side_dist_y map_x map_y) = Ok sk
            /\ Ray.hit sk = false
            /\ grid_blocked (Ray.map_x sk) (Ray.map_y sk) = false)
    /\ (Ray.hit s = true ->
          (0 < n)%nat
          /\ grid_blocked (Ray.map_x s) (Ray.map_y s) = true
          /\ (outside (Ray.map_x s) (Ray.map_y s) = true -> Ray.tile s = "1"%char)
          /\ (outside (Ray.map_x s) (Ray.map_y s) = false ->
                world_map_at (Ray.map_y s) (Ray.map_x s) = Some (Ray.tile s)))
    /\ (Ray.hit s = false ->
          Ray.steps s = MAP_WIDTH * MAP_HEIGHT
          /\ grid_blocked (Ray.map_x s) (Ray.map_y s) = false).
Proof.
  destruct (dda_while_spec delta_dist_x delta_dist_y step_x step_y
              (Z.to_nat max_steps + spare)
              (dda_fresh side_dist_x side_dist_y map_x map_y))
    as (n & s & Hw & Hi & Hn & Hcap & Hopen & Hend & Hout).
  { unfold dda_fresh. cbn [Ray.steps]. lia. }
  unfold dda_fresh in Hn, Hcap. cbn [Ray.steps] in Hn, Hcap. fold max_steps.
  assert (Hpos : 0 < max_steps) by (vm_compute; reflexivity).
  specialize (Hcap (Z.lt_le_incl _ _ Hpos)).
  exists n, s. split; [exact Hw|]. split; [exact Hi|]. split; [lia|].
  split; [exact Hcap|]. split; [|split].
  - intros k [Hk0 Hkn]. destruct (Hopen k Hkn) as (sk & Hik & Hhk & Hbk).
    exists sk. split; [exact Hik|]. split; [exact Hhk|]. apply Hbk. exact Hk0.
  - intros Hh. destruct (Hend Hh) as [[_ Hfalse]|(Hn0 & Hb & Hs)]; [discriminate|].
    split; [exact Hn0|]. split; [exact Hb|]. unfold struck in Hs.
    split; intros Ho; rewrite Ho in Hs; exact Hs.
  - intros Hh. destruct (Hout Hh) as [Hmax Hlast].
    split; [lia|]. apply Hlast. lia.
Qed.

Lemma dda_step_cap_witness :
  exists (n : nat) (s : Ray.t),
    dda_while (Z.to_nat max_steps) (Fin 1) PInf (-1) 1 (dda_fresh (Fin 0.5) PInf 3 3)
    = Ok s
    /\ Ray.steps s = Z.of_nat n /\ Ray.steps s <= 399.
Proof.
  destruct (dda_step_cap (Fin 1) PInf (-1) 1 (Fin 0.5) PInf 3 3 0)
    as (n & s & Hw & _ & Hn & Hcap & _).
  exists n, s. rewrite Nat.add_0_r in Hw. split; [exact Hw|]. split; [exact Hn|].
  exact Hcap.
Defined.

(** The ray of the middle column from the spawn point, looking along the
    negative x axis: the first cell stepped into is the wall at (2, 3). *)
Example dda_demo :
  dda_while (Z.to_nat max_steps) (Fin 1) PInf (-1) 1 (dda_fresh (Fin 0.5) PInf 3 3)
  = Ok (Ray.Make (float_add (Fin 0.5) (Fin 1)) PInf 2 3 0 true "1" 1).
Proof. reflexivity. Qed.

(** ** The sprite compositor *)

(** A [pygame.Surface], of which the compositor uses the size only. *)
Record surface : Type := Surface { surface_width : Z; surface_height : Z }.

(** [pygame.transform.smoothscale(surface, (width, height))] *)
Definition smoothscale (source : surface) (size : Z * Z) : surface :=
  Surface size.1 size.2.

(** [screen.blit(source, dest, area)] *)
Record blit : Type := Blit {
  blit_source : surface;
  blit_dest : Z * Z;
  blit_area : Z * Z * Z * Z
}.

(** What a drawing function does to the screen: the blits it made, in order,
    and how it ended.  The blits made before an exception stay made. *)
Definition drawing : Type := list blit * res unit.

Definition then_draw (first rest : drawing) : drawing :=
  match first.2 with
  | Ok _ => (first.1 ++ rest.1, rest.2)
  | _ => first
  end.

(** [for item in items: body(item)] *)
Fixpoint for_each {A : Type} (body : A -> drawing) (items : list A) : drawing :=
  match items with
  | [] => ([], Ok ())
  | item :: rest => then_draw (body item) (for_each body rest)
  end.

Definition camera_det (player : Player.t) : R :=
  (Player.plane_x player * Player.dir_y player
   - Player.dir_x player * Player.plane_y player)%R.

(** [(transform_x, transform_y)] of a billboard at [(x, y)]; both drawing
    functions compute it with the same four lines. *)
Definition transform (player : Player.t) (inv_det : R) (x y : R) : R * R :=
  let sprite_x := (x - Player.x player)%R in
  let sprite_y := (y - Player.y player)%R in
  ((inv_det * (Player.dir_y player * sprite_x - Player.dir_x player * sprite_y))%R,
   (inv_det * (- Player.plane_y player * sprite_x + Player.plane_x player * sprite_y))%R).

(** The loop over the stripes, which is the same in both drawing functions:
    [sprite] is the surface that is blitted. *)
Fixpoint draw_stripes (depth_buffer : list float) (sprite : surface) (transform_y : R)
    (sprite_left sprite_width draw_start_y sprite_height : Z) (stripes : list Z)
  : drawing :=
  match stripes with
  | [] => ([], Ok ())
  | stripe :: rest =>
      let tex_x := stripe - sprite_left in
      let further :=
        draw_stripes depth_buffer sprite transform_y
                     sprite_left sprite_width draw_start_y sprite_height rest in
      if (0 <=? stripe) && (stripe <? SCREEN_WIDTH)
         && ((0 <=? tex_x) && (tex_x <? sprite_width))
      then match py_getitem depth_buffer stripe with
           | Ok depth =>
               if float_lt (Fin transform_y) depth
               then (Blit sprite (stripe, draw_start_y) (tex_x, 0, 1, sprite_height)
                       :: further.1, further.2)
               else further
           | Raise e => ([], Raise e)
           | Timeout => ([], Timeout)
           end
      else further
  end.

(** The body of the loop of [draw_monsters]. *)
Definition draw_monster (player : Player.t) (inv_det : R) (depth_buffer : list float)
    (frames : list surface) (monster : Monster.t) : drawing :=
  let '(transform_x, transform_y) :=
    transform player inv_det (Monster.x monster) (Monster.y monster) in
  if Rleb transform_y 0 then ([], Ok ())
  else
    match
      frame_idx ← py_mod (py_int (Monster.anim_timer monster * IZR MONSTER_ANIM_FPS))
                         (Z.of_nat (length frames));
      frame ← py_getitem frames frame_idx;
      ratio ← py_div transform_x transform_y;
      scale ← py_div (IZR SCREEN_HEIGHT) transform_y;
      Ok (frame, py_int (IZR SCREEN_WIDTH / 2 * (1 + ratio)),
          Z.max 1 (Z.abs (py_int scale)))
    with
    | Ok (frame, sprite_screen_x, sprite_height) =>
        let sprite_width := Z.max 1 sprite_height in
        let draw_start_y := Z.max ((- sprite_height) / 2 + SCREEN_HEIGHT / 2) 0 in
        let draw_end_y :=
          Z.min (sprite_height / 2 + SCREEN_HEIGHT / 2) (SCREEN_HEIGHT - 1) in
        let draw_start_x := Z.max ((- sprite_width) / 2 + sprite_screen_x) 0 in
        let draw_end_x := Z.min (sprite_width / 2 + sprite_screen_x) (SCREEN_WIDTH - 1) in
        if (draw_start_x >=? draw_end_x) || (draw_start_y >=? draw_end_y)
        then ([], Ok ())
        else
          let scaled_sprite := smoothscale frame (sprite_width, sprite_height) in
          let sprite_left := (- sprite_width) / 2 + sprite_screen_x in
          draw_stripes depth_buffer scaled_sprite transform_y
                       sprite_left sprite_width draw_start_y sprite_height
                       (seqZ draw_start_x (draw_end_x - draw_start_x))
    | Raise e => ([], Raise e)
    | Timeout => ([], Timeout)
    end.

Definition draw_monsters (player : Player.t) (monsters : list Monster.t)
    (depth_buffer : list float) (frames : list surface) : drawing :=
  let det := camera_det player in
  if Reqb det 0 then ([], Ok ())
  else
    match py_div 1.0 det with
    | Ok inv_det =>
        if bool_decide (frames = []) then ([], Ok ())
        else for_each (draw_monster player inv_det depth_buffer frames) monsters
    | Raise e => ([], Raise e)
    | Timeout => ([], Timeout)
    end.

(** The body of the loop of [draw_collectibles]. *)
Definition draw_pellet (player : Player.t) (inv_det : R) (depth_buffer : list float)
    (sprite : surface) (pellet : Pellet.t) : drawing :=
  let '(sprite_width_base, sprite_height_base) :=
    (surface_width sprite, surface_height sprite) in
  if Pellet.collected pellet then ([], Ok ())
  else
    let '(transform_x, transform_y) :=
      transform player inv_det (Pellet.x pellet) (Pellet.y pellet) in
    if Rleb transform_y 0 then ([], Ok ())
    else
      match
        ratio ← py_div transform_x transform_y;
        scale ← py_div (IZR SCREEN_HEIGHT) transform_y;
        let sprite_height := Z.max 1 (Z.abs (py_int (scale * 0.35))) in
        aspect ← py_div (IZR sprite_width_base) (IZR sprite_height_base);
        Ok (py_int (IZR SCREEN_WIDTH / 2 * (1 + ratio)), sprite_height,
            Z.max 1 (py_int (IZR sprite_height * aspect)))
      with
      | Ok (sprite_screen_x, sprite_height, sprite_width) =>
          let draw_start_y := Z.max ((- sprite_height) / 2 + SCREEN_HEIGHT / 2) 0 in
          let draw_end_y :=
            Z.min (sprite_height / 2 + SCREEN_HEIGHT / 2) (SCREEN_HEIGHT - 1) in
          let draw_start_x := Z.max ((- sprite_width) / 2 + sprite_screen_x) 0 in
          let draw_end_x :=
            Z.min (sprite_width / 2 + sprite_screen_x) (SCREEN_WIDTH - 1) in
          if (draw_start_x >=? draw_end_x) || (draw_start_y >=? draw_end_y)
          then ([], Ok ())
          else
            let scaled_sprite := smoothscale sprite (sprite_width, sprite_height) in
            let sprite_left := (- sprite_width) / 2 + sprite_screen_x in
            draw_stripes depth_buffer scaled_sprite transform_y
                         sprite_left sprite_width draw_start_y sprite_height
                         (seqZ draw_start_x (draw_end_x - draw_start_x))
      | Raise e => ([], Raise e)
      | Timeout => ([], Timeout)
      end.

Definition draw_collectibles (player : Player.t) (pellets : list Pellet.t)
    (depth_buffer : list float) (sprite : surface) : drawing :=
  let det := camera_det player in
  if Reqb det 0 || bool_decide (pellets = []) then ([], Ok ())
  else
    match py_div 1.0 det with
    | Ok inv_det => for_each (draw_pellet player inv_det depth_buffer sprite) pellets
    | Raise e => ([], Raise e)
    | Timeout => ([], Timeout)
    end.

(** The surfaces [main] loads: [load_monster_frames()] and
    [load_pellet_sprite()]. *)
Definition load_monster_frames : list surface := replicate 4 (Surface 56 80).
Definition load_pellet_sprite : surface := Surface 26 26.

(** *** Occlusion *)

(** The depth of a billboard at [(x, y)] in camera space: [transform_y]
    with the [inv_det] both functions compute. *)
Definition camera_depth (player : Player.t) (x y : R) : R :=
  (transform player (1.0 / camera_det player) x y).2.

(** A blit lands in a column of the screen whose entry of the depth buffer
    is strictly farther than [depth]. *)
Definition in_front (depth_buffer : list float) (depth : R) (b : blit) : Prop :=
  0 <= (blit_dest b).1 < SCREEN_WIDTH
  /\ exists wall, depth_buffer !! Z.to_nat (blit_dest b).1 = Some wall
       /\ float_lt (Fin depth) wall = true
       /\ float_lt wall (Fin depth) = false.

Lemma float_lt_asym (a b : float) : float_lt a b = true -> float_lt b a = false.
Proof.
  destruct a as [x| | |], b as [y| | |]; simpl; try reflexivity; try discriminate.
  intros H. apply Rltb_true in H. apply Rltb_false. lra.
Qed.

Lemma then_draw_blit (first rest : drawing) (b : blit) :
  b ∈ (then_draw first rest).1 -> b ∈ first.1 \/ b ∈ rest.1.
Proof.
  unfold then_draw. destruct first as [bs [[]|e|]]; simpl; auto.
  intros H. apply elem_of_app in H. exact H.
Qed.

Lemma for_each_blit {A : Type} (body : A -> drawing) (items : list A) (b : blit) :
  b ∈ (for_each body items).1 -> exists item, item ∈ items /\ b ∈ (body item).1.
Proof.
  induction items as [|item rest IH]; simpl.
  - intros H. inversion H.
  - intros H. apply then_draw_blit in H as [H|H].
    + exists item. split; [left|exact H].
    + destruct (IH H) as (item' & Hin & Hb). exists item'. split; [right; exact Hin|exact Hb].
Qed.

Lemma draw_stripes_in_front (depth_buffer : list float) (sprite : surface)
    (transform_y : R) (sprite_left sprite_width draw_start_y sprite_height : Z)
    (stripes : list Z) (b : blit) :
  b ∈ (draw_stripes depth_buffer sprite transform_y
         sprite_left sprite_width draw_start_y sprite_height stripes).1 ->
  in_front depth_buffer transform_y b /\ (blit_dest b).1 ∈ stripes.
Proof.
  induction stripes as [|stripe rest IH]; cbn [draw_stripes]; cbv zeta.
  - intros H. inversion H.
  - assert (Hrest :
      b ∈ (draw_stripes depth_buffer sprite transform_y
             sprite_left sprite_width draw_start_y sprite_height rest).1 ->
      in_front depth_buffer transform_y b /\ (blit_dest b).1 ∈ stripe :: rest).
    { intros H. destruct (IH H) as [H1 H2]. split; [exact H1|right; exact H2]. }
    destruct ((0 <=? stripe) && (stripe <? SCREEN_WIDTH)
              && ((0 <=? stripe - sprite_left) && (stripe - sprite_left <? sprite_width)))
      eqn:Hcond; [|exact Hrest].
    unfold py_getitem.
    destruct (depth_buffer !! Z.to_nat stripe) as [wall|] eqn:Hwall;
      [|intros H; inversion H].
    destruct (float_lt (Fin transform_y) wall) eqn:Hlt; [|exact Hrest].
    cbn [fst]. intros H. apply elem_of_cons in H as [->|H]; [|exact (Hrest H)].
    unfold in_front. cbn [blit_dest fst]. split; [|left].
    apply andb_true_iff in Hcond as [Hcol _].
    apply andb_true_iff in Hcol as [H0 H1].
    apply Z.leb_le in H0. apply Z.ltb_lt in H1.
    split; [lia|]. exists wall. split; [exact Hwall|]. split; [exact Hlt|].
    apply float_lt_asym. exact Hlt.
Qed.

Lemma draw_monster_in_front (player : Player.t) (inv_det : R)
    (depth_buffer : list float) (frames : list surface) (monster : Monster.t) (b : blit) :
  b ∈ (draw_monster player inv_det depth_buffer frames monster).1 ->
  in_front depth_buffer
           (transform player inv_det (Monster.x monster) (Monster.y monster)).2 b.
Proof.
  unfold draw_monster.
  destruct (transform player inv_det (Monster.x monster) (Monster.y monster))
    as [transform_x transform_y].
  destruct (Rleb transform_y 0); [intros H; inversion H|].
  match goal with
  | |- context [match ?m with Ok _ => _ | Raise _ => _ | Timeout => _ end] =>
      destruct m as [[[frame sprite_screen_x] sprite_height]|e|]
  end; try (intros H; inversion H; fail).
  cbv zeta. destruct (_ || _); [intros H; inversion H|].
  intros H. apply draw_stripes_in_front in H. apply H.
Qed.

Lemma draw_pellet_in_front (player : Player.t) (inv_det : R)
    (depth_buffer : list float) (sprite : surface) (pellet : Pellet.t) (b : blit) :
  b ∈ (draw_pellet player inv_det depth_buffer sprite pellet).1 ->
  in_front depth_buffer
           (transform player inv_det (Pellet.x pellet) (Pellet.y pellet)).2 b
  /\ Pellet.collected pellet = false.
Proof.
  unfold draw_pellet.
  destruct (Pellet.collected pellet); [intros H; inversion H|].
  destruct (transform player inv_det (Pellet.x pellet) (Pellet.y pellet))
    as [transform_x transform_y].
  destruct (Rleb transform_y 0); [intros H; inversion H|].
  match goal with
  | |- context [match ?m with Ok _ => _ | Raise _ => _ | Timeout => _ end] =>
      destruct m as [[[sprite_screen_x sprite_height] sprite_width]|e|]
  end; try (intros H; inversion H; fail).
  cbv zeta. destruct (_ || _); [intros H; inversion H|].
  intros H. apply draw_stripes_in_front in H. split; [apply H|reflexivity].
Qed.

(** C4.  Every blit that [draw_monsters] makes is made by the loop body for
    one of the monsters, and lands in a column within the screen whose entry
    of the depth buffer is strictly greater than the camera-space depth of
    that monster, hence not smaller; the same holds for [draw_collectibles]
    and the pellets, of which only uncollected ones are drawn. *)
Theorem sprite_stripes_occluded (player : Player.t) (depth_buffer : list float)
    (b : blit) :
  (forall (monsters : list Monster.t) (frames : list surface),
      b ∈ (draw_monsters player monsters depth_buffer frames).1 ->
      exists monster,
        monster ∈ monsters
        /\ b ∈ (draw_monster player (1.0 / camera_det player) depth_buffer
                  frames monster).1
        /\ in_front depth_buffer
                    (camera_depth player (Monster.x monster) (Monster.y monster)) b)
  /\ (forall (pellets : list Pellet.t) (sprite : surface),
        b ∈ (draw_collectibles player pellets depth_buffer sprite).1 ->
        exists pellet,
          pellet ∈ pellets
          /\ Pellet.collected pellet = false
          /\ b ∈ (draw_pellet player (1.0 / camera_det player) depth_buffer
                    sprite pellet).1
          /\ in_front depth_buffer
                      (camera_depth player (Pellet.x pellet) (Pellet.y pellet)) b).
Proof.
  split.
  - intros monsters frames. unfold draw_monsters, py_div. cbv zeta.
    destruct (Reqb (camera_det player) 0); [intros H; inversion H|].
    destruct (bool_decide (frames = [])); [intros H; inversion H|].
    intros H. apply for_each_blit in H as (monster & Hin & Hb).
    exists monster. split; [exact Hin|]. split; [exact Hb|].
    apply draw_monster_in_front in Hb. exact Hb.
  - intros pellets sprite. unfold draw_collectibles, py_div. cbv zeta.
    destruct (Reqb (camera_det player) 0); [intros H; inversion H|].
    destruct (bool_decide (pellets = [])); [intros H; inversion H|].
    simpl. intros H. apply for_each_blit in H as (pellet & Hin & Hb).
    exists pellet. split; [exact Hin|].
    destruct (draw_pellet_in_front _ _ _ _ _ _ Hb) as [Hfront Hfresh].
    split; [exact Hfresh|]. split; [exact Hb|]. exact Hfront.
Qed.

(** *** A monster one tile in front of the spawn point *)

Definition near_monster : Monster.t := Monster.Make 2.5 3.5 1.2 0 0.0 [] 0.0.

(** The depth buffer of a frame in which no ray hit a wall. *)
Definition far_walls : list float := replicate (Z.to_nat SCREEN_WIDTH) PInf.

Lemma then_draw_first (first rest : drawing) (b : blit) :
  b ∈ first.1 -> b ∈ (then_draw first rest).1.
Proof.
  unfold then_draw. destruct first as [bs [[]|e|]]; simpl; auto.
  intros H. apply elem_of_app. left. exact H.
Qed.

Lemma draw_stripes_first (depth_buffer : list float) (sprite : surface)
    (transform_y : R) (sprite_left sprite_width draw_start_y sprite_height : Z)
    (stripe : Z) (rest : list Z) (wall : float) :
  0 <= stripe < SCREEN_WIDTH ->
  0 <= stripe - sprite_left < sprite_width ->
  depth_buffer !! Z.to_nat stripe = Some wall ->
  float_lt (Fin transform_y) wall = true ->
  Blit sprite (stripe, draw_start_y) (stripe - sprite_left, 0, 1, sprite_height)
  ∈ (draw_stripes depth_buffer sprite transform_y
       sprite_left sprite_width draw_start_y sprite_height (stripe :: rest)).1.
Proof.
  intros Hs Ht Hwall Hlt. cbn [draw_stripes]. cbv zeta.
  replace ((0 <=? stripe) && (stripe <? SCREEN_WIDTH)
           && ((0 <=? stripe - sprite_left) && (stripe - sprite_left <? sprite_width)))
    with true.
  - unfold py_getitem. rewrite Hwall, Hlt. left.
  - symmetry. rewrite !andb_true_iff, !Z.leb_le, !Z.ltb_lt. lia.
Qed.

Lemma spawn_det : camera_det spawn_player = 0.66%R.
Proof. unfold camera_det, spawn_player. simpl. lra. Qed.

Lemma near_transform :
  transform spawn_player (1.0 / camera_det spawn_player) 2.5 3.5 = (0%R, 1%R).
Proof.
  rewrite spawn_det. unfold transform, spawn_player. simpl. f_equal; lra.
Qed.

Lemma near_monster_drawn :
  Blit (Surface 600 600) (180, 0) (0, 0, 1, 600)
  ∈ (draw_monsters spawn_player [near_monster] far_walls load_monster_frames).1.
Proof.
  unfold draw_monsters. cbv zeta.
  replace (Reqb (camera_det spawn_player) 0) with false
    by (symmetry; apply Reqb_false; rewrite spawn_det; lra).
  unfold py_div at 1.
  replace (Reqb (camera_det spawn_player) 0) with false
    by (symmetry; apply Reqb_false; rewrite spawn_det; lra).
  change (bool_decide (load_monster_frames = [])) with false. cbv iota.
  cbn [for_each]. apply then_draw_first. unfold draw_monster.
  change (Monster.x near_monster) with 2.5%R.
  change (Monster.y near_monster) with 3.5%R.
  rewrite near_transform.
  replace (Rleb 1 0) with false by (symmetry; apply Rleb_false; lra).
  replace (py_int (Monster.anim_timer near_monster * IZR MONSTER_ANIM_FPS)) with 0
    by (symmetry; apply py_int_nonneg; simpl; lra).
  change (py_mod 0 (Z.of_nat (length load_monster_frames))) with (Ok 0).
  cbn [mbind res_mbind res_bind].
  change (py_getitem load_monster_frames 0) with (Ok (Surface 56 80)).
  cbn [mbind res_mbind res_bind].
  unfold py_div.
  replace (Reqb 1 0) with false by (symmetry; apply Reqb_false; lra).
  cbn [mbind res_mbind res_bind].
  replace (py_int (IZR SCREEN_WIDTH / 2 * (1 + 0 / 1))) with 480
    by (symmetry; apply py_int_nonneg; unfold SCREEN_WIDTH; lra).
  replace (py_int (IZR SCREEN_HEIGHT / 1)) with 600
    by (symmetry; apply py_int_nonneg; unfold SCREEN_HEIGHT; lra).
  cbv beta iota. change (1 `max` Z.abs 600) with 600.
  match goal with |- context [if ?c then _ else _] => change c with false end.
  cbv iota.
  match goal with
  | |- context [seqZ ?a ?n] => change (seqZ a n) with (seqZ 180 600)
  end.
  rewrite seqZ_cons by lia.
  apply (draw_stripes_first far_walls _ 1 (-300 + 480) 600 0 600 180 _ PInf).
  - unfold SCREEN_WIDTH. lia.
  - lia.
  - apply lookup_replicate_2. unfold SCREEN_WIDTH. lia.
  - reflexivity.
Qed.

Lemma sprite_stripes_occluded_witness :
  Blit (Surface 600 600) (180, 0) (0, 0, 1, 600)
  ∈ (draw_monsters spawn_player [near_monster] far_walls load_monster_frames).1
  /\ exists monster,
       monster ∈ [near_monster]
       /\ in_front far_walls
                   (camera_depth spawn_player (Monster.x monster) (Monster.y monster))
                   (Blit (Surface 600 600) (180, 0) (0, 0, 1, 600)).
Proof.
  split; [exact near_monster_drawn|].
  destruct (proj1 (sprite_stripes_occluded spawn_player far_walls
                     (Blit (Surface 600 600) (180, 0) (0, 0, 1, 600)))
              [near_monster] load_monster_frames near_monster_drawn)
    as (monster & Hin & _ & Hfront).
  exists monster. split; [exact Hin|exact Hfront].
Defined.

(** *** Divisions *)

Lemma py_div_nonzero (a b : R) : b <> 0%R -> py_div a b = Ok (a / b)%R.
Proof.
  intros H. unfold py_div.
  replace (Reqb b 0) with false by (symmetry; apply Reqb_false; exact H).
  reflexivity.
Qed.

Lemma delta_dist_returns (ray_dir : R) : exists d, delta_dist ray_dir = Ok d.
Proof.
  unfold delta_dist. destruct (Reqb ray_dir 0) eqn:H; simpl; [eauto|].
  apply Reqb_false in H. rewrite (py_div_nonzero _ _ H). simpl. eauto.
Qed.

(** [max(perp_wall_dist, 0.0001)] is not below 0.0001, and is not zero. *)
Lemma py_max_clamped (a : float) :
  float_lt (py_max a (Fin 0.0001)) (Fin 0.0001) = false
  /\ py_max a (Fin 0.0001) <> Fin 0.
Proof.
  unfold py_max. destruct (float_lt a (Fin 0.0001)) eqn:H.
  - split; [simpl; apply Rltb_false; lra|].
    intros [= E]. lra.
  - split; [exact H|]. intros ->. simpl in H. apply Rltb_false in H. lra.
Qed.

Lemma float_div_returns (a b : float) : b <> Fin 0 -> exists q, float_div a b = Ok q.
Proof.
  intros H. unfold float_div. destruct b as [y| | |]; eauto.
  destruct (Reqb y 0) eqn:Hy; [|eauto].
  apply Reqb_true in Hy. subst y. congruence.
Qed.

(** How a column can end: with a slice or without one, or in the
    [ValueError] or [OverflowError] of [int] on a NaN or an infinity. *)
Lemma cast_column_outcome (player : Player.t) (column : Z) :
  (exists drawn, cast_column player column = Ok drawn
     /\ forall slice, drawn = Some slice ->
          float_lt (slice_depth slice) (Fin 0.0001) = false
          /\ slice_depth slice <> Fin 0)
  \/ cast_column player column = Raise ValueError
  \/ cast_column player column = Raise OverflowError.
Proof.
  unfold cast_column.
  rewrite py_div_nonzero by (unfold SCREEN_WIDTH; lra).
  cbn [mbind res_mbind res_bind]. cbv zeta.
  destruct (delta_dist_returns
              (Player.dir_x player
               + Player.plane_x player * (IZR (2 * column) / IZR SCREEN_WIDTH - 1)))
    as [ddx ->].
  destruct (delta_dist_returns
              (Player.dir_y player
               + Player.plane_y player * (IZR (2 * column) / IZR SCREEN_WIDTH - 1)))
    as [ddy ->].
  cbn [mbind res_mbind res_bind].
  destruct (Rltb _ 0); destruct (Rltb _ 0);
    match goal with
    | |- context [dda_while ?fuel ?dx ?dy ?sx ?sy ?s] =>
        destruct (dda_while_spec dx dy sx sy fuel s) as (n & s' & Hw & _);
          [unfold dda_fresh; cbn [Ray.steps]; lia|]; rewrite Hw
    end;
    cbn [mbind res_mbind res_bind];
    (destruct (Ray.hit s'); cbn [negb]; [|left; eexists; split; [reflexivity|discriminate]]);
    match goal with
    | |- context [py_max ?p (Fin 0.0001)] =>
        destruct (py_max_clamped p) as [Hclamp Hnz];
        destruct (float_div_returns (Fin (IZR SCREEN_HEIGHT)) (py_max p (Fin 0.0001)) Hnz)
          as [q Hq];
        rewrite Hq
    end;
    cbn [mbind res_mbind res_bind];
    (destruct q as [x| | |]; cbn [float_int mbind res_mbind res_bind];
     [left; eexists; split; [reflexivity|]; intros slice [= <-]; cbn [slice_depth];
      split; assumption
     | right; right; reflexivity
     | right; right; reflexivity
     | right; left; reflexivity]).
Qed.

Lemma cast_columns_no_zero_division (player : Player.t) (columns : list Z)
    (depth_buffer : list float) :
  cast_columns player columns depth_buffer <> Raise ZeroDivisionError.
Proof.
  revert depth_buffer. induction columns as [|column rest IH]; intros depth_buffer.
  - discriminate.
  - cbn [cast_columns].
    destruct (cast_column_outcome player column) as [(drawn & -> & _)|[-> | ->]];
      [|discriminate..].
    cbn [mbind res_mbind res_bind]. destruct drawn as [slice|]; [|apply IH].
    unfold py_setitem. destruct (decide _); [|discriminate].
    cbn [mbind res_mbind res_bind].
    specialize (IH (<[Z.to_nat column := slice_depth slice]> depth_buffer)).
    destruct (cast_columns player rest _) as [[slices buffer]|e|];
      cbn [mbind res_mbind res_bind]; [discriminate|exact IH|discriminate].
Qed.

(** A drawing that ends well, or in the [IndexError] of a depth buffer that
    is shorter than the screen is wide. *)
Definition ends_well (d : drawing) : Prop := d.2 = Ok () \/ d.2 = Raise IndexError.

Lemma for_each_ends_well {A : Type} (body : A -> drawing) (items : list A) :
  (forall item, ends_well (body item)) -> ends_well (for_each body items).
Proof.
  intros Hbody. induction items as [|item rest IH]; [left; reflexivity|].
  cbn [for_each]. unfold then_draw.
  destruct (Hbody item) as [H|H]; rewrite H; [exact IH|right; exact H].
Qed.

Lemma draw_stripes_ends_well (depth_buffer : list float) (sprite : surface)
    (transform_y : R) (sprite_left sprite_width draw_start_y sprite_height : Z)
    (stripes : list Z) :
  ends_well (draw_stripes depth_buffer sprite transform_y
               sprite_left sprite_width draw_start_y sprite_height stripes).
Proof.
  induction stripes as [|stripe rest IH]; [left; reflexivity|].
  cbn [draw_stripes]. cbv zeta.
  destruct (_ && _); [|exact IH].
  unfold py_getitem. destruct (depth_buffer !! Z.to_nat stripe); [|right; reflexivity].
  destruct (float_lt _ _); [|exact IH]. exact IH.
Qed.

(** The frame index is taken modulo the number of frames, so the frame is
    there. *)
Lemma frame_returns (frames : list surface) (count : Z) :
  frames <> [] ->
  exists frame,
    (frame_idx ← py_mod count (Z.of_nat (length frames)); py_getitem frames frame_idx)
    = Ok frame.
Proof.
  intros Hne. unfold py_mod.
  assert (Hlen : 0 < Z.of_nat (length frames)) by (destruct frames; [congruence|simpl; lia]).
  replace (Z.of_nat (length frames) =? 0) with false by (symmetry; apply Z.eqb_neq; lia).
  cbn [mbind res_mbind res_bind]. unfold py_getitem.
  pose proof (Z.mod_pos_bound count _ Hlen) as Hmod.
  destruct (lookup_lt_is_Some_2 frames (Z.to_nat (count `mod` Z.of_nat (length frames))))
    as [frame ->]; [lia|eauto].
Qed.

Lemma draw_monster_behind (player : Player.t) (inv_det : R)
    (depth_buffer : list float) (frames : list surface) (monster : Monster.t) :
  ((transform player inv_det (Monster.x monster) (Monster.y monster)).2 <= 0)%R ->
  draw_monster player inv_det depth_buffer frames monster = ([], Ok ()).
Proof.
  unfold draw_monster.
  destruct (transform player inv_det (Monster.x monster) (Monster.y monster))
    as [transform_x transform_y].
  cbn [snd]. intros H.
  replace (Rleb transform_y 0) with true by (symmetry; apply Rleb_true; exact H).
  reflexivity.
Qed.

Lemma draw_monster_ends_well (player : Player.t) (inv_det : R)
    (depth_buffer : list float) (frames : list surface) (monster : Monster.t) :
  frames <> [] ->
  ends_well (draw_monster player inv_det depth_buffer frames monster).
Proof.
  intros Hne. unfold draw_monster.
  destruct (transform player inv_det (Monster.x monster) (Monster.y monster))
    as [transform_x transform_y].
  destruct (Rleb transform_y 0) eqn:Hdepth; [left; reflexivity|].
  apply Rleb_false in Hdepth.
  destruct (frame_returns frames
              (py_int (Monster.anim_timer monster * IZR MONSTER_ANIM_FPS)) Hne)
    as [frame Hframe].
  destruct (py_mod _ _) as [frame_idx|e|];
    cbn [mbind res_mbind res_bind] in Hframe |- *; [|discriminate..].
  rewrite Hframe. rewrite !py_div_nonzero by lra.
  cbn [mbind res_mbind res_bind]. cbv zeta.
  destruct (_ || _); [left; reflexivity|].
  apply draw_stripes_ends_well.
Qed.

Lemma draw_pellet_behind (player : Player.t) (inv_det : R)
    (depth_buffer : list float) (sprite : surface) (pellet : Pellet.t) :
  ((transform player inv_det (Pellet.x pellet) (Pellet.y pellet)).2 <= 0)%R ->
  draw_pellet player inv_det depth_buffer sprite pellet = ([], Ok ()).
Proof.
  unfold draw_pellet. destruct (Pellet.collected pellet); [reflexivity|].
  destruct (transform player inv_det (Pellet.x pellet) (Pellet.y pellet))
    as [transform_x transform_y].
  cbn [snd]. intros H.
  replace (Rleb transform_y 0) with true by (symmetry; apply Rleb_true; exact H).
  reflexivity.
Qed.

Lemma draw_pellet_ends_well (player : Player.t) (inv_det : R)
    (depth_buffer : list float) (sprite : surface) (pellet : Pellet.t) :
  surface_height sprite <> 0 ->
  ends_well (draw_pellet player inv_det depth_buffer sprite pellet).
Proof.
  intros Hsprite. unfold draw_pellet.
  destruct (Pellet.collected pellet); [left; reflexivity|].
  destruct (transform player inv_det (Pellet.x pellet) (Pellet.y pellet))
    as [transform_x transform_y].
  destruct (Rleb transform_y 0) eqn:Hdepth; [left; reflexivity|].
  apply Rleb_false in Hdepth.
  assert (IZR (surface_height sprite) <> 0%R) by (apply not_0_IZR; exact Hsprite).
  cbn [mbind res_mbind res_bind].
  rewrite !py_div_nonzero by (assumption || lra).
  cbn [mbind res_mbind res_bind]. cbv zeta.
  rewrite ?py_div_nonzero by assumption. cbn [mbind res_mbind res_bind].
  destruct (_ || _); [left; reflexivity|].
  apply draw_stripes_ends_well.
Qed.

Lemma ends_well_no_zero_division (d : drawing) :
  ends_well d -> d.2 <> Raise ZeroDivisionError.
Proof. intros [H|H]; rewrite H; discriminate. Qed.

Lemma draw_monsters_ends_well (player : Player.t) (monsters : list Monster.t)
    (depth_buffer : list float) (frames : list surface) :
  ends_well (draw_monsters player monsters depth_buffer frames).
Proof.
  unfold draw_monsters. cbv zeta.
  destruct (Reqb (camera_det player) 0) eqn:Hdet; [left; reflexivity|].
  apply Reqb_false in Hdet. rewrite (py_div_nonzero _ _ Hdet).
  destruct (bool_decide (frames = [])) eqn:Hframes; [left; reflexivity|].
  apply bool_decide_eq_false in Hframes.
  apply for_each_ends_well. intros monster.
  apply draw_monster_ends_well. exact Hframes.
Qed.

Lemma draw_collectibles_ends_well (player : Player.t) (pellets : list Pellet.t)
    (depth_buffer : list float) (sprite : surface) :
  surface_height sprite <> 0 ->
  ends_well (draw_collectibles player pellets depth_buffer sprite).
Proof.
  intros Hsprite. unfold draw_collectibles. cbv zeta.
  destruct (Reqb (camera_det player) 0) eqn:Hdet; [left; reflexivity|].
  apply Reqb_false in Hdet. rewrite (py_div_nonzero _ _ Hdet).
  destruct (bool_decide (pellets = [])); [left; reflexivity|]. cbn [orb].
  apply for_each_ends_well. intros pellet.
  apply draw_pellet_ends_well. exact Hsprite.
Qed.

(** C9.  With a camera determinant that is exactly zero both drawing
    functions return without a blit, and a billboard whose camera-space
    depth is not positive is passed over.  So [draw_monsters] never raises
    [ZeroDivisionError], and neither does [draw_collectibles] for a sprite of
    a height that is not zero.  A column of the raycaster never raises it
    either: a zero ray component gives [float("inf")] instead of a quotient,
    and the distance that [SCREEN_HEIGHT] is divided by is clamped to
    0.0001 at least.  Hence [cast_rays] does not raise it. *)
Theorem no_division_by_zero (player : Player.t) :
  (camera_det player = 0%R ->
     forall monsters pellets depth_buffer frames sprite,
       draw_monsters player monsters depth_buffer frames = ([], Ok ())
       /\ draw_collectibles player pellets depth_buffer sprite = ([], Ok ()))
  /\ (forall inv_det depth_buffer frames monster,
        ((transform player inv_det (Monster.x monster) (Monster.y monster)).2 <= 0)%R ->
        draw_monster player inv_det depth_buffer frames monster = ([], Ok ()))
  /\ (forall inv_det depth_buffer sprite pellet,
        ((transform player inv_det (Pellet.x pellet) (Pellet.y pellet)).2 <= 0)%R ->
        draw_pellet player inv_det depth_buffer sprite pellet = ([], Ok ()))
  /\ (forall monsters depth_buffer frames,
        (draw_monsters player monsters depth_buffer frames).2 <> Raise ZeroDivisionError)
  /\ (forall pellets depth_buffer sprite,
        surface_height sprite <> 0 ->
        (draw_collectibles player pellets depth_buffer sprite).2
        <> Raise ZeroDivisionError)
  /\ (forall column,
        cast_column player column <> Raise ZeroDivisionError
        /\ forall slice,
             cast_column player column = Ok (Some slice) ->
             float_lt (slice_depth slice) (Fin 0.0001) = false
             /\ slice_depth slice <> Fin 0)
  /\ cast_rays player <> Raise ZeroDivisionError.
Proof.
  split; [|split; [|split; [|split; [|split; [|split]]]]].
  - intros Hdet monsters pellets depth_buffer frames sprite.
    unfold draw_monsters, draw_collectibles. cbv zeta.
    replace (Reqb (camera_det player) 0) with true
      by (symmetry; apply Reqb_true; exact Hdet).
    split; reflexivity.
  - intros inv_det depth_buffer frames monster. apply draw_monster_behind.
  - intros inv_det depth_buffer sprite pellet. apply draw_pellet_behind.
  - intros monsters depth_buffer frames.
    apply ends_well_no_zero_division, draw_monsters_ends_well.
  - intros pellets depth_buffer sprite Hsprite.
    apply ends_well_no_zero_division, draw_collectibles_ends_well. exact Hsprite.
  - intros column.
    destruct (cast_column_outcome player column) as [(drawn & Hd & Hclamp)|[H|H]];
      rewrite ?Hd, ?H; split; try discriminate.
    intros slice [= ->]. apply Hclamp. reflexivity.
  - apply cast_columns_no_zero_division.
Qed.

(** A player whose direction and camera plane are both zero. *)
Definition blind_player : Player.t := Player.Make 3.5 3.5 0 0 0 0.

Lemma no_division_by_zero_witness :
  camera_det blind_player = 0%R
  /\ draw_monsters blind_player [near_monster] far_walls load_monster_frames
     = ([], Ok ())
  /\ (draw_collectibles spawn_player [Pellet.Make 1.5 3.5 false] far_walls
        load_pellet_sprite).2 <> Raise ZeroDivisionError.
Proof.
  assert (Hdet : camera_det blind_player = 0%R)
    by (unfold camera_det, blind_player; simpl; lra).
  split; [exact Hdet|]. split.
  - apply (proj1 (no_division_by_zero blind_player) Hdet
             [near_monster] [] far_walls load_monster_frames load_pellet_sprite).
  - apply (proj1 (proj2 (proj2 (proj2 (proj2 (no_division_by_zero spawn_player)))))).
    simpl. lia.
Defined.

(** * Further properties of the code *)

(** ** The planner: heuristic and shape of the paths *)

Lemma adjacent_sym (a b : cell) : adjacent a b -> adjacent b a.
Proof.
  intros H. destruct a as [x y]. apply adjacent_cases in H. simpl in H.
  unfold adjacent, neighbors. rewrite !elem_of_cons.
  destruct H as [-> | [-> | [-> | ->]]]; simpl.
  - right; left. f_equal; lia.
  - left. f_equal; lia.
  - right; right; right; left. f_equal; lia.
  - right; right; left. f_equal; lia.
Qed.

Lemma route_length (start goal : cell) (p : list cell) :
  route start goal p -> heuristic start goal + 1 <= Z.of_nat (length p).
Proof.
  induction 1 as [|b c p Hp IH Hadj Hc].
  - rewrite heuristic_self. simpl. lia.
  - rewrite length_app. simpl. pose proof (heuristic_step start b c Hadj). lia.
Qed.

(** X1.  The heuristic of [astar_path] is the Manhattan distance: it is
    symmetric, and no route from [a] to [b] has fewer steps than
    [heuristic a b], so the search never overestimates what is left. *)
Theorem heuristic_admissible (a b : cell) (p : list cell) :
  route a b p ->
  heuristic a b = heuristic b a
  /\ heuristic a b <= Z.of_nat (length p) - 1.
Proof.
  intros Hp. split; [unfold heuristic; lia|].
  pose proof (route_length a b p Hp). lia.
Qed.

Lemma heuristic_admissible_witness :
  route (1, 1) (2, 1) [(1, 1); (2, 1)]
  /\ heuristic (1, 1) (2, 1) <= Z.of_nat (length [(1, 1); (2, 1)]) - 1.
Proof.
  assert (H : route (1, 1) (2, 1) [(1, 1); (2, 1)]).
  { apply (route_step (1, 1) (1, 1) (2, 1) [(1, 1)]).
    - apply route_start.
    - unfold adjacent, neighbors. simpl. left.
    - reflexivity. }
  split; [exact H|]. apply (heuristic_admissible (1, 1) (2, 1) _ H).
Defined.

(** *** Routes can be cut and joined *)

Lemma route_passable_end (a b : cell) (p : list cell) :
  route a b p -> passable a -> passable b.
Proof. destruct 1; auto. Qed.

(** A route entered by one more step in front. *)
Lemma route_cons (a b c : cell) (p : list cell) :
  route b c p -> adjacent a b -> passable b -> route a c (a :: p).
Proof.
  induction 1 as [|c d p Hp IH Hadj Hd]; intros Hab Hb.
  - apply (route_step a a b [a]); [apply route_start|exact Hab|exact Hb].
  - change (a :: p ++ [d]) with ((a :: p) ++ [d]).
    apply (route_step a c d); [apply IH; assumption|exact Hadj|exact Hd].
Qed.

(** Walking a route backwards, when the cell it starts from is free. *)
Lemma route_rev (a b : cell) (p : list cell) :
  route a b p -> passable a -> route b a (rev p).
Proof.
  induction 1 as [|b c p Hp IH Hadj Hc]; intros Ha.
  - apply route_start.
  - rewrite rev_app_distr. simpl.
    apply (route_cons c b a); [apply IH; exact Ha|apply adjacent_sym; exact Hadj|].
    apply (route_passable_end a b p Hp Ha).
Qed.

(** Joining two routes. *)
Lemma route_app (a b c : cell) (p q : list cell) :
  route a b p -> route b c (b :: q) -> route a c (p ++ q).
Proof.
  intros Hp. revert c. induction q as [|d q IH] using rev_ind; intros c Hq.
  - assert (c = b) as ->.
    { apply route_last in Hq. simpl in Hq. congruence. }
    rewrite app_nil_r. exact Hp.
  - remember (b :: q ++ [d]) as l eqn:Hl.
    destruct Hq as [|b' c' p' Hp' Hadj Hc].
    + destruct q; discriminate.
    + change (b :: q ++ [d]) with ((b :: q) ++ [d]) in Hl.
      apply app_inj_tail in Hl as [-> ->].
      rewrite app_assoc.
      apply (route_step a b' d); [apply IH; exact Hp'|exact Hadj|exact Hc].
Qed.

(** Cutting a route at one of its cells. *)
Lemma route_split (a b c : cell) (l1 l2 : list cell) :
  route a b (l1 ++ c :: l2) -> route a c (l1 ++ [c]) /\ route c b (c :: l2).
Proof.
  revert b. induction l2 as [|d l2 IH] using rev_ind; intros b Hp.
  - assert (b = c) as ->.
    { apply route_last in Hp. rewrite last_snoc in Hp. congruence. }
    split; [exact Hp|apply route_start].
  - remember (l1 ++ c :: l2 ++ [d]) as l eqn:Hl.
    destruct Hp as [|b' c' p' Hp' Hadj Hc].
    + destruct l1 as [|? l1]; [destruct l2|destruct l1]; discriminate.
    + replace (l1 ++ c :: l2 ++ [d]) with ((l1 ++ c :: l2) ++ [d]) in Hl
        by (rewrite <- app_assoc; reflexivity).
      apply app_inj_tail in Hl as [-> ->].
      destruct (IH b' Hp') as [H1 H2]. split; [exact H1|].
      change (c :: l2 ++ [d]) with ((c :: l2) ++ [d]).
      apply (route_step c b' d); assumption.
Qed.

(** A list in which no cell stands twice. *)
Lemma NoDup_no_repeat {A : Type} `{EqDecision A} (p : list A) :
  (forall l1 c l2 l3, p <> l1 ++ c :: l2 ++ c :: l3) -> NoDup p.
Proof.
  induction p as [|a p IH]; intros H; [constructor|].
  constructor.
  - intros Hin. apply list_elem_of_split in Hin as (l2 & l3 & ->).
    apply (H [] a l2 l3). reflexivity.
  - apply IH. intros l1 c l2 l3 ->. apply (H (a :: l1) c l2 l3). reflexivity.
Qed.

Lemma shortest_route_NoDup (start goal : cell) (p : list cell) :
  shortest_route start goal p -> NoDup p.
Proof.
  intros [Hp Hmin]. apply NoDup_no_repeat. intros l1 c l2 l3 ->.
  destruct (route_split _ _ _ _ _ Hp) as [H1 H2].
  change (c :: l2 ++ c :: l3) with ((c :: l2) ++ c :: l3) in H2.
  destruct (route_split _ _ _ _ _ H2) as [_ H3].
  pose proof (route_app _ _ _ _ _ H1 H3) as Hshort.
  apply Hmin in Hshort. rewrite !length_app in Hshort. simpl in Hshort.
  rewrite length_app in Hshort. simpl in Hshort. lia.
Qed.

Lemma route_tail_passable (a b : cell) (p : list cell) :
  route a b p -> forall c, c ∈ tail p -> passable c.
Proof.
  induction 1 as [|b c p Hp IH Hadj Hc]; intros d Hd.
  - inversion Hd.
  - destruct (route_head _ _ _ Hp) as [q ->]. simpl in Hd, IH.
    apply elem_of_app in Hd as [Hd|Hd]; [apply IH; exact Hd|].
    apply list_elem_of_singleton in Hd. subst d. exact Hc.
Qed.

Lemma astar_path_route (start goal : cell) (p : list cell) :
  astar_path start goal = Ok p -> p = [] \/ shortest_route start goal p.
Proof.
  intros Hp. destruct (decide (start = goal)) as [<-|Hne].
  - unfold astar_path, astar_path_fuel in Hp.
    destruct (decide (start = start)); [|congruence].
    injection Hp as <-. right. split; [apply route_start|].
    intros q Hq. destruct (route_head _ _ _ Hq) as [q' ->]. simpl. lia.
  - destruct (astar_path_planned start goal Hne) as (p' & Hp' & Hplan).
    rewrite Hp in Hp'. injection Hp' as <-.
    destruct Hplan as [[-> _]|H]; [left; reflexivity|right; exact H].
Qed.

(** X2.  A path that [astar_path] returns visits no cell twice; its cells
    after the first are tiles of the map that are not blocking, each next to
    the one before; so it has at most one cell more than the map has tiles. *)
Theorem astar_path_simple (start goal : cell) (p : list cell) :
  astar_path start goal = Ok p ->
  NoDup p
  /\ (forall c, c ∈ tail p -> grid_blocked c.1 c.2 = false /\ c ∈ box)
  /\ (forall i a b, p !! i = Some a -> p !! S i = Some b -> b ∈ neighbors a)
  /\ (length p <= S CELLS)%nat.
Proof.
  intros Hp. destruct (astar_path_route start goal p Hp) as [->|Hshort].
  { split; [constructor|]. split; [intros c Hc; inversion Hc|].
    split; [intros i a b Ha; discriminate|simpl; lia]. }
  pose proof (shortest_route_NoDup _ _ _ Hshort) as Hnd.
  destruct Hshort as [Hroute _].
  pose proof (route_tail_passable _ _ _ Hroute) as Htail.
  split; [exact Hnd|]. split; [|split].
  - intros c Hc. split; [apply Htail; exact Hc|].
    apply passable_in_box, Htail, Hc.
  - clear Hnd Htail Hp. induction Hroute as [|b c p Hp IH Hadj Hc]; intros i x y Hx Hy.
    + destruct i; discriminate.
    + destruct (decide (S i < length p)%nat) as [Hlt|Hge].
      * rewrite lookup_app_l in Hx by lia. rewrite lookup_app_l in Hy by lia.
        apply (IH i); assumption.
      * assert (Hlen : (S i = length p)%nat).
        { apply lookup_lt_Some in Hy. rewrite length_app in Hy. simpl in Hy. lia. }
        rewrite lookup_app_l in Hx by lia.
        rewrite lookup_app_r in Hy by lia.
        replace (S i - length p)%nat with 0%nat in Hy by lia.
        injection Hy as <-.
        assert (x = b) as ->; [|exact Hadj].
        apply route_last in Hp. rewrite last_lookup in Hp.
        replace (Nat.pred (length p)) with i in Hp by lia. congruence.
  - destruct (route_head _ _ _ Hroute) as [q ->]. simpl in Htail |- *.
    apply NoDup_cons in Hnd as [_ Hnd].
    assert (Hsub : q ⊆ box) by (intros c Hc; apply passable_in_box, Htail, Hc).
    pose proof (submseteq_length _ _ (NoDup_submseteq _ _ Hnd Hsub)) as Hlen.
    rewrite box_length in Hlen. lia.
Qed.

Lemma astar_path_simple_witness :
  astar_path (15, 9) (13, 7) = Ok [(15, 9); (15, 8); (15, 7); (14, 7); (13, 7)]
  /\ NoDup [(15, 9); (15, 8); (15, 7); (14, 7); (13, 7)].
Proof.
  split; [exact astar_demo|].
  apply (astar_path_simple (15, 9) (13, 7) _ astar_demo).
Defined.

(** X3.  Between two tiles that are not blocking the planner is symmetric:
    the path back has as many cells as the path there, and one is empty
    exactly if the other is. *)
Theorem astar_path_symmetric (a b : cell) (p q : list cell) :
  grid_blocked a.1 a.2 = false ->
  grid_blocked b.1 b.2 = false ->
  astar_path a b = Ok p ->
  astar_path b a = Ok q ->
  length p = length q.
Proof.
  intros Ha Hb Hp Hq.
  destruct (decide (a = b)) as [<-|Hne]; [congruence|].
  assert (Hne' : b <> a) by congruence.
  destruct (astar_path_planned a b Hne) as (p' & Hp' & Hplan).
  destruct (astar_path_planned b a Hne') as (q' & Hq' & Hplan').
  rewrite Hp in Hp'. injection Hp' as <-. rewrite Hq in Hq'. injection Hq' as <-.
  destruct Hplan as [[-> Hnp]|[Hrp Hminp]]; destruct Hplan' as [[-> Hnq]|[Hrq Hminq]].
  - reflexivity.
  - exfalso. apply Hnp. exists (rev q). apply route_rev; assumption.
  - exfalso. apply Hnq. exists (rev p). apply route_rev; assumption.
  - pose proof (Hminp _ (route_rev _ _ _ Hrq Hb)) as H1.
    pose proof (Hminq _ (route_rev _ _ _ Hrp Ha)) as H2.
    rewrite length_rev in H1, H2. lia.
Qed.

Lemma astar_path_symmetric_witness :
  grid_blocked 15 9 = false /\ grid_blocked 13 7 = false
  /\ exists q, astar_path (13, 7) (15, 9) = Ok q /\ length q = 5%nat.
Proof.
  assert (Ha : grid_blocked (15, 9).1 (15, 9).2 = false) by (vm_compute; reflexivity).
  assert (Hb : grid_blocked (13, 7).1 (13, 7).2 = false) by (vm_compute; reflexivity).
  split; [exact Ha|]. split; [exact Hb|].
  destruct (astar_path_returns (13, 7) (15, 9)) as [q Hq].
  exists q. split; [exact Hq|].
  symmetry. apply (astar_path_symmetric (15, 9) (13, 7) _ q Ha Hb astar_demo Hq).
Defined.

(** ** The pursuer, tick by tick *)

Lemma py_fmod_range (a m : R) : (0 < m)%R -> (0 <= py_fmod a m < m)%R.
Proof.
  intros Hm. unfold py_fmod.
  destruct (base_Int_part (a / m)) as [H1 H2].
  assert (Ha : (a = a / m * m)%R) by (field; lra).
  remember (a / m)%R as q eqn:Hq. remember (IZR (Int_part q)) as k eqn:Hk.
  clear Hq Hk. subst a. split; nra.
Qed.

Lemma tau_pos : (0 < tau)%R.
Proof. unfold tau. pose proof PI_RGT_0. lra. Qed.

Lemma steer_nil (player : Player.t) (monster : Monster.t) :
  Monster.path monster = [] -> (steer player monster).1 = [].
Proof. unfold steer. intros ->. reflexivity. Qed.

Lemma chase_speed (player : Player.t) (delta_time : R) (monster : Monster.t) :
  Monster.speed (chase player delta_time monster) = Monster.speed monster
  /\ Monster.pulse (chase player delta_time monster) = Monster.pulse monster
  /\ Monster.anim_timer (chase player delta_time monster) = Monster.anim_timer monster.
Proof.
  unfold chase. destruct (steer player monster) as [path [tx ty]].
  destruct (Rltb 0.001 _); destruct (move_entity _ _ _ _); repeat split; reflexivity.
Qed.

(** What the first half of a tick leaves in a monster. *)
Lemma plan_fields (player : Player.t) (delta_time : R) (monster monster' : Monster.t) :
  plan player delta_time monster = Ok monster' ->
  Monster.x monster' = Monster.x monster
  /\ Monster.y monster' = Monster.y monster
  /\ Monster.speed monster' = Monster.speed monster
  /\ Monster.pulse monster' = py_fmod (Monster.pulse monster + delta_time * 2.0) tau
  /\ Monster.anim_timer monster'
     = py_fmod (Monster.anim_timer monster + delta_time) 1000.0
  /\ if searches player delta_time monster
     then astar_path (monster_tile monster) (goal_tile player) = Ok (Monster.path monster')
     else Monster.path monster' = Monster.path monster.
Proof.
  unfold plan, searches.
  destruct (needs_path _ _ _ _).
  - destruct (astar_path _ _) as [p|e|]; cbn [mbind res_mbind res_bind]; [|discriminate..].
    intros [= <-]. cbn. repeat split; reflexivity.
  - intros [= <-]. cbn. repeat split; reflexivity.
Qed.

Lemma update_monster_inv (player : Player.t) (delta_time : R)
    (monster monster' : Monster.t) :
  update_monster player delta_time monster = Ok monster' ->
  exists planned,
    plan player delta_time monster = Ok planned
    /\ monster' = chase player delta_time planned.
Proof.
  unfold update_monster. destruct (plan player delta_time monster) as [m1|e|];
    cbn [mbind res_mbind res_bind]; [|discriminate..].
  intros [= <-]. exists m1. split; reflexivity.
Qed.

(** The invariants that a tick establishes for one monster. *)
Definition ticked (delta_time : R) (monster monster' : Monster.t) : Prop :=
  Monster.speed monster' = Monster.speed monster
  /\ (0 <= Monster.pulse monster' < tau)%R
  /\ (0 <= Monster.anim_timer monster' < 1000)%R
  /\ (0 < Monster.path_cooldown monster')%R
  /\ (Monster.path_cooldown monster' = 0.4%R
      \/ Monster.path_cooldown monster'
         = (Monster.path_cooldown monster - delta_time)%R).

Lemma update_monster_ticked (player : Player.t) (delta_time : R)
    (monster monster' : Monster.t) :
  update_monster player delta_time monster = Ok monster' ->
  ticked delta_time monster monster'.
Proof.
  intros Hu. pose proof (update_monster_cooldown _ _ _ _ Hu) as Hcool.
  destruct (update_monster_inv _ _ _ _ Hu) as (m1 & Hplan & ->).
  destruct (plan_fields _ _ _ _ Hplan) as (_ & _ & Hs & Hp & Ha & _).
  destruct (chase_speed player delta_time m1) as (Hs' & Hp' & Ha').
  unfold ticked. rewrite Hs', Hp', Ha', Hs, Hp, Ha, Hcool.
  split; [reflexivity|].
  split; [apply py_fmod_range, tau_pos|].
  split;
    [destruct (py_fmod_range (Monster.anim_timer monster + delta_time) 1000.0); lra|].
  destruct (searches player delta_time monster) eqn:Hsearch.
  - split; [lra|left; reflexivity].
  - split; [|right; reflexivity].
    unfold searches, needs_path in Hsearch.
    destruct (Rleb (Monster.path_cooldown monster - delta_time) 0) eqn:Hle;
      [discriminate|].
    apply Rleb_false in Hle. exact Hle.
Qed.

(** X4.  [update_monsters] never raises and never hangs, whatever the
    monsters, the player and the time step are: it returns the monsters in
    their order, each with its speed unchanged, its pulse within
    [[0, tau)], its animation timer within [[0, 1000)] and a path cooldown
    that is positive, being either 0.4 after a search or the old one less
    the time step. *)
Theorem update_monsters_ticked (monsters : list Monster.t) (player : Player.t)
    (delta_time : R) :
  exists monsters',
    update_monsters monsters player delta_time = Ok monsters'
    /\ Forall2 (fun monster monster' =>
                  update_monster player delta_time monster = Ok monster'
                  /\ ticked delta_time monster monster')
               monsters monsters'.
Proof.
  induction monsters as [|monster rest IH].
  - exists []. split; [reflexivity|constructor].
  - destruct IH as (rest' & Hrest & Hall).
    destruct (update_monster_returns player delta_time monster) as [monster' Hm].
    exists (monster' :: rest'). cbn [update_monsters]. rewrite Hm, Hrest.
    split; [reflexivity|]. constructor; [|exact Hall].
    split; [exact Hm|]. apply (update_monster_ticked player). exact Hm.
Qed.

Lemma astar_path_ends (start goal : cell) (p : list cell) :
  astar_path start goal = Ok p ->
  (p = [] /\ start <> goal /\ ~ reachable start goal)
  \/ (head p = Some start /\ last p = Some goal).
Proof.
  intros Hp. destruct (decide (start = goal)) as [<-|Hne].
  - unfold astar_path, astar_path_fuel in Hp.
    destruct (decide (start = start)); [|congruence].
    injection Hp as <-. right. split; reflexivity.
  - destruct (astar_path_planned start goal Hne) as (p' & Hp' & Hplan).
    rewrite Hp in Hp'. injection Hp' as <-.
    destruct Hplan as [[-> Hun]|[Hroute _]]; [left; auto|right].
    split; [|apply (route_last _ _ _ Hroute)].
    destruct (route_head _ _ _ Hroute) as [q ->]. reflexivity.
Qed.

(** X5.  After a tick the cached path of a monster is either empty or ends
    on the tile of the player; and it is empty only if the tick searched and
    no route leads from the tile of the monster to the tile of the player. *)
Theorem update_monster_path (player : Player.t) (delta_time : R)
    (monster monster' : Monster.t) :
  update_monster player delta_time monster = Ok monster' ->
  (Monster.path monster' = []
   /\ searches player delta_time monster = true
   /\ ~ reachable (monster_tile monster) (goal_tile player))
  \/ (Monster.path monster' <> []
      /\ last (Monster.path monster') = Some (goal_tile player)).
Proof.
  intros Hu. destruct (update_monster_inv _ _ _ _ Hu) as (m1 & Hplan & ->).
  destruct (plan_fields _ _ _ _ Hplan) as (_ & _ & _ & _ & _ & Hpath).
  rewrite chase_path.
  assert (Hlast : last (Monster.path m1) = Some (goal_tile player) ->
                  (steer player m1).1 <> []
                  /\ last (steer player m1).1 = Some (goal_tile player)).
  { intros H. split; [|rewrite steer_last; exact H].
    intros Hnil. pose proof (steer_last player m1) as Hs.
    rewrite Hnil, H in Hs. discriminate. }
  destruct (searches player delta_time monster) eqn:Hsearch.
  - destruct (astar_path_ends _ _ _ Hpath) as [(Hnil & _ & Hun)|[_ Hl]].
    + left. split; [apply steer_nil; exact Hnil|]. split; [reflexivity|exact Hun].
    + right. apply Hlast. exact Hl.
  - right. apply Hlast. rewrite Hpath.
    unfold searches, needs_path in Hsearch.
    apply orb_false_iff in Hsearch as [Hsearch _].
    apply orb_false_iff in Hsearch as [_ Hgoal].
    apply negb_false_iff, bool_decide_eq_true in Hgoal. exact Hgoal.
Qed.

Lemma spawn_tick : update_monster spawn_player 0.016 spawn_monster = Ok spawn_searched.
Proof.
  apply (update_monster_searched _ _ _ spawn_route).
  - apply searches_cooldown. simpl. lra.
  - assert (Hg : goal_tile spawn_player = (3, 3))
      by (apply (goal_tile_at 3.5 3.5); lra || lia).
    rewrite spawn_monster_tile, Hg. exact spawn_route_found.
Qed.

Lemma update_monster_path_witness :
  update_monster spawn_player 0.016 spawn_monster = Ok spawn_searched
  /\ last (Monster.path spawn_searched) = Some (goal_tile spawn_player).
Proof.
  split; [exact spawn_tick|].
  destruct (update_monster_path spawn_player 0.016 spawn_monster spawn_searched spawn_tick)
    as [(Hnil & _)|[_ Hlast]]; [|exact Hlast].
  rewrite spawn_searched_path in Hnil. discriminate.
Defined.

(** *** How far a tick moves a monster *)

Lemma hypot_le (a b r : R) : (0 <= r)%R -> (a * a + b * b <= r * r)%R -> (hypot a b <= r)%R.
Proof.
  intros Hr H. unfold hypot. rewrite <- (sqrt_square r) by lra.
  apply sqrt_le_1; nra.
Qed.

Lemma hypot_square (a b : R) : (hypot a b * hypot a b = a * a + b * b)%R.
Proof. unfold hypot. apply sqrt_sqrt. nra. Qed.

Lemma hypot_nonneg (a b : R) : (0 <= hypot a b)%R.
Proof. unfold hypot. apply sqrt_pos. Qed.

Lemma move_entity_cases (x y move_x move_y : R) :
  ((move_entity x y move_x move_y).1 = x
   \/ (move_entity x y move_x move_y).1 = (x + move_x)%R)
  /\ ((move_entity x y move_x move_y).2 = y
      \/ (move_entity x y move_x move_y).2 = (y + move_y)%R).
Proof.
  unfold move_entity. cbv zeta.
  destruct (negb (is_blocking (x + move_x) y)); cbn [fst snd];
    destruct (negb (is_blocking _ (y + move_y))); auto.
Qed.

(** The displacement of a tick is no longer than [speed * delta_time]. *)
Lemma chase_reach (player : Player.t) (delta_time : R) (monster : Monster.t) :
  (hypot (Monster.x (chase player delta_time monster) - Monster.x monster)
         (Monster.y (chase player delta_time monster) - Monster.y monster)
   <= Rabs (Monster.speed monster * delta_time))%R.
Proof.
  unfold chase. destruct (steer player monster) as [path [tx ty]].
  set (a := (tx - Monster.x monster)%R). set (b := (ty - Monster.y monster)%R).
  set (k := (Monster.speed monster * delta_time)%R).
  pose proof (hypot_square a b) as Hsq. pose proof (hypot_nonneg a b) as Hd0.
  assert (Hmove : exists u v,
             (u * u + v * v <= 1)%R
             /\ (if Rltb 0.001 (hypot a b)
                 then ((a / hypot a b)%R, (b / hypot a b)%R)
                 else (a, b)) = (u, v)).
  { destruct (Rltb 0.001 (hypot a b)) eqn:Hd.
    - apply Rltb_true in Hd. eexists _, _. split; [|reflexivity].
      replace (a / hypot a b * (a / hypot a b) + b / hypot a b * (b / hypot a b))%R
        with ((a * a + b * b) / (hypot a b * hypot a b))%R by (field; lra).
      rewrite Hsq. right. field. rewrite <- Hsq. nra.
    - apply Rltb_false in Hd. eexists _, _. split; [|reflexivity].
      rewrite <- Hsq. nra. }
  destruct Hmove as (u & v & Huv & ->).
  destruct (move_entity_cases (Monster.x monster) (Monster.y monster)
              (u * Monster.speed monster * delta_time)
              (v * Monster.speed monster * delta_time)) as [Hx Hy].
  destruct (move_entity _ _ _ _) as [x' y']. cbn [fst snd] in Hx, Hy. cbn.
  apply hypot_le; [apply Rabs_pos|].
  rewrite <- Rabs_mult, Rabs_pos_eq by nra. fold k.
  assert (Hk : (0 <= k * k)%R) by nra.
  assert (Hu : (u * u * (k * k) + v * v * (k * k) <= k * k)%R) by nra.
  assert (Hu2 : (0 <= u * u * (k * k))%R) by nra.
  assert (Hv2 : (0 <= v * v * (k * k))%R) by nra.
  destruct Hx as [-> | ->]; destruct Hy as [-> | ->];
    repeat match goal with
           | |- context [(?p - ?p)%R] => replace (p - p)%R with 0%R by ring
           | |- context [(?p + ?m - ?p)%R] => replace (p + m - p)%R with m by ring
           end;
    unfold k in *; nra.
Qed.

(** X6.  A tick moves a monster by no more than [speed * delta_time] in
    Euclidean distance, and a monster that stands in a place that is not
    blocking stands in such a place after the tick. *)
Theorem update_monster_motion (player : Player.t) (delta_time : R)
    (monster monster' : Monster.t) :
  update_monster player delta_time monster = Ok monster' ->
  (hypot (Monster.x monster' - Monster.x monster)
         (Monster.y monster' - Monster.y monster)
   <= Rabs (Monster.speed monster * delta_time))%R
  /\ (is_blocking (Monster.x monster) (Monster.y monster) = false ->
      is_blocking (Monster.x monster') (Monster.y monster') = false).
Proof.
  intros Hu. destruct (update_monster_inv _ _ _ _ Hu) as (m1 & Hplan & ->).
  destruct (plan_fields _ _ _ _ Hplan) as (Hx & Hy & Hs & _).
  split.
  - rewrite <- Hx, <- Hy, <- Hs. apply chase_reach.
  - rewrite <- Hx, <- Hy. intros Hfree. unfold chase.
    destruct (steer player m1) as [path [tx ty]].
    destruct (Rltb 0.001 _);
    match goal with
    | |- context [move_entity ?x ?y ?mx ?my] =>
        pose proof (move_entity_safe x y mx my Hfree) as Hsafe;
        destruct (move_entity x y mx my) as [x' y']
    end; exact Hsafe.
Qed.

Lemma update_monster_motion_witness :
  update_monster spawn_player 0.016 spawn_monster = Ok spawn_searched
  /\ is_blocking (Monster.x spawn_monster) (Monster.y spawn_monster) = false
  /\ is_blocking (Monster.x spawn_searched) (Monster.y spawn_searched) = false.
Proof.
  assert (H : is_blocking (Monster.x spawn_monster) (Monster.y spawn_monster) = false).
  { simpl. blocking_at 15 9. }
  split; [exact spawn_tick|]. split; [exact H|].
  apply (update_monster_motion spawn_player 0.016 spawn_monster spawn_searched spawn_tick).
  exact H.
Defined.

(** ** Counting the pellets *)

(** The number of pellets whose flag is set. *)
Fixpoint count_collected (pellets : list Pellet.t) : Z :=
  match pellets with
  | [] => 0
  | pellet :: rest =>
      (if Pellet.collected pellet then 1 else 0) + count_collected rest
  end.

Lemma count_collected_bounds (pellets : list Pellet.t) :
  0 <= count_collected pellets <= Z.of_nat (length pellets).
Proof.
  induction pellets as [|p rest IH]; simpl; [lia|].
  destruct (Pellet.collected p); lia.
Qed.

(** X7.  The number that [collect_pellets] returns is the number of flags
    it has set: the count of collected pellets grows by exactly that number,
    the list keeps its length, and a second call for the same player finds
    nothing more to collect and changes nothing. *)
Theorem collect_pellets_count (player : Player.t) (pellets : list Pellet.t) (radius : R) :
  length (collect_pellets player pellets radius).1 = length pellets
  /\ (collect_pellets player pellets radius).2
     = count_collected (collect_pellets player pellets radius).1 - count_collected pellets
  /\ 0 <= (collect_pellets player pellets radius).2
     <= Z.of_nat (length pellets) - count_collected pellets
  /\ collect_pellets player (collect_pellets player pellets radius).1 radius
     = ((collect_pellets player pellets radius).1, 0).
Proof.
  induction pellets as [|p rest IH]; [simpl; repeat split; lia|].
  cbn [collect_pellets].
  destruct (collect_pellets player rest radius) as [rest' n].
  cbn [fst snd] in IH. destruct IH as (Hlen & Hn & Hbound & Hagain).
  pose proof (count_collected_bounds rest) as Hrest.
  destruct (Pellet.collected p) eqn:Hc.
  - cbn [fst snd length count_collected]. rewrite Hc.
    split; [congruence|]. split; [lia|]. split; [lia|].
    cbn [collect_pellets]. rewrite Hagain, Hc. reflexivity.
  - destruct (Rltb (hypot (Player.x player - Pellet.x p) (Player.y player - Pellet.y p))
                   radius) eqn:Hr.
    + cbn [fst snd length count_collected collect Pellet.collected]. rewrite Hc.
      split; [congruence|]. split; [lia|]. split; [lia|].
      cbn [collect_pellets collect Pellet.collected]. rewrite Hagain. reflexivity.
    + cbn [fst snd length count_collected]. rewrite Hc.
      split; [congruence|]. split; [lia|]. split; [lia|].
      cbn [collect_pellets]. rewrite Hagain, Hc, Hr. reflexivity.
Qed.

(** ** Turning, again *)

(** X8.  Turns compose: turning by [a] and then by [b] is turning by
    [a + b], turning by 0 changes nothing, turning back by [- a] undoes a
    turn by [a]; and no turn changes the determinant of the camera that the
    sprite compositor divides by. *)
Theorem rotate_player_compose (player : Player.t) (a b : R) :
  rotate_player (rotate_player player a) b = rotate_player player (a + b)
  /\ rotate_player player 0 = player
  /\ rotate_player (rotate_player player a) (- a) = player
  /\ camera_det (rotate_player player a) = camera_det player.
Proof.
  assert (Hadd : forall p u v,
             rotate_player (rotate_player p u) v = rotate_player p (u + v)).
  { intros p u v. unfold rotate_player. cbn.
    rewrite cos_plus, sin_plus. f_equal; ring. }
  assert (Hzero : forall p, rotate_player p 0 = p).
  { intros [x y dx dy px py]. unfold rotate_player. cbn.
    rewrite cos_0, sin_0. f_equal; ring. }
  split; [apply Hadd|]. split; [apply Hzero|]. split.
  - rewrite Hadd, Rplus_opp_r. apply Hzero.
  - unfold camera_det, rotate_player. cbn. pose proof (cos_sin_unit a) as H.
    replace ((Player.plane_x player * cos a - Player.plane_y player * sin a)
             * (Player.dir_x player * sin a + Player.dir_y player * cos a)
             - (Player.dir_x player * cos a - Player.dir_y player * sin a)
               * (Player.plane_x player * sin a + Player.plane_y player * cos a))%R
      with ((Player.plane_x player * Player.dir_y player
             - Player.dir_x player * Player.plane_y player)
            * (cos a * cos a + sin a * sin a))%R by ring.
    rewrite H. ring.
Qed.

(** ** Danger *)

Fixpoint player_is_dead (player : Player.t) (monsters : list Monster.t) : bool :=
  match monsters with
  | [] => false
  | monster :: rest =>
      if Rltb (hypot (Player.x player - Monster.x monster)
                     (Player.y player - Monster.y monster)) 0.4
      then true
      else player_is_dead player rest
  end.

(** [min] over an iterable of which [best] is the first value: a later value
    replaces the least so far when it is less. *)
Fixpoint py_min (best : R) (rest : list R) : R :=
  match rest with
  | [] => best
  | d :: rest' => py_min (if Rltb d best then d else best) rest'
  end.

Definition nearest_monster_distance (player : Player.t) (monsters : list Monster.t)
  : float :=
  match monsters with
  | [] => PInf
  | monster :: rest =>
      Fin (py_min (hypot (Player.x player - Monster.x monster)
                         (Player.y player - Monster.y monster))
                  (map (fun monster =>
                          hypot (Player.x player - Monster.x monster)
                                (Player.y player - Monster.y monster)) rest))
  end.

(** [a <= b]; a comparison with NaN is false. *)
Definition float_le (a b : float) : bool :=
  match a, b with
  | Fin x, Fin y => Rleb x y
  | NaN, _ | _, NaN => false
  | NInf, _ => true
  | _, PInf => true
  | _, _ => false
  end.

(** The colour, with its alpha, of the overlay that [draw_danger_overlay]
    fills and blits; [None] when it returns without drawing. *)
Definition draw_danger_overlay (distance : float) : res (option (Z * Z * Z * Z)) :=
  let max_distance := Fin 6.0 in
  if float_le max_distance distance then Ok None
  else
    intensity ← float_div (float_sub max_distance distance) max_distance;
    alpha ← float_int (float_mul (Fin 160) intensity);
    Ok (Some (120, 0, 0, alpha)).

Lemma py_min_spec (best : R) (rest : list R) :
  (py_min best rest <= best)%R
  /\ (forall d, d ∈ rest -> (py_min best rest <= d)%R)
  /\ (py_min best rest = best \/ py_min best rest ∈ rest).
Proof.
  revert best. induction rest as [|d rest IH]; intros best; cbn [py_min].
  - split; [lra|]. split; [intros d Hd; inversion Hd|left; reflexivity].
  - destruct (IH (if Rltb d best then d else best)) as (H1 & H2 & H3).
    destruct (Rltb d best) eqn:Hlt;
      [apply Rltb_true in Hlt|apply Rltb_false in Hlt].
    + split; [lra|]. split.
      * intros e He. apply elem_of_cons in He as [->|He]; [exact H1|apply H2; exact He].
      * right. destruct H3 as [-> | H3]; [left|right; exact H3].
    + split; [lra|]. split.
      * intros e He. apply elem_of_cons in He as [->|He]; [lra|apply H2; exact He].
      * destruct H3 as [H3|H3]; [left; exact H3|right; right; exact H3].
Qed.

Lemma player_is_dead_spec (player : Player.t) (monsters : list Monster.t) :
  player_is_dead player monsters = true <->
  exists monster,
    monster ∈ monsters
    /\ (hypot (Player.x player - Monster.x monster)
              (Player.y player - Monster.y monster) < 0.4)%R.
Proof.
  induction monsters as [|m rest IH]; cbn [player_is_dead].
  - split; [discriminate|]. intros (m & Hm & _). inversion Hm.
  - destruct (Rltb _ 0.4) eqn:Hlt.
    + apply Rltb_true in Hlt. split; [|reflexivity].
      intros _. exists m. split; [left|exact Hlt].
    + apply Rltb_false in Hlt. rewrite IH. split.
      * intros (m' & Hm' & Hd). exists m'. split; [right; exact Hm'|exact Hd].
      * intros (m' & Hm' & Hd). apply elem_of_cons in Hm' as [->|Hm']; [lra|].
        exists m'. split; assumption.
Qed.

(** X9.  [player_is_dead] and [nearest_monster_distance] agree: the player
    is dead exactly if the nearest monster is nearer than 0.4, which is
    exactly if some monster is.  Without monsters the distance is
    [float("inf")]; with monsters it is the distance of one of them, not
    negative, and no monster is nearer. *)
Theorem player_is_dead_nearest (player : Player.t) (monsters : list Monster.t) :
  player_is_dead player monsters
  = float_lt (nearest_monster_distance player monsters) (Fin 0.4)
  /\ match nearest_monster_distance player monsters with
     | Fin d =>
         (0 <= d)%R
         /\ (exists monster,
               monster ∈ monsters
               /\ d = hypot (Player.x player - Monster.x monster)
                            (Player.y player - Monster.y monster))
         /\ (forall monster,
               monster ∈ monsters ->
               (d <= hypot (Player.x player - Monster.x monster)
                           (Player.y player - Monster.y monster))%R)
     | PInf => monsters = []
     | _ => False
     end.
Proof.
  destruct monsters as [|m rest]; [split; reflexivity|].
  cbn [nearest_monster_distance float_lt].
  set (dist := fun monster : Monster.t =>
                 hypot (Player.x player - Monster.x monster)
                       (Player.y player - Monster.y monster)).
  change (hypot (Player.x player - Monster.x m) (Player.y player - Monster.y m))
    with (dist m).
  destruct (py_min_spec (dist m) (map dist rest)) as (H1 & H2 & H3).
  assert (Hattained : exists monster,
             monster ∈ m :: rest /\ py_min (dist m) (map dist rest) = dist monster).
  { destruct H3 as [H3|H3].
    - exists m. split; [left|exact H3].
    - apply list_elem_of_fmap in H3 as (m' & Hm' & Hin).
      exists m'. split; [right; exact Hin|exact Hm']. }
  assert (Hleast : forall monster,
             monster ∈ m :: rest -> (py_min (dist m) (map dist rest) <= dist monster)%R).
  { intros m' Hm'. apply elem_of_cons in Hm' as [->|Hm']; [exact H1|].
    apply H2. apply list_elem_of_fmap. exists m'. split; [reflexivity|exact Hm']. }
  split.
  - destruct (Rltb (py_min (dist m) (map dist rest)) 0.4) eqn:Hlt.
    + apply Rltb_true in Hlt. apply player_is_dead_spec.
      destruct Hattained as (m' & Hin & Heq). exists m'. split; [exact Hin|].
      fold (dist m'). lra.
    + apply Rltb_false in Hlt. apply not_true_is_false. intros Hdead.
      apply player_is_dead_spec in Hdead as (m' & Hin & Hd).
      pose proof (Hleast m' Hin) as Hle. change (dist m' < 0.4)%R in Hd. lra.
  - split; [|split; [exact Hattained|exact Hleast]].
    destruct Hattained as (m' & _ & ->). apply hypot_nonneg.
Qed.

(** The distance is [float("inf")] or a number that is not negative. *)
Lemma nearest_monster_distance_sign (player : Player.t) (monsters : list Monster.t) :
  match nearest_monster_distance player monsters with
  | Fin d => (0 <= d)%R
  | PInf => True
  | _ => False
  end.
Proof.
  destruct monsters as [|m rest]; [exact I|].
  cbn [nearest_monster_distance].
  match goal with
  | |- (0 <= py_min ?best ?others)%R =>
      destruct (py_min_spec best others) as (_ & _ & [->|Hin])
  end.
  - apply hypot_nonneg.
  - apply list_elem_of_fmap in Hin as (m' & -> & _). apply hypot_nonneg.
Qed.

Lemma py_int_range (x : R) (n : Z) :
  (0 <= x <= IZR n)%R -> 0 <= py_int x <= n.
Proof.
  intros [H0 Hn]. pose proof (py_int_floor x H0) as [Hlo Hhi].
  split.
  - assert (IZR (-1) < IZR (py_int x))%R as H by lra.
    apply lt_IZR in H. lia.
  - apply le_IZR. lra.
Qed.

(** X10.  For the distance that [nearest_monster_distance] returns,
    [draw_danger_overlay] raises nothing: it draws nothing when no monster is
    nearer than 6, and otherwise fills with the colour (120, 0, 0) and an
    alpha between 0 and 160, so always with a valid colour. *)
Theorem danger_overlay_alpha (player : Player.t) (monsters : list Monster.t) :
  exists drawn,
    draw_danger_overlay (nearest_monster_distance player monsters) = Ok drawn
    /\ (drawn = None <->
        float_lt (nearest_monster_distance player monsters) (Fin 6) = false)
    /\ forall colour, drawn = Some colour ->
         exists alpha, colour = (120, 0, 0, alpha) /\ 0 <= alpha <= 160.
Proof.
  pose proof (nearest_monster_distance_sign player monsters) as Hnear.
  destruct (nearest_monster_distance player monsters) as [d| | |];
    try contradiction.
  - rename Hnear into Hd. unfold draw_danger_overlay. cbn [float_le float_lt].
    destruct (Rleb 6.0 d) eqn:Hle.
    + apply Rleb_true in Hle. exists None. split; [reflexivity|].
      split; [|discriminate].
      split; [intros _; apply Rltb_false; lra|reflexivity].
    + apply Rleb_false in Hle. cbn [float_sub float_neg float_add float_div].
      replace (Reqb 6.0 0) with false by (symmetry; apply Reqb_false; lra).
      cbn [mbind res_mbind res_bind float_mul float_int].
      eexists. split; [reflexivity|]. split.
      * split; [discriminate|]. intros H. apply Rltb_false in H. lra.
      * intros colour [= <-]. eexists. split; [reflexivity|].
        apply py_int_range. split.
        -- apply Rmult_le_pos; [lra|]. apply Rmult_le_pos; [lra|].
           left. apply Rinv_0_lt_compat. lra.
        -- assert ((6.0 + - d) / 6.0 <= 1)%R.
           { apply (Rmult_le_reg_r 6.0); [lra|].
             unfold Rdiv. rewrite Rmult_assoc, Rinv_l by lra. lra. }
           nra.
  - exists None. split; [reflexivity|]. split; [|discriminate].
    split; reflexivity.
Qed.

(** ** The mover and the planner see the same walls *)

Lemma py_int_pos (x : R) : (0 <= x)%R -> 0 <= py_int x.
Proof.
  intros H0. pose proof (py_int_floor x H0) as [Hlo Hhi].
  assert (IZR (-1) < IZR (py_int x))%R as H by lra.
  apply lt_IZR in H. lia.
Qed.

(** X11.  [is_blocking], which the movement asks about a point, and
    [grid_blocked], which the planner asks about a tile, agree: a point with
    a negative coordinate is blocking, and any other point is blocking
    exactly if the tile [(int(x), int(y))] is. *)
Theorem is_blocking_grid_blocked (x y : R) :
  ((x < 0)%R \/ (y < 0)%R -> is_blocking x y = true)
  /\ ((0 <= x)%R -> (0 <= y)%R ->
      is_blocking x y = grid_blocked (py_int x) (py_int y)).
Proof.
  split.
  - intros [H|H]; unfold is_blocking.
    + replace (Rltb x 0) with true by (symmetry; apply Rltb_true; exact H). reflexivity.
    + replace (Rltb y 0) with true by (symmetry; apply Rltb_true; exact H).
      rewrite orb_true_r. reflexivity.
  - intros Hx Hy. apply is_blocking_tile.
    + apply py_int_floor. exact Hx.
    + apply py_int_floor. exact Hy.
    + apply py_int_pos. exact Hx.
    + apply py_int_pos. exact Hy.
Qed.

Lemma is_blocking_grid_blocked_witness :
  (0 <= 3.5)%R /\ is_blocking 3.5 3.5 = grid_blocked (py_int 3.5) (py_int 3.5).
Proof.
  assert (H : (0 <= 3.5)%R) by lra.
  split; [exact H|]. apply (is_blocking_grid_blocked 3.5 3.5); exact H.
Defined.

(** ** What the sprite compositor blits *)

(** A blit of one stripe: the source rectangle is one pixel wide, as tall as
    the source surface and lies within it, and the destination is a row of
    the screen. *)
Definition stripe_blit (b : blit) : Prop :=
  exists tex_x,
    blit_area b = (tex_x, 0, 1, surface_height (blit_source b))
    /\ 0 <= tex_x < surface_width (blit_source b)
    /\ 1 <= surface_height (blit_source b)
    /\ 0 <= (blit_dest b).2 < SCREEN_HEIGHT - 1.

Lemma draw_stripes_blit (depth_buffer : list float) (sprite : surface)
    (transform_y : R) (sprite_left sprite_width draw_start_y sprite_height : Z)
    (stripes : list Z) (b : blit) :
  b ∈ (draw_stripes depth_buffer sprite transform_y
         sprite_left sprite_width draw_start_y sprite_height stripes).1 ->
  blit_source b = sprite
  /\ (blit_dest b).2 = draw_start_y
  /\ exists tex_x,
       blit_area b = (tex_x, 0, 1, sprite_height) /\ 0 <= tex_x < sprite_width.
Proof.
  induction stripes as [|stripe rest IH]; cbn [draw_stripes]; cbv zeta.
  - intros H. inversion H.
  - destruct ((0 <=? stripe) && (stripe <? SCREEN_WIDTH)
              && ((0 <=? stripe - sprite_left) && (stripe - sprite_left <? sprite_width)))
      eqn:Hcond; [|exact IH].
    unfold py_getitem.
    destruct (depth_buffer !! Z.to_nat stripe) as [wall|]; [|intros H; inversion H].
    destruct (float_lt (Fin transform_y) wall); [|exact IH].
    cbn [fst]. intros H. apply elem_of_cons in H as [->|H]; [|exact (IH H)].
    cbn [blit_source blit_dest blit_area snd].
    split; [reflexivity|]. split; [reflexivity|].
    exists (stripe - sprite_left). split; [reflexivity|].
    apply andb_true_iff in Hcond as [_ Htex].
    apply andb_true_iff in Htex as [H0 H1].
    apply Z.leb_le in H0. apply Z.ltb_lt in H1. lia.
Qed.

(** The extent that both drawing functions compute from the sprite size. *)
Lemma stripes_stripe_blit (depth_buffer : list float) (source : surface)
    (transform_y : R) (sprite_screen_x sprite_width sprite_height : Z)
    (stripes : list Z) (b : blit) :
  1 <= sprite_width -> 1 <= sprite_height ->
  ((Z.max ((- sprite_width) / 2 + sprite_screen_x) 0
    >=? Z.min (sprite_width / 2 + sprite_screen_x) (SCREEN_WIDTH - 1))
   || (Z.max ((- sprite_height) / 2 + SCREEN_HEIGHT / 2) 0
       >=? Z.min (sprite_height / 2 + SCREEN_HEIGHT / 2) (SCREEN_HEIGHT - 1))) = false ->
  b ∈ (draw_stripes depth_buffer (smoothscale source (sprite_width, sprite_height))
         transform_y ((- sprite_width) / 2 + sprite_screen_x) sprite_width
         (Z.max ((- sprite_height) / 2 + SCREEN_HEIGHT / 2) 0) sprite_height stripes).1 ->
  stripe_blit b.
Proof.
  intros Hw Hh Hextent Hb.
  apply draw_stripes_blit in Hb as (Hsrc & Hdest & tex_x & Harea & Htex).
  apply orb_false_iff in Hextent as [_ Hy].
  rewrite Z.geb_leb in Hy. apply Z.leb_gt in Hy.
  exists tex_x. rewrite Hsrc, Hdest. cbn [smoothscale surface_width surface_height fst snd].
  split; [exact Harea|]. split; [exact Htex|]. split; [exact Hh|].
  split; [apply Z.le_max_r|].
  pose proof (Z.le_min_r (sprite_height / 2 + SCREEN_HEIGHT / 2) (SCREEN_HEIGHT - 1)).
  lia.
Qed.

Lemma draw_monster_stripe_blit (player : Player.t) (inv_det : R)
    (depth_buffer : list float) (frames : list surface) (monster : Monster.t) (b : blit) :
  b ∈ (draw_monster player inv_det depth_buffer frames monster).1 -> stripe_blit b.
Proof.
  unfold draw_monster.
  destruct (transform player inv_det (Monster.x monster) (Monster.y monster))
    as [transform_x transform_y].
  destruct (Rleb transform_y 0); [intros H; inversion H|].
  match goal with
  | |- context [match ?m with Ok _ => _ | Raise _ => _ | Timeout => _ end] =>
      destruct m as [[[frame sprite_screen_x] sprite_height]|e|] eqn:Hm
  end; try (intros H; inversion H; fail).
  cbv zeta.
  assert (Hh : 1 <= sprite_height).
  { destruct (py_mod _ _) as [i|?|]; cbn [mbind res_mbind res_bind] in Hm; [|discriminate..].
    destruct (py_getitem frames i) as [f|?|];
      cbn [mbind res_mbind res_bind] in Hm; [|discriminate..].
    destruct (py_div transform_x transform_y) as [r|?|];
      cbn [mbind res_mbind res_bind] in Hm; [|discriminate..].
    destruct (py_div (IZR SCREEN_HEIGHT) transform_y) as [sc|?|];
      cbn [mbind res_mbind res_bind] in Hm; [|discriminate..].
    injection Hm as _ _ <-. apply Z.le_max_l. }
  destruct (_ || _) eqn:Hextent; [intros H; inversion H|].
  apply stripes_stripe_blit; [apply Z.le_max_l|exact Hh|exact Hextent].
Qed.

Lemma draw_pellet_stripe_blit (player : Player.t) (inv_det : R)
    (depth_buffer : list float) (sprite : surface) (pellet : Pellet.t) (b : blit) :
  b ∈ (draw_pellet player inv_det depth_buffer sprite pellet).1 -> stripe_blit b.
Proof.
  unfold draw_pellet.
  destruct (Pellet.collected pellet); [intros H; inversion H|].
  destruct (transform player inv_det (Pellet.x pellet) (Pellet.y pellet))
    as [transform_x transform_y].
  destruct (Rleb transform_y 0); [intros H; inversion H|].
  match goal with
  | |- context [match ?m with Ok _ => _ | Raise _ => _ | Timeout => _ end] =>
      destruct m as [[[sprite_screen_x sprite_height] sprite_width]|e|] eqn:Hm
  end; try (intros H; inversion H; fail).
  cbv zeta.
  assert (Hhw : 1 <= sprite_height /\ 1 <= sprite_width).
  { destruct (py_div transform_x transform_y) as [r|?|];
      cbn [mbind res_mbind res_bind] in Hm; [|discriminate..].
    destruct (py_div (IZR SCREEN_HEIGHT) transform_y) as [sc|?|];
      cbn [mbind res_mbind res_bind] in Hm; [|discriminate..].
    cbv zeta in Hm.
    destruct (py_div _ _) as [aspect|?|];
      cbn [mbind res_mbind res_bind] in Hm; [|discriminate..].
    injection Hm as _ <- <-. split; apply Z.le_max_l. }
  destruct Hhw as [Hh Hw].
  destruct (_ || _) eqn:Hextent; [intros H; inversion H|].
  apply stripes_stripe_blit; assumption.
Qed.

(** X12.  Every blit of [draw_monsters] and of [draw_collectibles] copies
    a stripe that lies within the scaled sprite: the source rectangle is one
    pixel wide, starts at a column [tex_x] with [0 <= tex_x < width] of the
    sprite and has the height of the sprite, which is at least 1; and it
    goes to a row of the screen above the last one. *)
Theorem sprite_blits_within (player : Player.t) (depth_buffer : list float) (b : blit) :
  (forall (monsters : list Monster.t) (frames : list surface),
      b ∈ (draw_monsters player monsters depth_buffer frames).1 -> stripe_blit b)
  /\ (forall (pellets : list Pellet.t) (sprite : surface),
        b ∈ (draw_collectibles player pellets depth_buffer sprite).1 -> stripe_blit b).
Proof.
  split.
  - intros monsters frames. unfold draw_monsters. cbv zeta.
    destruct (Reqb (camera_det player) 0); [intros H; inversion H|].
    destruct (py_div 1.0 (camera_det player)) as [inv_det|e|];
      try (intros H; inversion H; fail).
    destruct (bool_decide (frames = [])); [intros H; inversion H|].
    intros H. apply for_each_blit in H as (monster & _ & Hb).
    apply (draw_monster_stripe_blit _ _ _ _ _ _ Hb).
  - intros pellets sprite. unfold draw_collectibles. cbv zeta.
    destruct (Reqb (camera_det player) 0 || bool_decide (pellets = []));
      [intros H; inversion H|].
    destruct (py_div 1.0 (camera_det player)) as [inv_det|e|];
      try (intros H; inversion H; fail).
    intros H. apply for_each_blit in H as (pellet & _ & Hb).
    apply (draw_pellet_stripe_blit _ _ _ _ _ _ Hb).
Qed.

Lemma sprite_blits_within_witness :
  Blit (Surface 600 600) (180, 0) (0, 0, 1, 600)
  ∈ (draw_monsters spawn_player [near_monster] far_walls load_monster_frames).1
  /\ stripe_blit (Blit (Surface 600 600) (180, 0) (0, 0, 1, 600)).
Proof.
  split; [exact near_monster_drawn|].
  apply (proj1 (sprite_blits_within spawn_player far_walls _)
           [near_monster] load_monster_frames near_monster_drawn).
Defined.

(** ** A frame: the raycaster, then the sprites *)

Lemma draw_stripes_ok (depth_buffer : list float) (sprite : surface)
    (transform_y : R) (sprite_left sprite_width draw_start_y sprite_height : Z)
    (stripes : list Z) :
  length depth_buffer = Z.to_nat SCREEN_WIDTH ->
  (draw_stripes depth_buffer sprite transform_y
     sprite_left sprite_width draw_start_y sprite_height stripes).2 = Ok ().
Proof.
  intros Hlen. induction stripes as [|stripe rest IH]; [reflexivity|].
  cbn [draw_stripes]. cbv zeta.
  destruct ((0 <=? stripe) && (stripe <? SCREEN_WIDTH)
            && ((0 <=? stripe - sprite_left) && (stripe - sprite_left <? sprite_width)))
    eqn:Hcond; [|exact IH].
  apply andb_true_iff in Hcond as [Hcol _].
  apply andb_true_iff in Hcol as [H0 H1].
  apply Z.leb_le in H0. apply Z.ltb_lt in H1.
  unfold py_getitem.
  destruct (lookup_lt_is_Some_2 depth_buffer (Z.to_nat stripe)) as [wall ->];
    [rewrite Hlen; lia|].
  destruct (float_lt (Fin transform_y) wall); exact IH.
Qed.

Lemma for_each_ok {A : Type} (body : A -> drawing) (items : list A) :
  (forall item, (body item).2 = Ok ()) -> (for_each body items).2 = Ok ().
Proof.
  intros Hbody. induction items as [|item rest IH]; [reflexivity|].
  cbn [for_each]. unfold then_draw. rewrite (Hbody item). exact IH.
Qed.

Lemma draw_monsters_ok (player : Player.t) (monsters : list Monster.t)
    (depth_buffer : list float) (frames : list surface) :
  length depth_buffer = Z.to_nat SCREEN_WIDTH ->
  (draw_monsters player monsters depth_buffer frames).2 = Ok ().
Proof.
  intros Hlen. unfold draw_monsters. cbv zeta.
  destruct (Reqb (camera_det player) 0) eqn:Hdet; [reflexivity|].
  apply Reqb_false in Hdet. rewrite (py_div_nonzero _ _ Hdet).
  destruct (bool_decide (frames = [])) eqn:Hframes; [reflexivity|].
  apply bool_decide_eq_false in Hframes.
  apply for_each_ok. intros monster. unfold draw_monster.
  destruct (transform player (1.0 / camera_det player)
              (Monster.x monster) (Monster.y monster)) as [transform_x transform_y].
  destruct (Rleb transform_y 0) eqn:Hdepth; [reflexivity|].
  apply Rleb_false in Hdepth.
  destruct (frame_returns frames
              (py_int (Monster.anim_timer monster * IZR MONSTER_ANIM_FPS)) Hframes)
    as [frame Hframe].
  destruct (py_mod _ _) as [frame_idx|e|];
    cbn [mbind res_mbind res_bind] in Hframe |- *; [|discriminate..].
  rewrite Hframe. rewrite !py_div_nonzero by lra.
  cbn [mbind res_mbind res_bind]. cbv zeta.
  destruct (_ || _); [reflexivity|].
  apply draw_stripes_ok. exact Hlen.
Qed.

Lemma draw_collectibles_ok (player : Player.t) (pellets : list Pellet.t)
    (depth_buffer : list float) (sprite : surface) :
  surface_height sprite <> 0 ->
  length depth_buffer = Z.to_nat SCREEN_WIDTH ->
  (draw_collectibles player pellets depth_buffer sprite).2 = Ok ().
Proof.
  intros Hsprite Hlen. unfold draw_collectibles. cbv zeta.
  destruct (Reqb (camera_det player) 0) eqn:Hdet; [reflexivity|].
  apply Reqb_false in Hdet. rewrite (py_div_nonzero _ _ Hdet).
  destruct (bool_decide (pellets = [])); [reflexivity|]. cbn [orb].
  apply for_each_ok. intros pellet. unfold draw_pellet.
  destruct (Pellet.collected pellet); [reflexivity|].
  destruct (transform player (1.0 / camera_det player)
              (Pellet.x pellet) (Pellet.y pellet)) as [transform_x transform_y].
  destruct (Rleb transform_y 0) eqn:Hdepth; [reflexivity|].
  apply Rleb_false in Hdepth.
  assert (IZR (surface_height sprite) <> 0%R) by (apply not_0_IZR; exact Hsprite).
  cbn [mbind res_mbind res_bind].
  rewrite !py_div_nonzero by (assumption || lra).
  cbn [mbind res_mbind res_bind]. cbv zeta.
  rewrite ?py_div_nonzero by assumption. cbn [mbind res_mbind res_bind].
  destruct (_ || _); [reflexivity|].
  apply draw_stripes_ok. exact Hlen.
Qed.




(** *** The ray and the cells it crosses

    A ray is the half line [(x + t * ray_dir_x, y + t * ray_dir_y)], [0 <= t].
    Along one axis the traversal keeps, in [side_dist], the parameter at
    which the ray leaves the slab of the current cell. *)

Definition step_of (rd : R) : Z := if Rltb rd 0 then -1 else 1.

Definition delta_of (rd : R) : float :=
  if Reqb rd 0 then PInf else Fin (Rabs (1 / rd)).

(** The side distance the traversal starts with. *)
Definition side_start (p rd : R) : float :=
  if Rltb rd 0 then float_mul (Fin (p - IZR (py_int p))) (delta_of rd)
  else float_mul (Fin (IZR (py_int p) + 1.0 - p)) (delta_of rd).

(** The coordinate at which a ray of component [rd] leaves the slab
    [[m, m + 1]]. *)
Definition face (rd : R) (m : Z) : R := (IZR m + (if Rltb rd 0 then 0 else 1))%R.

(** [t] is not after the exit from the slab. *)
Definition hi (sd : float) (t : R) : Prop :=
  match sd with
  | Fin s => (t <= s)%R
  | PInf => True
  | _ => False
  end.

(** [t] is not before the entry into the slab. *)
Definition lo (rd : R) (sd : float) (t : R) : Prop :=
  rd = 0%R \/ exists s, sd = Fin s /\ (s - Rabs (1 / rd) <= t)%R.

(** The state of one axis: coordinate [p] of the origin, component [rd] of
    the direction, side distance [sd], cell index [m]. *)
Definition axis (p rd : R) (sd : float) (m : Z) : Prop :=
  (rd = 0%R /\ sd = PInf /\ (IZR m <= p <= IZR m + 1)%R)
  \/ (rd <> 0%R
      /\ exists s, sd = Fin s /\ (0 <= s)%R /\ (p + s * rd = face rd m)%R).

(** A point strictly inside a cell. *)
Definition inside (cx cy : Z) (px py : R) : Prop :=
  (IZR cx < px < IZR cx + 1)%R /\ (IZR cy < py < IZR cy + 1)%R.

Lemma unit_delta (rd : R) :
  rd <> 0%R -> (Rabs (1 / rd) * rd = if Rltb rd 0 then -1 else 1)%R.
Proof.
  intros H. assert (Hk : (1 / rd * rd = 1)%R) by (field; exact H).
  destruct (Rltb rd 0) eqn:Hs.
  - apply Rltb_true in Hs. rewrite Rabs_left; [lra|].
    apply Rmult_lt_reg_r with (r := (- rd)%R); lra.
  - apply Rltb_false in Hs. rewrite Rabs_pos_eq; [lra|].
    apply Rmult_le_reg_r with (r := rd); lra.
Qed.

Lemma axis_slab (p rd : R) (sd : float) (m : Z) (t : R) :
  axis p rd sd m -> lo rd sd t -> hi sd t -> (IZR m <= p + t * rd <= IZR m + 1)%R.
Proof.
  intros [(-> & _ & Hp)|(Hrd & s & -> & Hs & Hface)] Hlo Hhi.
  - rewrite Rmult_0_r, Rplus_0_r. exact Hp.
  - destruct Hlo as [Hz|(s' & [= <-] & Hlo)]; [contradiction|].
    simpl in Hhi. pose proof (unit_delta rd Hrd) as Hu.
    pose proof (Rabs_pos (1 / rd)) as Hd. unfold face in Hface.
    destruct (Rltb rd 0) eqn:Hsign.
    + apply Rltb_true in Hsign.
      assert ((s - t) * rd <= 0)%R by nra.
      assert (-1 <= (s - t) * rd)%R by nra.
      lra.
    + apply Rltb_false in Hsign.
      assert (0 <= (s - t) * rd)%R by nra.
      assert ((s - t) * rd <= 1)%R by nra.
      lra.
Qed.

Lemma lo_later (rd : R) (sd : float) (t t' : R) :
  lo rd sd t -> (t <= t')%R -> lo rd sd t'.
Proof.
  intros [H|(s & Hs & H)] Ht; [left; exact H|].
  right. exists s. split; [exact Hs|lra].
Qed.

Lemma slab_unique (a b : Z) (x : R) :
  (IZR a < x < IZR a + 1)%R -> (IZR b <= x <= IZR b + 1)%R -> a = b.
Proof.
  intros Ha Hb.
  assert (H1 : (IZR a < IZR (b + 1))%R) by (rewrite plus_IZR; lra).
  assert (H2 : (IZR b < IZR (a + 1))%R) by (rewrite plus_IZR; lra).
  apply lt_IZR in H1, H2. lia.
Qed.

(** The invariant of the traversal while nothing is hit, for a first axis
    [p rd sd m] and a second [q rq sq n]: both axes are in step with the
    ray, some parameter [e >= 0] lies in the current cell, and up to the exit
    from the current cell the ray has met the inside of open cells only.
    [blocked] takes the index on the first axis first. *)
Definition live (blocked : Z -> Z -> bool)
    (p rd : R) (sd : float) (m : Z) (q rq : R) (sq : float) (n : Z) : Prop :=
  axis p rd sd m /\ axis q rq sq n
  /\ (exists e, (0 <= e)%R /\ lo rd sd e /\ hi sd e /\ lo rq sq e /\ hi sq e)
  /\ (forall t cx cy,
        (0 <= t)%R -> hi sd t -> hi sq t ->
        inside cx cy (p + t * rd) (q + t * rq) -> blocked cx cy = false).

Lemma live_sym (blocked : Z -> Z -> bool)
    (p rd : R) (sd : float) (m : Z) (q rq : R) (sq : float) (n : Z) :
  live blocked p rd sd m q rq sq n ->
  live (fun a b => blocked b a) q rq sq n p rd sd m.
Proof.
  intros (Hp & Hq & (e & He & H1 & H2 & H3 & H4) & Hcover).
  split; [exact Hq|]. split; [exact Hp|]. split.
  - exists e. tauto.
  - intros t cx cy Ht Hsq Hsd [Hin1 Hin2]. apply (Hcover t cy cx Ht Hsd Hsq).
    split; assumption.
Qed.

(** A step along the first axis into an open cell keeps the invariant. *)
Lemma live_advance (blocked : Z -> Z -> bool)
    (p rd s : R) (m : Z) (q rq : R) (sq : float) (n : Z) :
  live blocked p rd (Fin s) m q rq sq n ->
  hi sq s ->
  blocked (m + step_of rd) n = false ->
  live blocked p rd (Fin (s + Rabs (1 / rd))) (m + step_of rd) q rq sq n.
Proof.
  intros (Hp & Hq & (e & He & Hlo1 & Hhi1 & Hlo2 & Hhi2) & Hcover) Hs Hopen.
  destruct Hp as [(_ & [=] & _)|(Hrd & s0 & [= <-] & Hs0 & Hface)].
  pose proof (Rabs_pos (1 / rd)) as Hd. pose proof (unit_delta rd Hrd) as Hu.
  simpl in Hhi1.
  assert (Hp' : axis p rd (Fin (s + Rabs (1 / rd))) (m + step_of rd)).
  { right. split; [exact Hrd|]. eexists. split; [reflexivity|]. split; [lra|].
    unfold face, step_of in *. rewrite plus_IZR.
    destruct (Rltb rd 0); simpl IZR; lra. }
  split; [exact Hp'|]. split; [exact Hq|]. split.
  - exists s. split; [lra|]. split; [|split; [simpl; lra|]].
    + right. eexists. split; [reflexivity|lra].
    + split; [|exact Hs]. apply (lo_later _ _ e); [exact Hlo2|exact Hhi1].
  - intros t cx cy Ht Hsd Hsq Hin.
    destruct (Rle_dec t s) as [Hle|Hgt].
    { apply (Hcover t cx cy Ht); [exact Hle|exact Hsq|exact Hin]. }
    assert (Hx : (IZR (m + step_of rd) <= p + t * rd <= IZR (m + step_of rd) + 1)%R).
    { apply (axis_slab _ _ _ _ _ Hp'); [|exact Hsd].
      right. eexists. split; [reflexivity|lra]. }
    assert (Hy : (IZR n <= q + t * rq <= IZR n + 1)%R).
    { apply (axis_slab _ _ _ _ _ Hq); [|exact Hsq].
      apply (lo_later _ _ e); [exact Hlo2|lra]. }
    destruct Hin as [Hin1 Hin2].
    rewrite (slab_unique _ _ _ Hin1 Hx), (slab_unique _ _ _ Hin2 Hy). exact Hopen.
Qed.

(** A step along the first axis reaches the next cell at the parameter [s]
    that was the side distance: there the ray is on the face between the two
    cells, within the slab of the second axis, and before it the ray has met
    the inside of open cells only. *)
Lemma live_final (blocked : Z -> Z -> bool)
    (p rd s : R) (m : Z) (q rq : R) (sq : float) (n : Z) :
  live blocked p rd (Fin s) m q rq sq n ->
  hi sq s ->
  rd <> 0%R /\ (0 <= s)%R
  /\ (p + s * rd = IZR (m + step_of rd) + (if Rltb rd 0 then 1 else 0))%R
  /\ (IZR n <= q + s * rq <= IZR n + 1)%R
  /\ (forall t cx cy,
        (0 <= t < s)%R -> inside cx cy (p + t * rd) (q + t * rq) ->
        blocked cx cy = false).
Proof.
  intros (Hp & Hq & (e & He & Hlo1 & Hhi1 & Hlo2 & Hhi2) & Hcover) Hs.
  destruct Hp as [(_ & [=] & _)|(Hrd & s0 & [= <-] & Hs0 & Hface)].
  simpl in Hhi1.
  split; [exact Hrd|]. split; [exact Hs0|]. split; [|split].
  - rewrite Hface. unfold face, step_of. rewrite plus_IZR.
    destruct (Rltb rd 0); simpl IZR; lra.
  - apply (axis_slab _ _ _ _ _ Hq); [|exact Hs].
    apply (lo_later _ _ e); [exact Hlo2|exact Hhi1].
  - intros t cx cy [Ht0 Hts] Hin. apply (Hcover t cx cy Ht0); [simpl; lra| |exact Hin].
    destruct sq as [sy| | |]; simpl in Hs |- *; try exact I; try contradiction. lra.
Qed.

Lemma delta_dist_eq (rd : R) : delta_dist rd = Ok (delta_of rd).
Proof.
  unfold delta_dist, delta_of. destruct (Reqb rd 0) eqn:H; [reflexivity|].
  apply Reqb_false in H. simpl. rewrite (py_div_nonzero _ _ H). reflexivity.
Qed.

(** The traversal starts in step with the ray, at parameter 0. *)
Lemma axis_start (p rd : R) :
  (0 <= p)%R ->
  axis p rd (side_start p rd) (py_int p)
  /\ lo rd (side_start p rd) 0 /\ hi (side_start p rd) 0.
Proof.
  intros Hp. pose proof (py_int_floor p Hp) as Hfloor.
  unfold side_start, delta_of.
  destruct (Reqb rd 0) eqn:Hz.
  - apply Reqb_true in Hz. subst rd.
    replace (Rltb 0 0) with false by (symmetry; apply Rltb_false; lra).
    cbn [float_mul].
    replace (Reqb (IZR (py_int p) + 1.0 - p) 0) with false
      by (symmetry; apply Reqb_false; lra).
    replace (Rltb 0 (IZR (py_int p) + 1.0 - p)) with true
      by (symmetry; apply Rltb_true; lra).
    split; [left; split; [reflexivity|split; [reflexivity|lra]]|].
    split; [left; reflexivity|exact I].
  - apply Reqb_false in Hz. pose proof (unit_delta rd Hz) as Hu.
    pose proof (Rabs_pos (1 / rd)) as Hd. unfold face.
    set (d := Rabs (1 / rd)) in *.
    destruct (Rltb rd 0) eqn:Hs; cbn [float_mul hi].
    + assert (Hface : (p + (p - IZR (py_int p)) * d * rd = IZR (py_int p) + 0)%R).
      { replace ((p - IZR (py_int p)) * d * rd)%R
          with ((p - IZR (py_int p)) * (d * rd))%R by ring.
        rewrite Hu. lra. }
      assert (Hs0 : (0 <= (p - IZR (py_int p)) * d)%R) by nra.
      assert (Hlo : ((p - IZR (py_int p)) * d - d <= 0)%R) by nra.
      split; [right; split; [exact Hz|]; eexists; split; [reflexivity|];
             split; [exact Hs0|unfold face; rewrite Hs; exact Hface]|].
      split; [right; eexists; split; [reflexivity|exact Hlo]|exact Hs0].
    + assert (Hface : (p + (IZR (py_int p) + 1.0 - p) * d * rd = IZR (py_int p) + 1)%R).
      { replace ((IZR (py_int p) + 1.0 - p) * d * rd)%R
          with ((IZR (py_int p) + 1.0 - p) * (d * rd))%R by ring.
        rewrite Hu. lra. }
      assert (Hs0 : (0 <= (IZR (py_int p) + 1.0 - p) * d)%R) by nra.
      assert (Hlo : ((IZR (py_int p) + 1.0 - p) * d - d <= 0)%R) by nra.
      split; [right; split; [exact Hz|]; eexists; split; [reflexivity|];
             split; [exact Hs0|unfold face; rewrite Hs; exact Hface]|].
      split; [right; eexists; split; [reflexivity|exact Hlo]|exact Hs0].
Qed.

(** A point strictly inside a cell is blocking exactly if the cell is. *)
Lemma is_blocking_inside (px py : R) (cx cy : Z) :
  inside cx cy px py -> is_blocking px py = grid_blocked cx cy.
Proof.
  intros [Hx Hy].
  destruct (Z_lt_le_dec cx 0) as [Hcx|Hcx].
  { assert (IZR (cx + 1) <= 0)%R as H by (apply IZR_le; lia). rewrite plus_IZR in H.
    unfold is_blocking, grid_blocked.
    replace (Rltb px 0) with true by (symmetry; apply Rltb_true; lra).
    replace (cx <? 0) with true by (symmetry; apply Z.ltb_lt; lia). reflexivity. }
  destruct (Z_lt_le_dec cy 0) as [Hcy|Hcy].
  { assert (IZR (cy + 1) <= 0)%R as H by (apply IZR_le; lia). rewrite plus_IZR in H.
    unfold is_blocking, grid_blocked.
    replace (Rltb py 0) with true by (symmetry; apply Rltb_true; lra).
    replace (cy <? 0) with true by (symmetry; apply Z.ltb_lt; lia).
    rewrite !orb_true_r. reflexivity. }
  apply is_blocking_tile; lra || lia.
Qed.

Lemma live_start (x y rdx rdy : R) :
  is_blocking x y = false ->
  live grid_blocked x rdx (side_start x rdx) (py_int x)
       y rdy (side_start y rdy) (py_int y).
Proof.
  intros Hopen.
  assert (Hpos : (0 <= x)%R /\ (0 <= y)%R).
  { unfold is_blocking in Hopen.
    destruct (Rltb x 0) eqn:Hx; [discriminate|].
    destruct (Rltb y 0) eqn:Hy; [discriminate|].
    apply Rltb_false in Hx, Hy. split; assumption. }
  destruct Hpos as [Hx Hy].
  destruct (axis_start x rdx Hx) as (Hax & Hlox & Hhix).
  destruct (axis_start y rdy Hy) as (Hay & Hloy & Hhiy).
  split; [exact Hax|]. split; [exact Hay|]. split.
  - exists 0%R. split; [lra|tauto].
  - intros t cx cy Ht Hsx Hsy Hin.
    pose proof (axis_slab _ _ _ _ t Hax (lo_later _ _ _ _ Hlox Ht) Hsx) as Hbx.
    pose proof (axis_slab _ _ _ _ t Hay (lo_later _ _ _ _ Hloy Ht) Hsy) as Hby.
    destruct Hin as [Hin1 Hin2].
    rewrite (slab_unique _ _ _ Hin1 Hbx), (slab_unique _ _ _ Hin2 Hby).
    rewrite <- Hopen. symmetry.
    pose proof (py_int_floor x Hx). pose proof (py_int_floor y Hy).
    apply is_blocking_tile; try assumption.
    + apply le_IZR. apply Rnot_lt_le. intros Hneg.
      assert (IZR (py_int x + 1) <= 0)%R as H1 by (apply IZR_le; apply lt_IZR in Hneg; lia).
      rewrite plus_IZR in H1. lra.
    + apply le_IZR. apply Rnot_lt_le. intros Hneg.
      assert (IZR (py_int y + 1) <= 0)%R as H1 by (apply IZR_le; apply lt_IZR in Hneg; lia).
      rewrite plus_IZR in H1. lra.
Qed.

(** What a round of the loop body does to the position. *)
Lemma dda_body_moves (delta_dist_x delta_dist_y : float) (step_x step_y : Z)
    (s s' : Ray.t) :
  dda_body delta_dist_x delta_dist_y step_x step_y s = Ok s' ->
  (float_lt (Ray.side_dist_x s) (Ray.side_dist_y s) = true
   /\ Ray.side_dist_x s' = float_add (Ray.side_dist_x s) delta_dist_x
   /\ Ray.side_dist_y s' = Ray.side_dist_y s
   /\ Ray.map_x s' = Ray.map_x s + step_x
   /\ Ray.map_y s' = Ray.map_y s
   /\ Ray.side s' = 0)
  \/ (float_lt (Ray.side_dist_x s) (Ray.side_dist_y s) = false
      /\ Ray.side_dist_x s' = Ray.side_dist_x s
      /\ Ray.side_dist_y s' = float_add (Ray.side_dist_y s) delta_dist_y
      /\ Ray.map_x s' = Ray.map_x s
      /\ Ray.map_y s' = Ray.map_y s + step_y
      /\ Ray.side s' = 1).
Proof.
  unfold dda_body.
  destruct (float_lt (Ray.side_dist_x s) (Ray.side_dist_y s)); intros H; [left|right];
    (split; [reflexivity|]); cbv beta iota zeta in H;
    repeat match type of H with
           | context [if ?c then _ else _] => destruct c
           | context [match ?m with Some _ => _ | None => _ end] => destruct m
           end;
    try discriminate; injection H as <-; cbn; repeat split; reflexivity.
Qed.

Lemma dda_while_invariant (P : Ray.t -> Prop)
    (delta_dist_x delta_dist_y : float) (step_x step_y : Z) :
  (forall s s',
      Ray.hit s = false -> P s ->
      dda_body delta_dist_x delta_dist_y step_x step_y s = Ok s' -> P s') ->
  forall fuel s s',
    P s -> dda_while fuel delta_dist_x delta_dist_y step_x step_y s = Ok s' -> P s'.
Proof.
  intros Hstep. induction fuel as [|fuel IH]; intros s s' HP; cbn [dda_while].
  - destruct (negb (Ray.hit s) && (Ray.steps s <? max_steps)); [discriminate|].
    intros [= <-]. exact HP.
  - destruct (negb (Ray.hit s) && (Ray.steps s <? max_steps)) eqn:Hcond.
    + apply andb_true_iff in Hcond as [Hhit _]. apply negb_true_iff in Hhit.
      destruct (dda_body delta_dist_x delta_dist_y step_x step_y s) as [s1|e|] eqn:Hbody;
        cbn [mbind res_mbind res_bind]; [|discriminate..].
      apply IH. apply (Hstep s s1 Hhit HP Hbody).
    + intros [= <-]. exact HP.
Qed.

(** *** A column in two halves *)

(** [(ray_dir_x, ray_dir_y)] of a column. *)
Definition ray_dir (player : Player.t) (column : Z) : R * R :=
  let camera_x := (IZR (2 * column) / IZR SCREEN_WIDTH - 1)%R in
  ((Player.dir_x player + Player.plane_x player * camera_x)%R,
   (Player.dir_y player + Player.plane_y player * camera_x)%R).

(** The traversal of a column: the variables as the [while] loop leaves
    them. *)
Definition traverse (player : Player.t) (column : Z) : res Ray.t :=
  dda_while (Z.to_nat max_steps)
            (delta_of (ray_dir player column).1) (delta_of (ray_dir player column).2)
            (step_of (ray_dir player column).1) (step_of (ray_dir player column).2)
            (dda_fresh (side_start (Player.x player) (ray_dir player column).1)
                       (side_start (Player.y player) (ray_dir player column).2)
                       (py_int (Player.x player)) (py_int (Player.y player))).

(** [perp_wall_dist] before it is clamped. *)
Definition perp_wall_dist (delta_dist_x delta_dist_y : float) (s : Ray.t) : float :=
  if Ray.side s =? 0 then float_sub (Ray.side_dist_x s) delta_dist_x
  else float_sub (Ray.side_dist_y s) delta_dist_y.

(** What [cast_rays] does in a column once the traversal is over. *)
Definition finish_column (column : Z) (delta_dist_x delta_dist_y : float) (s : Ray.t)
  : res (option wall_slice) :=
  if negb (Ray.hit s) then Ok None
  else
    let perp_wall_dist := py_max (perp_wall_dist delta_dist_x delta_dist_y s) (Fin 0.0001) in
    q ← float_div (Fin (IZR SCREEN_HEIGHT)) perp_wall_dist;
    line_height ← float_int q;
    let draw_start := Z.max ((- line_height) / 2 + SCREEN_HEIGHT / 2) 0 in
    let draw_end := Z.min (line_height / 2 + SCREEN_HEIGHT / 2) (SCREEN_HEIGHT - 1) in
    Ok (Some (WallSlice column draw_start draw_end (Ray.tile s) (Ray.side s)
                        perp_wall_dist)).

(** [cast_column] is the traversal followed by the drawing of the column. *)
Lemma cast_column_eq (player : Player.t) (column : Z) :
  cast_column player column
  = s ← traverse player column;
    finish_column column (delta_of (ray_dir player column).1)
                  (delta_of (ray_dir player column).2) s.
Proof.
  unfold cast_column, traverse, finish_column, perp_wall_dist, ray_dir.
  rewrite py_div_nonzero by (unfold SCREEN_WIDTH; lra).
  cbn [mbind res_mbind res_bind fst snd]. cbv zeta.
  rewrite !delta_dist_eq. cbn [mbind res_mbind res_bind].
  unfold step_of, side_start.
  destruct (Rltb _ 0); destruct (Rltb _ 0); reflexivity.
Qed.

Lemma traverse_returns (player : Player.t) (column : Z) :
  exists s, traverse player column = Ok s.
Proof.
  unfold traverse.
  match goal with
  | |- context [dda_while ?fuel ?dx ?dy ?sx ?sy ?s] =>
      destruct (dda_while_spec dx dy sx sy fuel s) as (n & s' & Hw & _);
        [unfold dda_fresh; cbn [Ray.steps]; lia|]
  end.
  eauto.
Qed.

(** How the second half can end with a slice. *)
Lemma finish_column_slice (column : Z) (delta_dist_x delta_dist_y : float)
    (s : Ray.t) (slice : wall_slice) :
  finish_column column delta_dist_x delta_dist_y s = Ok (Some slice) ->
  Ray.hit s = true
  /\ exists (depth : float) (line_height : Z),
       depth = py_max (perp_wall_dist delta_dist_x delta_dist_y s) (Fin 0.0001)
       /\ (depth = PInf /\ line_height = 0
           \/ exists d, depth = Fin d /\ (0.0001 <= d)%R
                        /\ line_height = py_int (IZR SCREEN_HEIGHT / d))
       /\ slice = WallSlice column
                    (Z.max ((- line_height) / 2 + SCREEN_HEIGHT / 2) 0)
                    (Z.min (line_height / 2 + SCREEN_HEIGHT / 2) (SCREEN_HEIGHT - 1))
                    (Ray.tile s) (Ray.side s) depth.
Proof.
  unfold finish_column. destruct (Ray.hit s); cbn [negb]; [|discriminate].
  cbv zeta. intros H. split; [reflexivity|].
  destruct (py_max_clamped (perp_wall_dist delta_dist_x delta_dist_y s)) as [Hclamp Hnz].
  set (depth := py_max (perp_wall_dist delta_dist_x delta_dist_y s) (Fin 0.0001)) in *.
  exists depth. destruct depth as [d| | |] eqn:Hdepth.
  - cbn [float_lt] in Hclamp. apply Rltb_false in Hclamp.
    cbn [float_div] in H.
    replace (Reqb d 0) with false in H by (symmetry; apply Reqb_false; lra).
    cbn [mbind res_mbind res_bind float_int] in H. injection H as <-.
    eexists. split; [reflexivity|]. split; [|reflexivity].
    right. exists d. split; [reflexivity|]. split; [exact Hclamp|reflexivity].
  - cbn [float_div mbind res_mbind res_bind float_int] in H. injection H as <-.
    exists (py_int 0). split; [reflexivity|]. split; [|reflexivity].
    left. split; [reflexivity|]. apply py_int_nonneg; simpl; lra.
  - discriminate Hclamp.
  - cbn [float_div mbind res_mbind res_bind float_int] in H. discriminate.
Qed.

(** X14.  A wall slice that [cast_rays] draws is drawn in its own column,
    between rows [draw_start] and [draw_end] that lie on the screen and
    have the horizon row [SCREEN_HEIGHT // 2] between them; and the depth
    stored for the column is [float("inf")] or a number that is at least
    0.0001. *)
Theorem wall_slice_on_screen (player : Player.t) (column : Z) (slice : wall_slice) :
  cast_column player column = Ok (Some slice) ->
  slice_column slice = column
  /\ 0 <= slice_start slice <= SCREEN_HEIGHT / 2
  /\ SCREEN_HEIGHT / 2 <= slice_end slice <= SCREEN_HEIGHT - 1
  /\ (slice_depth slice = PInf
      \/ exists d, slice_depth slice = Fin d /\ (0.0001 <= d)%R).
Proof.
  rewrite cast_column_eq.
  destruct (traverse player column) as [s|e|]; cbn [mbind res_mbind res_bind];
    [|discriminate..].
  intros H. apply finish_column_slice in H as (_ & depth & line_height & _ & Hd & ->).
  cbn [slice_column slice_start slice_end slice_depth].
  assert (Hlh : 0 <= line_height).
  { destruct Hd as [[_ ->]|(d & _ & Hd & ->)]; [lia|].
    apply py_int_pos. unfold SCREEN_HEIGHT. apply Rmult_le_pos; [lra|].
    left. apply Rinv_0_lt_compat. lra. }
  assert (Hup : (- line_height) / 2 <= 0).
  { change 0 with (0 / 2). apply Z.div_le_mono; lia. }
  assert (Hdown : 0 <= line_height / 2) by (apply Z.div_pos; lia).
  assert (Hhalf : SCREEN_HEIGHT / 2 = 300) by reflexivity.
  assert (Hheight : SCREEN_HEIGHT = 600) by reflexivity.
  split; [reflexivity|]. split; [lia|]. split; [lia|].
  destruct Hd as [[-> _]|(d & -> & Hd & _)]; [left; reflexivity|].
  right. exists d. split; [reflexivity|exact Hd].
Qed.

(** The ray of the middle column from the spawn point: it runs along the
    negative x axis and meets the wall of tile (2, 3) half a tile away. *)
Lemma spawn_ray_dir : ray_dir spawn_player 480 = ((-1)%R, 0%R).
Proof.
  unfold ray_dir, spawn_player. cbn [Player.dir_x Player.dir_y Player.plane_x Player.plane_y].
  change (2 * 480) with 960. unfold SCREEN_WIDTH. f_equal; lra.
Qed.

Lemma dda_west (d s : R) :
  dda_while (Z.to_nat max_steps) (Fin d) PInf (-1) 1 (dda_fresh (Fin s) PInf 3 3)
  = Ok (Ray.Make (Fin (s + d)) PInf 2 3 0 true "1" 1).
Proof. reflexivity. Qed.

Lemma spawn_middle_column :
  exists depth,
    cast_column spawn_player 480 = Ok (Some (WallSlice 480 0 599 "1" 0 (Fin depth)))
    /\ depth = 0.5%R.
Proof.
  rewrite cast_column_eq. unfold traverse. rewrite spawn_ray_dir. cbn [fst snd].
  unfold side_start, step_of. unfold delta_of, spawn_player. cbn [Player.x Player.y].
  replace (Reqb (-1) 0) with false by (symmetry; apply Reqb_false; lra).
  replace (Reqb 0 0) with true by (symmetry; apply Reqb_true; reflexivity).
  replace (Rltb (-1) 0) with true by (symmetry; apply Rltb_true; lra).
  replace (Rltb 0 0) with false by (symmetry; apply Rltb_false; lra).
  replace (py_int 3.5) with 3 by (symmetry; apply py_int_nonneg; simpl; lra).
  cbn [float_mul].
  replace (Reqb (IZR 3 + 1.0 - 3.5) 0) with false by (symmetry; apply Reqb_false; lra).
  replace (Rltb 0 (IZR 3 + 1.0 - 3.5)) with true by (symmetry; apply Rltb_true; lra).
  cbv iota. eexists. rewrite dda_west. cbn [mbind res_mbind res_bind].
  assert (Habs : Rabs (1 / -1) = 1%R).
  { replace (1 / -1)%R with (-1)%R by lra. rewrite Rabs_left; lra. }
  unfold finish_column, perp_wall_dist. cbn [Ray.hit Ray.side Ray.side_dist_x Ray.tile negb].
  change (0 =? 0) with true. cbv iota zeta.
  cbn [float_sub float_neg float_add]. rewrite Habs. unfold py_max. cbn [float_lt].
  match goal with
  | |- context [Rltb ?p 0.0001] => replace p with 0.5%R by lra
  end.
  replace (Rltb 0.5 0.0001) with false by (symmetry; apply Rltb_false; lra).
  cbv iota. cbn [float_div].
  replace (Reqb 0.5 0) with false by (symmetry; apply Reqb_false; lra).
  cbn [mbind res_mbind res_bind float_int].
  replace (py_int (IZR SCREEN_HEIGHT / 0.5)) with 1200
    by (symmetry; apply py_int_nonneg; unfold SCREEN_HEIGHT; lra).
  split; [reflexivity|]. lra.
Qed.

Lemma wall_slice_on_screen_witness :
  exists slice,
    cast_column spawn_player 480 = Ok (Some slice)
    /\ 0 <= slice_start slice <= SCREEN_HEIGHT / 2.
Proof.
  destruct spawn_middle_column as (depth & Hcol & _).
  eexists. split; [exact Hcol|].
  apply (wall_slice_on_screen spawn_player 480 _ Hcol).
Defined.

(** *** Where a hit is *)

(** At parameter [t] the ray is on the face of cell index [m] of the first
    axis through which it comes in, and within the slab [n] of the second. *)
Definition enters (p rd : R) (m : Z) (q rq : R) (n : Z) (t : R) : Prop :=
  (p + t * rd = IZR m + (if Rltb rd 0 then 1 else 0))%R
  /\ (IZR n <= q + t * rq <= IZR n + 1)%R.

Definition live_ray (x y rdx rdy : R) (s : Ray.t) : Prop :=
  live grid_blocked x rdx (Ray.side_dist_x s) (Ray.map_x s)
       y rdy (Ray.side_dist_y s) (Ray.map_y s).

(** The state after the round that hit: the distance that [cast_rays] takes
    for the column is the parameter [t] at which the ray enters the cell
    that was hit, through the face that [side] names, and before [t] the ray
    has met the inside of open cells only. *)
Definition landed (x y rdx rdy : R) (s : Ray.t) : Prop :=
  exists t,
    perp_wall_dist (delta_of rdx) (delta_of rdy) s = Fin t
    /\ (0 <= t)%R
    /\ (if Ray.side s =? 0
        then enters x rdx (Ray.map_x s) y rdy (Ray.map_y s) t
        else enters y rdy (Ray.map_y s) x rdx (Ray.map_x s) t)
    /\ (forall t' cx cy,
          (0 <= t' < t)%R -> inside cx cy (x + t' * rdx) (y + t' * rdy) ->
          grid_blocked cx cy = false).

Lemma axis_side_dist (p rd : R) (sd : float) (m : Z) :
  axis p rd sd m ->
  (rd = 0%R /\ sd = PInf) \/ (rd <> 0%R /\ exists s, sd = Fin s).
Proof.
  intros [(H1 & H2 & _)|(H1 & s & H2 & _)]; [left; auto|right; eauto].
Qed.

Lemma delta_of_nonzero (rd : R) : rd <> 0%R -> delta_of rd = Fin (Rabs (1 / rd)).
Proof.
  intros H. unfold delta_of.
  replace (Reqb rd 0) with false by (symmetry; apply Reqb_false; exact H).
  reflexivity.
Qed.

Lemma fin_sub_add (s d : R) : float_sub (Fin (s + d)) (Fin d) = Fin (s + d + - d).
Proof. reflexivity. Qed.

(** A round of the loop from a state that is in step with the ray. *)
Lemma dda_body_live (x y rdx rdy : R) (s s' : Ray.t) :
  rdx <> 0%R \/ rdy <> 0%R ->
  Ray.hit s = false ->
  live_ray x y rdx rdy s ->
  dda_body (delta_of rdx) (delta_of rdy) (step_of rdx) (step_of rdy) s = Ok s' ->
  if Ray.hit s' then landed x y rdx rdy s' else live_ray x y rdx rdy s'.
Proof.
  intros Hdir Hhit Hlive Hbody.
  destruct (dda_body_spec (delta_of rdx) (delta_of rdy) (step_of rdx) (step_of rdy) s)
    as (s1 & Hb1 & _ & Hcell).
  rewrite Hbody in Hb1. injection Hb1 as <-.
  unfold live_ray in Hlive.
  pose proof Hlive as (Hax & Hay & _).
  apply axis_side_dist in Hax, Hay.
  destruct (dda_body_moves _ _ _ _ _ _ Hbody)
    as [(Hlt & Hsx & Hsy & Hmx & Hmy & Hside)|(Hlt & Hsx & Hsy & Hmx & Hmy & Hside)].
  - (* a step along x *)
    destruct Hax as [(_ & Ex)|(Hrd & sx & Ex)].
    { rewrite Ex in Hlt. destruct (Ray.side_dist_y s); discriminate. }
    rewrite Ex in Hlt, Hlive, Hsx.
    rewrite (delta_of_nonzero rdx Hrd) in Hsx. cbn [float_add] in Hsx.
    assert (Hhi : hi (Ray.side_dist_y s) sx).
    { destruct Hay as [(_ & Ey)|(_ & sy & Ey)]; rewrite Ey in Hlt |- *; [exact I|].
      cbn [float_lt] in Hlt. apply Rltb_true in Hlt. simpl. lra. }
    destruct (grid_blocked (Ray.map_x s') (Ray.map_y s')) eqn:Hblk.
    + destruct Hcell as [-> _].
      destruct (live_final _ _ _ _ _ _ _ _ _ Hlive Hhi)
        as (_ & Hs0 & Hface & Hslab & Hbefore).
      assert (Ht : (sx + Rabs (1 / rdx) + - Rabs (1 / rdx) = sx)%R) by ring.
      exists (sx + Rabs (1 / rdx) + - Rabs (1 / rdx))%R.
      unfold perp_wall_dist. rewrite Hside. change (0 =? 0) with true. cbv iota.
      rewrite Hsx, (delta_of_nonzero rdx Hrd), fin_sub_add, Ht, Hmx, Hmy.
      split; [reflexivity|]. split; [exact Hs0|]. split; [split; assumption|exact Hbefore].
    + destruct Hcell as [-> _]. rewrite Hhit.
      unfold live_ray. rewrite Hsx, Hsy, Hmx, Hmy.
      rewrite Hmx, Hmy in Hblk. apply live_advance; assumption.
  - (* a step along y *)
    destruct Hay as [(Hrd0 & Ey)|(Hrd & sy & Ey)].
    { exfalso. destruct Hdir as [Hdir|Hdir]; [|contradiction].
      destruct Hax as [(Hz & _)|(_ & sx & Ex)]; [contradiction|].
      rewrite Ex, Ey in Hlt. discriminate. }
    rewrite Ey in Hlt, Hlive, Hsy.
    rewrite (delta_of_nonzero rdy Hrd) in Hsy. cbn [float_add] in Hsy.
    assert (Hhi : hi (Ray.side_dist_x s) sy).
    { destruct Hax as [(_ & Ex)|(_ & sx & Ex)]; rewrite Ex in Hlt |- *; [exact I|].
      cbn [float_lt] in Hlt. apply Rltb_false in Hlt. simpl. lra. }
    apply live_sym in Hlive.
    destruct (grid_blocked (Ray.map_x s') (Ray.map_y s')) eqn:Hblk.
    + destruct Hcell as [-> _].
      destruct (live_final _ _ _ _ _ _ _ _ _ Hlive Hhi)
        as (_ & Hs0 & Hface & Hslab & Hbefore).
      assert (Ht : (sy + Rabs (1 / rdy) + - Rabs (1 / rdy) = sy)%R) by ring.
      exists (sy + Rabs (1 / rdy) + - Rabs (1 / rdy))%R.
      unfold perp_wall_dist. rewrite Hside. change (1 =? 0) with false. cbv iota.
      rewrite Hsy, (delta_of_nonzero rdy Hrd), fin_sub_add, Ht, Hmx, Hmy.
      split; [reflexivity|]. split; [exact Hs0|]. split; [split; assumption|].
      intros t' cx cy Ht' [Hin1 Hin2].
      apply (Hbefore t' cy cx Ht'). split; assumption.
    + destruct Hcell as [-> _]. rewrite Hhit.
      unfold live_ray. rewrite Hsx, Hsy, Hmx, Hmy.
      rewrite Hmx, Hmy in Hblk.
      apply (live_advance (fun a b => grid_blocked b a)) in Hlive;
        [|exact Hhi|exact Hblk].
      apply live_sym in Hlive. exact Hlive.
Qed.

(** A ray without a direction: both side distances stay infinite, and a hit
    leaves [perp_wall_dist] without a value. *)
Lemma dda_body_dead (step_x step_y : Z) (s s' : Ray.t) :
  Ray.side_dist_x s = PInf -> Ray.side_dist_y s = PInf ->
  dda_body PInf PInf step_x step_y s = Ok s' ->
  Ray.side_dist_x s' = PInf /\ Ray.side_dist_y s' = PInf /\ Ray.side s' = 1.
Proof.
  intros Hx Hy Hbody.
  destruct (dda_body_moves _ _ _ _ _ _ Hbody)
    as [(Hlt & _)|(_ & Hsx & Hsy & _ & _ & Hside)].
  - rewrite Hx, Hy in Hlt. discriminate.
  - rewrite Hsx, Hsy, Hx, Hy. auto.
Qed.

Lemma wall_depth_found (x y rdx rdy : R) (s : Ray.t) :
  is_blocking x y = false ->
  rdx <> 0%R \/ rdy <> 0%R ->
  dda_while (Z.to_nat max_steps) (delta_of rdx) (delta_of rdy)
            (step_of rdx) (step_of rdy)
            (dda_fresh (side_start x rdx) (side_start y rdy) (py_int x) (py_int y))
  = Ok s ->
  Ray.hit s = true ->
  landed x y rdx rdy s.
Proof.
  intros Hfree Hdir Hw Hhit.
  assert (H : if Ray.hit s then landed x y rdx rdy s else live_ray x y rdx rdy s).
  { revert Hw.
    apply (dda_while_invariant
             (fun s => if Ray.hit s then landed x y rdx rdy s
                       else live_ray x y rdx rdy s)).
    - intros s0 s1 Hh0 Hp0 Hbody. rewrite Hh0 in Hp0.
      apply (dda_body_live x y rdx rdy s0 s1 Hdir Hh0 Hp0 Hbody).
    - unfold dda_fresh. cbn [Ray.hit]. unfold live_ray.
      cbn [Ray.side_dist_x Ray.side_dist_y Ray.map_x Ray.map_y].
      apply live_start. exact Hfree. }
  rewrite Hhit in H. exact H.
Qed.

Lemma py_max_Rmax (t c : R) : py_max (Fin t) (Fin c) = Fin (Rmax t c).
Proof.
  unfold py_max. cbn [float_lt]. destruct (Rltb t c) eqn:H.
  - apply Rltb_true in H. rewrite Rmax_right by lra. reflexivity.
  - apply Rltb_false in H. rewrite Rmax_left by lra. reflexivity.
Qed.

(** X15.  For a player who stands in a place that is not blocking, the
    depth that [cast_rays] stores for a column with a wall slice is
    [max(t, 0.0001)], where [t >= 0] is the parameter at which the ray
    [(x + t * ray_dir_x, y + t * ray_dir_y)] reaches the cell that the
    traversal found blocking: there the ray is on the face of that cell
    which [side] names and within the cell along the other axis, and at no
    smaller parameter is it inside a blocking cell. *)
Theorem wall_depth_is_entry (player : Player.t) (column : Z) (slice : wall_slice) :
  is_blocking (Player.x player) (Player.y player) = false ->
  cast_column player column = Ok (Some slice) ->
  exists (t : R) (map_x map_y : Z),
    slice_depth slice = Fin (Rmax t 0.0001)
    /\ (0 <= t)%R
    /\ grid_blocked map_x map_y = true
    /\ (if slice_side slice =? 0
        then enters (Player.x player) (ray_dir player column).1 map_x
                    (Player.y player) (ray_dir player column).2 map_y t
        else enters (Player.y player) (ray_dir player column).2 map_y
                    (Player.x player) (ray_dir player column).1 map_x t)
    /\ (forall t' cx cy,
          (0 <= t' < t)%R ->
          inside cx cy (Player.x player + t' * (ray_dir player column).1)
                       (Player.y player + t' * (ray_dir player column).2) ->
          grid_blocked cx cy = false).
Proof.
  intros Hfree. rewrite cast_column_eq.
  set (rdx := (ray_dir player column).1). set (rdy := (ray_dir player column).2).
  destruct (traverse player column) as [s|e|] eqn:Htr;
    cbn [mbind res_mbind res_bind]; [|discriminate..].
  intros Hfin.
  destruct (finish_column_slice _ _ _ _ _ Hfin)
    as (Hhit & depth & line_height & Hdepth & Hgood & ->).
  cbn [slice_depth slice_side].
  unfold traverse in Htr. fold rdx rdy in Htr.
  (* the last cell is blocking *)
  assert (Hblk : grid_blocked (Ray.map_x s) (Ray.map_y s) = true).
  { match type of Htr with
    | dda_while ?fuel ?dx ?dy ?sx ?sy ?s0 = _ =>
        destruct (dda_while_spec dx dy sx sy fuel s0)
          as (n & s' & Hw & _ & _ & _ & _ & Hend & _);
          [unfold dda_fresh; cbn [Ray.steps]; lia|]
    end.
    rewrite Htr in Hw. injection Hw as <-.
    destruct (Hend Hhit) as [[_ Hfalse]|(_ & Hb & _)]; [discriminate|exact Hb]. }
  assert (Hdir : rdx <> 0%R \/ rdy <> 0%R).
  { destruct (Req_dec_T rdx 0) as [Hzx|Hnx]; [|left; exact Hnx].
    destruct (Req_dec_T rdy 0) as [Hzy|Hny]; [|right; exact Hny].
    (* no direction: the column has no slice *)
    exfalso.
    assert (Hdead : Ray.side_dist_x s = PInf /\ Ray.side_dist_y s = PInf
                    /\ (Ray.hit s = true -> Ray.side s = 1)).
    { revert Htr.
      apply (dda_while_invariant
               (fun s => Ray.side_dist_x s = PInf /\ Ray.side_dist_y s = PInf
                         /\ (Ray.hit s = true -> Ray.side s = 1))).
      - intros s0 s1 _ (Hx & Hy & _) Hbody.
        rewrite Hzx, Hzy in Hbody. unfold delta_of in Hbody.
        replace (Reqb 0 0) with true in Hbody by (symmetry; apply Reqb_true; reflexivity).
        destruct (dda_body_dead _ _ _ _ Hx Hy Hbody) as (H1 & H2 & H3). auto.
      - pose proof (live_start (Player.x player) (Player.y player) rdx rdy Hfree)
          as (Hax & Hay & _).
        apply axis_side_dist in Hax as [(_ & Ex)|(Hn & _)]; [|contradiction].
        apply axis_side_dist in Hay as [(_ & Ey)|(Hn & _)]; [|contradiction].
        unfold dda_fresh. cbn [Ray.side_dist_x Ray.side_dist_y Ray.hit].
        split; [exact Ex|]. split; [exact Ey|discriminate]. }
    destruct Hdead as (Hx & Hy & Hside). specialize (Hside Hhit).
    unfold perp_wall_dist in Hdepth. rewrite Hside, Hy, Hzy in Hdepth.
    unfold delta_of in Hdepth.
    replace (Reqb 0 0) with true in Hdepth by (symmetry; apply Reqb_true; reflexivity).
    cbn in Hdepth. subst depth.
    destruct Hgood as [[H _]|(d & H & _)]; discriminate. }
  destruct (wall_depth_found _ _ _ _ _ Hfree Hdir Htr Hhit)
    as (t & Hperp & Ht0 & Henters & Hbefore).
  exists t, (Ray.map_x s), (Ray.map_y s).
  rewrite Hdepth, Hperp, py_max_Rmax.
  split; [reflexivity|]. split; [exact Ht0|]. split; [exact Hblk|].
  split; [exact Henters|exact Hbefore].
Qed.

Lemma wall_depth_is_entry_witness :
  is_blocking (Player.x spawn_player) (Player.y spawn_player) = false
  /\ exists slice t,
       cast_column spawn_player 480 = Ok (Some slice)
       /\ slice_depth slice = Fin (Rmax t 0.0001) /\ (0 <= t)%R.
Proof.
  assert (Hfree : is_blocking (Player.x spawn_player) (Player.y spawn_player) = false).
  { simpl. blocking_at 3 3. }
  split; [exact Hfree|].
  destruct spawn_middle_column as (depth & Hcol & _).
  destruct (wall_depth_is_entry spawn_player 480 _ Hfree Hcol)
    as (t & mx & my & Hd & Ht & _).
  eexists. exists t. split; [exact Hcol|]. split; [exact Hd|exact Ht].
Defined.

(** *** A whole frame of the raycaster *)

(** With a camera that is not degenerate no ray is without a direction. *)
Lemma ray_dir_nonzero (player : Player.t) (column : Z) :
  camera_det player <> 0%R ->
  (ray_dir player column).1 <> 0%R \/ (ray_dir player column).2 <> 0%R.
Proof.
  intros Hdet.
  destruct (Req_dec_T (ray_dir player column).1 0) as [H1|H1]; [|left; exact H1].
  destruct (Req_dec_T (ray_dir player column).2 0) as [H2|H2]; [|right; exact H2].
  exfalso. apply Hdet. unfold ray_dir in H1, H2. cbn [fst snd] in H1, H2.
  unfold camera_det.
  set (c := (IZR (2 * column) / IZR SCREEN_WIDTH - 1)%R) in *.
  replace (Player.plane_x player * Player.dir_y player
           - Player.dir_x player * Player.plane_y player)%R
    with (Player.plane_x player * (Player.dir_y player + Player.plane_y player * c)
          - (Player.dir_x player + Player.plane_x player * c) * Player.plane_y player)%R
    by ring.
  rewrite H1, H2. ring.
Qed.

(** An entry of the depth buffer: no wall, or a distance that is at least
    0.0001. *)
Definition depth_entry (d : float) : Prop :=
  d = PInf \/ exists x, d = Fin x /\ (0.0001 <= x)%R.

Lemma cast_column_depth (player : Player.t) (column : Z) (slice : wall_slice) :
  cast_column player column = Ok (Some slice) ->
  slice_column slice = column /\ depth_entry (slice_depth slice).
Proof.
  rewrite cast_column_eq.
  destruct (traverse player column) as [s|e|]; cbn [mbind res_mbind res_bind];
    [|discriminate..].
  intros H. apply finish_column_slice in H as (_ & depth & line_height & _ & Hd & ->).
  cbn [slice_column slice_depth]. split; [reflexivity|].
  destruct Hd as [[-> _]|(d & -> & Hd & _)]; [left; reflexivity|].
  right. exists d. split; [reflexivity|exact Hd].
Qed.

Lemma cast_column_returns (player : Player.t) (column : Z) :
  is_blocking (Player.x player) (Player.y player) = false ->
  camera_det player <> 0%R ->
  exists drawn, cast_column player column = Ok drawn.
Proof.
  intros Hfree Hdet. rewrite cast_column_eq.
  destruct (traverse_returns player column) as [s Htr]. rewrite Htr.
  cbn [mbind res_mbind res_bind]. unfold finish_column.
  destruct (Ray.hit s) eqn:Hhit; cbn [negb]; [|eauto].
  unfold traverse in Htr.
  destruct (wall_depth_found _ _ _ _ _ Hfree (ray_dir_nonzero player column Hdet) Htr Hhit)
    as (t & Hperp & _).
  cbv zeta. rewrite Hperp, py_max_Rmax. cbn [float_div].
  pose proof (Rmax_r t 0.0001) as Hmax.
  replace (Reqb (Rmax t 0.0001) 0) with false by (symmetry; apply Reqb_false; lra).
  cbn [mbind res_mbind res_bind float_int]. eauto.
Qed.

Lemma cast_columns_returns (player : Player.t) (columns : list Z)
    (depth_buffer : list float) :
  is_blocking (Player.x player) (Player.y player) = false ->
  camera_det player <> 0%R ->
  NoDup columns ->
  (forall c, c ∈ columns -> 0 <= c < Z.of_nat (length depth_buffer)) ->
  exists slices depth_buffer',
    cast_columns player columns depth_buffer = Ok (slices, depth_buffer')
    /\ length depth_buffer' = length depth_buffer
    /\ (forall c, 0 <= c -> c ∉ columns ->
          depth_buffer' !! Z.to_nat c = depth_buffer !! Z.to_nat c)
    /\ (forall slice, slice ∈ slices ->
          slice_column slice ∈ columns
          /\ depth_entry (slice_depth slice)
          /\ depth_buffer' !! Z.to_nat (slice_column slice)
             = Some (slice_depth slice)).
Proof.
  intros Hfree Hdet. revert depth_buffer.
  induction columns as [|column rest IH]; intros depth_buffer Hnd Hin.
  - exists [], depth_buffer. split; [reflexivity|]. split; [reflexivity|].
    split; [reflexivity|]. intros slice Hs. inversion Hs.
  - apply NoDup_cons in Hnd as [Hfresh Hnd].
    assert (Hcol : 0 <= column < Z.of_nat (length depth_buffer)) by (apply Hin; left).
    cbn [cast_columns].
    destruct (cast_column_returns player column Hfree Hdet) as [drawn Hdrawn].
    rewrite Hdrawn. cbn [mbind res_mbind res_bind].
    destruct drawn as [slice|].
    + destruct (cast_column_depth _ _ _ Hdrawn) as [Hc Hentry].
      unfold py_setitem.
      destruct (decide (Z.to_nat column < length depth_buffer)%nat) as [Hlt|Hge]; [|lia].
      cbn [mbind res_mbind res_bind].
      destruct (IH (<[Z.to_nat column := slice_depth slice]> depth_buffer) Hnd)
        as (slices & buffer & Hrest & Hlen & Hkeep & Hslices).
      { intros c Hc'. rewrite length_insert. apply Hin. right. exact Hc'. }
      rewrite Hrest. cbn [mbind res_mbind res_bind].
      exists (slice :: slices), buffer. split; [reflexivity|].
      split; [rewrite Hlen; apply length_insert|]. split.
      * intros c Hc0 Hc'. apply not_elem_of_cons in Hc' as [Hne Hc'].
        rewrite (Hkeep c Hc0 Hc'). apply list_lookup_insert_ne. lia.
      * intros sl Hsl. apply elem_of_cons in Hsl as [->|Hsl].
        -- rewrite Hc. split; [left|]. split; [exact Hentry|].
           rewrite (Hkeep column) by (lia || exact Hfresh).
           apply list_lookup_insert_eq. exact Hlt.
        -- destruct (Hslices sl Hsl) as (H1 & H2 & H3).
           split; [right; exact H1|]. split; assumption.
    + destruct (IH depth_buffer Hnd) as (slices & buffer & Hrest & Hlen & Hkeep & Hslices).
      { intros c Hc'. apply Hin. right. exact Hc'. }
      rewrite Hrest. exists slices, buffer. split; [reflexivity|].
      split; [exact Hlen|]. split.
      * intros c Hc0 Hc'. apply not_elem_of_cons in Hc' as [_ Hc']. apply Hkeep; assumption.
      * intros sl Hsl. destruct (Hslices sl Hsl) as (H1 & H2 & H3).
        split; [right; exact H1|]. split; assumption.
Qed.

Lemma cast_rays_returns (player : Player.t) :
  is_blocking (Player.x player) (Player.y player) = false ->
  camera_det player <> 0%R ->
  exists slices depth_buffer,
    cast_rays player = Ok (slices, depth_buffer)
    /\ length depth_buffer = Z.to_nat SCREEN_WIDTH
    /\ (forall slice, slice ∈ slices ->
          0 <= slice_column slice < SCREEN_WIDTH
          /\ depth_entry (slice_depth slice)
          /\ depth_buffer !! Z.to_nat (slice_column slice) = Some (slice_depth slice)).
Proof.
  intros Hfree Hdet. unfold cast_rays.
  destruct (cast_columns_returns player (seqZ 0 SCREEN_WIDTH)
              (replicate (Z.to_nat SCREEN_WIDTH) PInf) Hfree Hdet)
    as (slices & buffer & Hcast & Hlen & _ & Hslices).
  { apply NoDup_seqZ. }
  { intros c Hc. apply elem_of_seqZ in Hc. rewrite length_replicate. lia. }
  rewrite length_replicate in Hlen.
  exists slices, buffer. split; [exact Hcast|]. split; [exact Hlen|].
  intros slice Hs. destruct (Hslices slice Hs) as (H1 & H2 & H3).
  apply elem_of_seqZ in H1. split; [lia|]. split; assumption.
Qed.



(** ** Spawning the pellets *)

(** [enumerate(l)], counting from [start]. *)
Fixpoint enumerate {A : Type} (start : Z) (l : list A) : list (Z * A) :=
  match l with
  | [] => []
  | a :: rest => (start, a) :: enumerate (start + 1) rest
  end.

(** The inner loop of [spawn_pellets], over the tiles of row [y]. *)
Fixpoint spawn_row (y : Z) (row : list (Z * ascii)) : list Pellet.t :=
  match row with
  | [] => []
  | (x, tile) :: rest =>
      if Ascii.eqb tile "0"
      then Pellet.Make (IZR x + 0.5) (IZR y + 0.5) false :: spawn_row y rest
      else spawn_row y rest
  end.

(** The outer loop, over the rows. *)
Fixpoint spawn_rows (rows : list (Z * list ascii)) : list Pellet.t :=
  match rows with
  | [] => []
  | (y, row) :: rest => spawn_row y (enumerate 0 row) ++ spawn_rows rest
  end.

Definition spawn_pellets : list Pellet.t := spawn_rows (enumerate 0 WORLD_MAP).

(** The pellet that lies in the middle of a tile. *)
Definition pellet_at (x y : Z) : Pellet.t :=
  Pellet.Make (IZR x + 0.5) (IZR y + 0.5) false.

Lemma pellet_at_inj (x y x' y' : Z) : pellet_at x y = pellet_at x' y' -> x = x' /\ y = y'.
Proof.
  unfold pellet_at. intros [= Hx Hy]. split; apply eq_IZR; lra.
Qed.

Lemma elem_of_enumerate {A : Type} (start : Z) (l : list A) (i : Z) (a : A) :
  (i, a) ∈ enumerate start l <-> start <= i /\ l !! Z.to_nat (i - start) = Some a.
Proof.
  revert start. induction l as [|b rest IH]; intros start; cbn [enumerate].
  - split; [intros H; inversion H|intros [_ H]; discriminate].
  - rewrite elem_of_cons, IH. split.
    + intros [[= -> ->]|[Hle Hl]].
      * split; [lia|]. rewrite Z.sub_diag. reflexivity.
      * split; [lia|].
        replace (Z.to_nat (i - start)) with (S (Z.to_nat (i - (start + 1)))) by lia.
        exact Hl.
    + intros [Hle Hl]. destruct (decide (i = start)) as [->|Hne].
      * left. rewrite Z.sub_diag in Hl. change (Some b = Some a) in Hl. congruence.
      * right. split; [lia|].
        replace (Z.to_nat (i - start)) with (S (Z.to_nat (i - (start + 1)))) in Hl by lia.
        exact Hl.
Qed.

Lemma elem_of_spawn_row (y : Z) (row : list (Z * ascii)) (pellet : Pellet.t) :
  pellet ∈ spawn_row y row
  <-> exists x, (x, "0"%char) ∈ row /\ pellet = pellet_at x y.
Proof.
  induction row as [|[x tile] rest IH]; cbn [spawn_row].
  - split; [intros H; inversion H|intros (x & H & _); inversion H].
  - destruct (Ascii.eqb tile "0") eqn:Htile.
    + apply Ascii.eqb_eq in Htile as ->. rewrite elem_of_cons, IH. split.
      * intros [->|(x' & Hin & ->)]; [exists x|exists x']; (split; [|reflexivity]);
          [left|right; exact Hin].
      * intros (x' & Hin & ->). apply elem_of_cons in Hin as [[= ->]|Hin];
          [left; reflexivity|right; exists x'; split; [exact Hin|reflexivity]].
    + apply Ascii.eqb_neq in Htile. rewrite IH. split.
      * intros (x' & Hin & ->). exists x'. split; [right; exact Hin|reflexivity].
      * intros (x' & Hin & ->). apply elem_of_cons in Hin as [[= -> Ht]|Hin];
          [congruence|exists x'; split; [exact Hin|reflexivity]].
Qed.

Lemma elem_of_spawn_rows (start : Z) (rows : list (list ascii)) (pellet : Pellet.t) :
  pellet ∈ spawn_rows (enumerate start rows)
  <-> exists x y row,
        start <= y /\ rows !! Z.to_nat (y - start) = Some row
        /\ 0 <= x /\ row !! Z.to_nat x = Some "0"%char
        /\ pellet = pellet_at x y.
Proof.
  revert start. induction rows as [|row rest IH]; intros start;
    cbn [enumerate spawn_rows].
  - split; [intros H; inversion H|intros (x & y & row & _ & H & _); discriminate].
  - rewrite elem_of_app, elem_of_spawn_row, IH. split.
    + intros [(x & Hin & ->)|(x & y & row' & Hy & Hrow & Hx & Htile & ->)].
      * apply elem_of_enumerate in Hin as [Hx Htile]. rewrite Z.sub_0_r in Htile.
        exists x, start, row. rewrite Z.sub_diag. repeat split; (exact Hx || exact Htile || lia).
      * exists x, y, row'. split; [lia|].
        replace (Z.to_nat (y - start)) with (S (Z.to_nat (y - (start + 1)))) by lia.
        repeat split; assumption.
    + intros (x & y & row' & Hy & Hrow & Hx & Htile & ->).
      destruct (decide (y = start)) as [->|Hne].
      * left. rewrite Z.sub_diag in Hrow. change (Some row = Some row') in Hrow.
        injection Hrow as <-.
        exists x. split; [|reflexivity]. apply elem_of_enumerate.
        rewrite Z.sub_0_r. split; assumption.
      * right. exists x, y, row'. split; [lia|].
        replace (Z.to_nat (y - start)) with (S (Z.to_nat (y - (start + 1)))) in Hrow by lia.
        repeat split; assumption.
Qed.

Lemma spawn_row_NoDup (y start : Z) (row : list ascii) :
  NoDup (spawn_row y (enumerate start row)).
Proof.
  revert start. induction row as [|tile rest IH]; intros start;
    cbn [enumerate spawn_row]; [constructor|].
  destruct (Ascii.eqb tile "0"); [|apply IH].
  constructor; [|apply IH].
  intros Hin. apply elem_of_spawn_row in Hin as (x & Hin & Heq).
  apply elem_of_enumerate in Hin as [Hx _].
  apply (pellet_at_inj start y x y) in Heq as [-> _]. lia.
Qed.

Lemma spawn_rows_NoDup (start : Z) (rows : list (list ascii)) :
  NoDup (spawn_rows (enumerate start rows)).
Proof.
  revert start. induction rows as [|row rest IH]; intros start;
    cbn [enumerate spawn_rows]; [constructor|].
  apply NoDup_app. split; [apply spawn_row_NoDup|]. split; [|apply IH].
  intros pellet Hrow Hrest.
  apply elem_of_spawn_row in Hrow as (x & _ & ->).
  apply elem_of_spawn_rows in Hrest as (x' & y' & row' & Hy & _ & _ & _ & Heq).
  apply pellet_at_inj in Heq as [_ ->]. lia.
Qed.

(** The rows of the map are all as long as the first. *)
Lemma world_map_rows (y : nat) (row : list ascii) :
  WORLD_MAP !! y = Some row -> Z.of_nat (length row) = MAP_WIDTH.
Proof.
  intros Hrow.
  assert (Hall : Forall (fun row => Z.of_nat (length row) = MAP_WIDTH) WORLD_MAP)
    by (repeat constructor).
  rewrite Forall_lookup in Hall. exact (Hall y row Hrow).
Qed.

(** A tile is open exactly if the map holds the character 0 there. *)
Lemma grid_blocked_open (x y : Z) :
  grid_blocked x y = false
  <-> 0 <= x /\ 0 <= y /\ world_map_at y x = Some "0"%char.
Proof.
  unfold grid_blocked. split.
  - destruct (x <? 0) eqn:Hx; [discriminate|].
    destruct (y <? 0) eqn:Hy; [discriminate|].
    destruct (x >=? MAP_WIDTH); [discriminate|].
    destruct (y >=? MAP_HEIGHT); [discriminate|]. cbn [orb].
    destruct (world_map_at y x) as [t|]; [|discriminate].
    unfold open_tile. intros Ht. apply negb_false_iff, Ascii.eqb_eq in Ht as ->.
    split; [lia|]. split; [lia|reflexivity].
  - intros (Hx & Hy & Ht). rewrite Ht.
    unfold world_map_at in Ht.
    destruct (WORLD_MAP !! Z.to_nat y) as [row|] eqn:Hrow; [|discriminate].
    pose proof (world_map_rows _ _ Hrow) as Hwidth.
    apply lookup_lt_Some in Hrow. apply lookup_lt_Some in Ht.
    replace (x <? 0) with false by (symmetry; apply Z.ltb_ge; lia).
    replace (y <? 0) with false by (symmetry; apply Z.ltb_ge; lia).
    replace (x >=? MAP_WIDTH) with false
      by (symmetry; rewrite Z.geb_leb; apply Z.leb_gt; lia).
    replace (y >=? MAP_HEIGHT) with false
      by (symmetry; rewrite Z.geb_leb; apply Z.leb_gt; unfold MAP_HEIGHT; lia).
    reflexivity.
Qed.

Lemma elem_of_spawn_pellets (pellet : Pellet.t) :
  pellet ∈ spawn_pellets
  <-> exists x y, grid_blocked x y = false /\ pellet = pellet_at x y.
Proof.
  unfold spawn_pellets. rewrite elem_of_spawn_rows. split.
  - intros (x & y & row & Hy & Hrow & Hx & Htile & ->). rewrite Z.sub_0_r in Hrow.
    exists x, y. split; [|reflexivity]. apply grid_blocked_open.
    split; [exact Hx|]. split; [exact Hy|]. unfold world_map_at. rewrite Hrow. exact Htile.
  - intros (x & y & Hopen & ->). apply grid_blocked_open in Hopen as (Hx & Hy & Htile).
    unfold world_map_at in Htile.
    destruct (WORLD_MAP !! Z.to_nat y) as [row|] eqn:Hrow; [|discriminate].
    exists x, y, row. rewrite Z.sub_0_r. repeat split; assumption.
Qed.

Lemma pellet_at_free (x y : Z) :
  grid_blocked x y = false ->
  is_blocking (Pellet.x (pellet_at x y)) (Pellet.y (pellet_at x y)) = false.
Proof.
  intros Hopen. pose proof Hopen as Hfree.
  apply grid_blocked_open in Hopen as (Hx & Hy & _).
  cbn [pellet_at Pellet.x Pellet.y].
  rewrite (is_blocking_tile _ _ x y); [exact Hfree|lra|lra|exact Hx|exact Hy].
Qed.

(** X17.  [spawn_pellets] puts one pellet in the middle of every open tile
    and nowhere else: a pellet is in the list exactly if it is the
    uncollected pellet at [(x + 0.5, y + 0.5)] for a tile [(x, y)] that
    [grid_blocked] says is free, no pellet is in the list twice, and every
    pellet lies at a point that [is_blocking] says is free. *)
Theorem spawn_pellets_open_tiles :
  (forall pellet : Pellet.t,
     pellet ∈ spawn_pellets
     <-> exists x y : Z,
           grid_blocked x y = false
           /\ pellet = Pellet.Make (IZR x + 0.5) (IZR y + 0.5) false)
  /\ NoDup spawn_pellets
  /\ (forall pellet : Pellet.t,
        pellet ∈ spawn_pellets ->
        is_blocking (Pellet.x pellet) (Pellet.y pellet) = false).
Proof.
  split; [exact elem_of_spawn_pellets|]. split; [apply spawn_rows_NoDup|].
  intros pellet Hin. apply elem_of_spawn_pellets in Hin as (x & y & Hopen & ->).
  apply pellet_at_free. exact Hopen.
Qed.

(** ** The game loop *)

Definition move_player (player : Player.t) (move_x move_y : R) : Player.t :=
  let '(x, y) := move_entity (Player.x player) (Player.y player) move_x move_y in
  Player.Make x y (Player.dir_x player) (Player.dir_y player)
              (Player.plane_x player) (Player.plane_y player).

Definition MONSTER_SPAWNS : list (R * R) := [(15.5%R, 9.5%R)].

(** [spawn_monsters]: the phase of a monster is drawn at random, [random i]
    being what the call of [random.random()] for monster [i] returns. *)
Definition spawn_monsters (random : nat -> R) : list Monster.t :=
  imap (fun i '(x, y) => Monster.Make x y 1.2 (random i * tau) 0.0 [] 0.0) MONSTER_SPAWNS.

(** [math.ceil] *)
Definition py_ceil (x : R) : Z := - Int_part (- x).

(** The variables of [main] that make up the state of the game. *)
Module Game.
Record t : Type := Make {
  player : Player.t;
  monsters : list Monster.t;
  pellets : list Pellet.t;
  collected_count : Z;
  win_target : Z;
  alive : bool;
  won : bool
}.
End Game.

Definition reset_state (random : nat -> R) : Game.t :=
  let player_obj := spawn_player in
  let monster_list := spawn_monsters random in
  let pellet_list := spawn_pellets in
  let total := Z.of_nat (length pellet_list) in
  let collected := 0 in
  let win_target := Z.max 1 (py_ceil (IZR total / 2)) in
  Game.Make player_obj monster_list pellet_list collected win_target true false.

Inductive key : Type := K_w | K_s | K_q | K_e | K_a | K_d | K_r.

(** The keys that move and turn the player, in the order in which the loop
    asks for them. *)
Definition apply_keys (keys : key -> bool) (delta_time : R) (player : Player.t)
  : Player.t :=
  let move_speed := (3.0 * delta_time)%R in
  let rot_speed := (1.8 * delta_time)%R in
  let player :=
    if keys K_w
    then move_player player (Player.dir_x player * move_speed)
                     (Player.dir_y player * move_speed)
    else player in
  let player :=
    if keys K_s
    then move_player player (- Player.dir_x player * move_speed)
                     (- Player.dir_y player * move_speed)
    else player in
  let player :=
    if keys K_q
    then move_player player (- Player.plane_x player * move_speed)
                     (- Player.plane_y player * move_speed)
    else player in
  let player :=
    if keys K_e
    then move_player player (Player.plane_x player * move_speed)
                     (Player.plane_y player * move_speed)
    else player in
  let player := if keys K_a then rotate_player player rot_speed else player in
  let player := if keys K_d then rotate_player player (- rot_speed) else player in
  player.

(** What a pass of the loop of [main] does to the state: while the player
    is alive and has not won, the keys, the monsters, death, the pellets and
    victory; otherwise a new game when R is down. *)
Definition tick (keys : key -> bool) (delta_time : R) (random : nat -> R) (g : Game.t)
  : res Game.t :=
  if Game.alive g && negb (Game.won g) then
    let player := apply_keys keys delta_time (Game.player g) in
    monsters ← update_monsters (Game.monsters g) player delta_time;
    let alive := if player_is_dead player monsters then false else Game.alive g in
    let '(pellets, collected_now) :=
      collect_pellets player (Game.pellets g) DEFAULT_RADIUS in
    let collected_count := Game.collected_count g + collected_now in
    let won := if collected_count >=? Game.win_target g then true else Game.won g in
    Ok (Game.Make player monsters pellets collected_count (Game.win_target g) alive won)
  else if keys K_r then Ok (reset_state random)
  else Ok g.

(** The calls of a pass that draw the world: an exception of one of them
    ends the pass.  The minimap and the texts, which only call pygame, are
    left out. *)
Definition render (g : Game.t) : res unit :=
  let danger_distance := nearest_monster_distance (Game.player g) (Game.monsters g) in
  '(_, depth_buffer) ← cast_rays (Game.player g);
  _ ← (draw_collectibles (Game.player g) (Game.pellets g) depth_buffer
         load_pellet_sprite).2;
  _ ← (draw_monsters (Game.player g) (Game.monsters g) depth_buffer
         load_monster_frames).2;
  if Game.alive g && negb (Game.won g)
  then _ ← draw_danger_overlay danger_distance; Ok ()
  else Ok ().

(** What a pass of the loop reads from outside: the keys that are down, the
    time since the last pass, and the random numbers for a new game. *)
Module Input.
Record t : Type := Make { keys : key -> bool; delta_time : R; random : nat -> R }.
End Input.

(** The loop of [main], one pass per input. *)
Fixpoint play (inputs : list Input.t) (g : Game.t) : res Game.t :=
  match inputs with
  | [] => Ok g
  | input :: rest =>
      g' ← tick (Input.keys input) (Input.delta_time input) (Input.random input) g;
      _ ← render g';
      play rest g'
  end.

(** Where a pellet lies. *)
Definition place (pellet : Pellet.t) : R * R := (Pellet.x pellet, Pellet.y pellet).

(** What every pass of the loop keeps. *)
Record sound (g : Game.t) : Prop := Sound {
  sound_player :
    is_blocking (Player.x (Game.player g)) (Player.y (Game.player g)) = false;
  sound_det : camera_det (Game.player g) = 0.66%R;
  sound_dir : magnitude (direction (Game.player g)) = 1%R;
  sound_plane : magnitude (plane (Game.player g)) = 0.66%R;
  sound_monsters :
    Forall (fun monster => is_blocking (Monster.x monster) (Monster.y monster) = false)
           (Game.monsters g);
  sound_herd : length (Game.monsters g) = length MONSTER_SPAWNS;
  sound_pellets : map place (Game.pellets g) = map place spawn_pellets;
  sound_count : Game.collected_count g = count_collected (Game.pellets g);
  sound_target :
    Game.win_target g = Z.max 1 (py_ceil (IZR (Z.of_nat (length spawn_pellets)) / 2));
  sound_alive :
    Game.alive g = negb (player_is_dead (Game.player g) (Game.monsters g));
  sound_won : Game.won g = (Game.collected_count g >=? Game.win_target g)
}.

Lemma py_ceil_le (x : R) : (x <= IZR (py_ceil x))%R.
Proof.
  unfold py_ceil. rewrite opp_IZR. destruct (base_Int_part (- x)). lra.
Qed.

(** *** The player *)

Definition steady (player : Player.t) : Prop :=
  is_blocking (Player.x player) (Player.y player) = false
  /\ camera_det player = 0.66%R
  /\ magnitude (direction player) = 1%R
  /\ magnitude (plane player) = 0.66%R.

Lemma move_player_steady (player : Player.t) (move_x move_y : R) :
  steady player -> steady (move_player player move_x move_y).
Proof.
  intros (Hfree & Hdet & Hdir & Hplane). unfold move_player.
  pose proof (move_entity_safe _ _ move_x move_y Hfree) as Hsafe.
  destruct (move_entity (Player.x player) (Player.y player) move_x move_y) as [x y].
  split; [exact Hsafe|]. split; [exact Hdet|]. split; [exact Hdir|exact Hplane].
Qed.

Lemma rotate_player_direction (player : Player.t) (angle : R) :
  direction (rotate_player player angle) = rotation angle (direction player).
Proof. unfold rotate_player, direction, rotation. cbn. f_equal; ring. Qed.

Lemma rotate_player_plane (player : Player.t) (angle : R) :
  plane (rotate_player player angle) = rotation angle (plane player).
Proof. unfold rotate_player, plane, rotation. cbn. f_equal; ring. Qed.

Lemma rotate_player_det (player : Player.t) (angle : R) :
  camera_det (rotate_player player angle) = camera_det player.
Proof.
  unfold camera_det, rotate_player. cbn. pose proof (cos_sin_unit angle) as H.
  replace ((Player.plane_x player * cos angle - Player.plane_y player * sin angle)
           * (Player.dir_x player * sin angle + Player.dir_y player * cos angle)
           - (Player.dir_x player * cos angle - Player.dir_y player * sin angle)
             * (Player.plane_x player * sin angle + Player.plane_y player * cos angle))%R
    with ((Player.plane_x player * Player.dir_y player
           - Player.dir_x player * Player.plane_y player)
          * (cos angle * cos angle + sin angle * sin angle))%R by ring.
  rewrite H. ring.
Qed.

Lemma rotate_player_steady (player : Player.t) (angle : R) :
  steady player -> steady (rotate_player player angle).
Proof.
  intros (Hfree & Hdet & Hdir & Hplane). split; [exact Hfree|].
  split; [rewrite rotate_player_det; exact Hdet|].
  split.
  - rewrite rotate_player_direction, rotation_magnitude. exact Hdir.
  - rewrite rotate_player_plane, rotation_magnitude. exact Hplane.
Qed.

Lemma apply_keys_steady (keys : key -> bool) (delta_time : R) (player : Player.t) :
  steady player -> steady (apply_keys keys delta_time player).
Proof.
  intros H. unfold apply_keys. cbv zeta.
  destruct (keys K_d); [apply rotate_player_steady|];
    (destruct (keys K_a); [apply rotate_player_steady|]);
    (destruct (keys K_e); [apply move_player_steady|]);
    (destruct (keys K_q); [apply move_player_steady|]);
    (destruct (keys K_s); [apply move_player_steady|]);
    (destruct (keys K_w); [apply move_player_steady|]); exact H.
Qed.

Lemma spawn_player_steady : steady spawn_player.
Proof.
  split; [cbn [spawn_player Player.x Player.y]; blocking_at 3 3|].
  split; [apply spawn_det|].
  unfold magnitude, direction, plane, hypot, spawn_player. cbn [Player.dir_x Player.dir_y
    Player.plane_x Player.plane_y fst snd].
  split.
  - replace (-1.0 * -1.0 + 0.0 * 0.0)%R with 1%R by lra. apply sqrt_1.
  - replace (0.0 * 0.0 + 0.66 * 0.66)%R with (0.66 * 0.66)%R by lra.
    apply sqrt_square. lra.
Qed.

(** *** The monsters *)

Lemma update_monster_free (player : Player.t) (delta_time : R)
    (monster monster' : Monster.t) :
  update_monster player delta_time monster = Ok monster' ->
  is_blocking (Monster.x monster) (Monster.y monster) = false ->
  is_blocking (Monster.x monster') (Monster.y monster') = false.
Proof.
  intros Hu. destruct (update_monster_inv _ _ _ _ Hu) as (m1 & Hplan & ->).
  destruct (plan_fields _ _ _ _ Hplan) as (Hx & Hy & _).
  rewrite <- Hx, <- Hy. intros Hfree. unfold chase.
  destruct (steer player m1) as [path [tx ty]].
  destruct (Rltb 0.001 _);
  match goal with
  | |- context [move_entity ?x ?y ?mx ?my] =>
      pose proof (move_entity_safe x y mx my Hfree) as Hsafe;
      destruct (move_entity x y mx my) as [x' y']
  end; exact Hsafe.
Qed.

Lemma update_monsters_free (monsters : list Monster.t) (player : Player.t)
    (delta_time : R) :
  Forall (fun monster => is_blocking (Monster.x monster) (Monster.y monster) = false)
         monsters ->
  exists monsters',
    update_monsters monsters player delta_time = Ok monsters'
    /\ Forall (fun monster => is_blocking (Monster.x monster) (Monster.y monster) = false)
              monsters'
    /\ length monsters' = length monsters.
Proof.
  induction monsters as [|monster rest IH]; intros Hfree.
  - exists []. split; [reflexivity|]. split; [constructor|reflexivity].
  - apply Forall_cons in Hfree as [Hm Hrest].
    destruct (IH Hrest) as (rest' & Hupd & Hfree' & Hlen).
    destruct (update_monster_returns player delta_time monster) as [monster' Hu].
    exists (monster' :: rest'). cbn [update_monsters]. rewrite Hu, Hupd.
    split; [reflexivity|]. split.
    + constructor; [exact (update_monster_free _ _ _ _ Hu Hm)|exact Hfree'].
    + cbn [length]. rewrite Hlen. reflexivity.
Qed.

Lemma spawn_monsters_eq (random : nat -> R) :
  spawn_monsters random = [Monster.Make 15.5 9.5 1.2 (random 0%nat * tau) 0.0 [] 0.0].
Proof. reflexivity. Qed.

(** *** The pellets *)

Lemma collect_pellets_places (player : Player.t) (pellets : list Pellet.t) (radius : R) :
  map place (collect_pellets player pellets radius).1 = map place pellets.
Proof.
  induction pellets as [|p rest IH]; [reflexivity|].
  cbn [collect_pellets]. destruct (collect_pellets player rest radius) as [rest' n].
  cbn [fst] in IH.
  destruct (Pellet.collected p); [cbn [fst map]; rewrite IH; reflexivity|].
  destruct (Rltb _ radius); cbn [fst map]; rewrite IH; reflexivity.
Qed.

Lemma collect_pellets_counted (player : Player.t) (pellets : list Pellet.t) (radius : R) :
  (collect_pellets player pellets radius).2
  = count_collected (collect_pellets player pellets radius).1 - count_collected pellets.
Proof.
  induction pellets as [|p rest IH]; [reflexivity|].
  cbn [collect_pellets]. destruct (collect_pellets player rest radius) as [rest' n].
  cbn [fst snd] in IH.
  destruct (Pellet.collected p) eqn:Hc.
  - cbn [fst snd count_collected]. rewrite Hc. lia.
  - destruct (Rltb _ radius); cbn [fst snd count_collected collect Pellet.collected];
      rewrite Hc; lia.
Qed.

Lemma count_collected_fresh (pellets : list Pellet.t) :
  (forall pellet, pellet ∈ pellets -> Pellet.collected pellet = false) ->
  count_collected pellets = 0.
Proof.
  induction pellets as [|p rest IH]; intros Hall; [reflexivity|].
  cbn [count_collected]. rewrite (Hall p) by left.
  rewrite IH; [reflexivity|]. intros q Hq. apply Hall. right. exact Hq.
Qed.

(** *** The passes *)

Lemma reset_sound (random : nat -> R) : sound (reset_state random).
Proof.
  destruct spawn_player_steady as (Hfree & Hdet & Hdir & Hplane).
  unfold reset_state. cbv zeta.
  constructor; cbn [Game.player Game.monsters Game.pellets Game.collected_count
                    Game.win_target Game.alive Game.won]; try assumption.
  - rewrite spawn_monsters_eq. constructor; [|constructor].
    cbn [Monster.x Monster.y]. blocking_at 15 9.
  - reflexivity.
  - reflexivity.
  - symmetry. apply count_collected_fresh. intros pellet Hin.
    apply elem_of_spawn_pellets in Hin as (x & y & _ & ->). reflexivity.
  - reflexivity.
  - rewrite spawn_monsters_eq. cbn [player_is_dead spawn_player Player.x Player.y
      Monster.x Monster.y].
    replace (Rltb (hypot (3.5 - 15.5) (3.5 - 9.5)) 0.4) with false; [reflexivity|].
    symmetry. apply Rltb_false.
    pose proof (hypot_square (3.5 - 15.5) (3.5 - 9.5)) as Hsq.
    pose proof (hypot_nonneg (3.5 - 15.5) (3.5 - 9.5)) as H0. nra.
  - symmetry. rewrite Z.geb_leb. apply Z.leb_gt. lia.
Qed.

Lemma tick_sound (keys : key -> bool) (delta_time : R) (random : nat -> R) (g : Game.t) :
  sound g -> exists g', tick keys delta_time random g = Ok g' /\ sound g'.
Proof.
  intros Hs. unfold tick.
  destruct (Game.alive g && negb (Game.won g)) eqn:Hactive.
  - apply andb_true_iff in Hactive as [Halive Hwon]. apply negb_true_iff in Hwon.
    cbv zeta.
    destruct (apply_keys_steady keys delta_time (Game.player g))
      as (Hfree & Hdet & Hdir & Hplane).
    { destruct Hs. repeat split; assumption. }
    set (player := apply_keys keys delta_time (Game.player g)) in *.
    destruct (update_monsters_free (Game.monsters g) player delta_time (sound_monsters g Hs))
      as (monsters' & Hupd & Hfree' & Hlen).
    rewrite Hupd. cbn [mbind res_mbind res_bind].
    pose proof (collect_pellets_places player (Game.pellets g) DEFAULT_RADIUS) as Hplaces.
    pose proof (collect_pellets_counted player (Game.pellets g) DEFAULT_RADIUS) as Hcount.
    destruct (collect_pellets player (Game.pellets g) DEFAULT_RADIUS) as [pellets' n].
    cbn [fst snd] in Hplaces, Hcount.
    eexists. split; [reflexivity|].
    constructor; cbn [Game.player Game.monsters Game.pellets Game.collected_count
                      Game.win_target Game.alive Game.won]; try assumption.
    + rewrite Hlen. apply (sound_herd g Hs).
    + rewrite Hplaces. apply (sound_pellets g Hs).
    + rewrite (sound_count g Hs), Hcount. lia.
    + apply (sound_target g Hs).
    + rewrite Halive. destruct (player_is_dead player monsters'); reflexivity.
    + rewrite Hwon. destruct (_ >=? _); reflexivity.
  - destruct (keys K_r).
    + exists (reset_state random). split; [reflexivity|apply reset_sound].
    + exists g. split; [reflexivity|exact Hs].
Qed.

Lemma draw_danger_overlay_returns (player : Player.t) (monsters : list Monster.t) :
  exists drawn, draw_danger_overlay (nearest_monster_distance player monsters) = Ok drawn.
Proof.
  pose proof (nearest_monster_distance_sign player monsters) as Hd.
  destruct (nearest_monster_distance player monsters) as [d| | |]; try contradiction.
  - unfold draw_danger_overlay. cbn [float_le].
    destruct (Rleb 6.0 d); [eauto|].
    cbn [float_sub float_neg float_add float_div].
    replace (Reqb 6.0 0) with false by (symmetry; apply Reqb_false; lra).
    cbn [mbind res_mbind res_bind float_mul float_int]. eauto.
  - exists None. reflexivity.
Qed.

Lemma render_returns (g : Game.t) : sound g -> render g = Ok ().
Proof.
  intros Hs. unfold render. cbv zeta.
  destruct (cast_rays_returns (Game.player g)) as (slices & buffer & Hcast & Hlen & _).
  { apply (sound_player g Hs). }
  { rewrite (sound_det g Hs). lra. }
  rewrite Hcast. cbn [mbind res_mbind res_bind].
  rewrite draw_collectibles_ok by (exact Hlen || (cbn; lia)).
  cbn [mbind res_mbind res_bind].
  rewrite draw_monsters_ok by exact Hlen.
  cbn [mbind res_mbind res_bind].
  destruct (Game.alive g && negb (Game.won g)); [|reflexivity].
  destruct (draw_danger_overlay_returns (Game.player g) (Game.monsters g)) as [drawn ->].
  reflexivity.
Qed.

Lemma bind_Ok {A B : Type} (a : A) (f : A -> res B) : (Ok a ≫= f) = f a.
Proof. reflexivity. Qed.

Lemma play_cons (input : Input.t) (rest : list Input.t) (g : Game.t) :
  play (input :: rest) g
  = g' ← tick (Input.keys input) (Input.delta_time input) (Input.random input) g;
    _ ← render g';
    play rest g'.
Proof. reflexivity. Qed.

Lemma play_sound (inputs : list Input.t) (g : Game.t) :
  sound g -> exists g', play inputs g = Ok g' /\ sound g'.
Proof.
  revert g. induction inputs as [|input rest IH]; intros g Hs.
  - exists g. split; [reflexivity|exact Hs].
  - destruct (tick_sound (Input.keys input) (Input.delta_time input)
                (Input.random input) g Hs) as (g1 & Htick & Hs1).
    rewrite play_cons, Htick, bind_Ok, (render_returns g1 Hs1), bind_Ok.
    exact (IH g1 Hs1).
Qed.


(** X19.  After every pass of the loop the score is exact: the pellets are
    where [spawn_pellets] put them, [collected_count] is the number of
    pellets whose flag is set, [alive] is false exactly if a monster is
    nearer than 0.4, and [won] is true exactly if [collected_count] has
    reached [win_target]; so a game that is won has at least one pellet and
    at least half of the pellets collected. *)
Theorem play_keeps_score (random : nat -> R) (inputs : list Input.t) :
  exists g : Game.t,
    play inputs (reset_state random) = Ok g
    /\ map place (Game.pellets g) = map place spawn_pellets
    /\ Game.collected_count g = count_collected (Game.pellets g)
    /\ Game.alive g = negb (player_is_dead (Game.player g) (Game.monsters g))
    /\ Game.won g = (Game.collected_count g >=? Game.win_target g)
    /\ (Game.won g = true ->
        1 <= count_collected (Game.pellets g)
        /\ Z.of_nat (length (Game.pellets g)) <= 2 * count_collected (Game.pellets g)).
Proof.
  destruct (play_sound inputs (reset_state random) (reset_sound random)) as (g & Hplay & Hs).
  exists g. split; [exact Hplay|]. destruct Hs as [_ _ _ _ _ _ Hp Hc Ht Ha Hw].
  split; [exact Hp|]. split; [exact Hc|]. split; [exact Ha|]. split; [exact Hw|].
  intros Hwon. rewrite Hwon in Hw. symmetry in Hw. rewrite Z.geb_leb in Hw.
  apply Z.leb_le in Hw. rewrite Hc, Ht in Hw.
  assert (Hlen : length (Game.pellets g) = length spawn_pellets).
  { rewrite <- (length_map place (Game.pellets g)), Hp. apply length_map. }
  rewrite Hlen. split; [lia|].
  pose proof (py_ceil_le (IZR (Z.of_nat (length spawn_pellets)) / 2)) as Hceil.
  assert (Hle : py_ceil (IZR (Z.of_nat (length spawn_pellets)) / 2)
                <= count_collected (Game.pellets g)) by lia.
  apply IZR_le in Hle. apply le_IZR. rewrite mult_IZR. lra.
Qed.
